(** * JotBird for Obsidian: markdown pipeline and publish reconciliation

    A shallow embedding of [markdown.ts], [types.ts] and [main.ts].

    - Text is a sequence of UTF-16 code units, as in JavaScript.
    - The regular expressions of the source are kept as syntax trees and run
      by a backtracking matcher that follows the ECMAScript matcher
      semantics (continuation passing, greedy and lazy quantifiers, capture
      groups, back references, negative lookahead, line anchors).
    - The plugin object, the host application and the remote service are an
      explicit state; every call that leaves the plugin is recorded in a
      trace together with its outcome. *)

From Stdlib Require Import String Ascii DecimalString.
From Stdlib Require Import NArith ZArith Bool Arith Lia List.
Import ListNotations.

Set Implicit Arguments.

(** ** JavaScript strings *)

Module Js.

Definition char := N.
Definition jsstring := list char.

(** A literal of the source, written as a Rocq string. *)
Definition str (s : string) : jsstring :=
  map N_of_ascii (list_ascii_of_string s).

Definition LF : char := 10%N.
Definition CR : char := 13%N.

Definition eqc (a b : char) : bool := N.eqb a b.

Fixpoint eqs (a b : jsstring) : bool :=
  match a, b with
  | [], [] => true
  | x :: a', y :: b' => eqc x y && eqs a' b'
  | _, _ => false
  end.

Definition inRange (lo hi c : char) : bool := (N.leb lo c && N.leb c hi)%bool.

Arguments eqc (a b)%_N.
Arguments inRange (lo hi c)%_N.

(** LineTerminator: LF, CR, U+2028, U+2029. *)
Definition isLineTerminator (c : char) : bool :=
  (eqc c 10 || eqc c 13 || eqc c 8232 || eqc c 8233)%N%bool.

(** WhiteSpace and LineTerminator: the class [\s], also what [trim] removes. *)
Definition isSpace (c : char) : bool :=
  (inRange 9 13 c || eqc c 32 || eqc c 160 || eqc c 5760
   || inRange 8192 8202 c || eqc c 8232 || eqc c 8233 || eqc c 8239
   || eqc c 8287 || eqc c 12288 || eqc c 65279)%N%bool.

Definition isLower (c : char) : bool := inRange 97 122 c.
Definition isUpper (c : char) : bool := inRange 65 90 c.
Definition isDigit (c : char) : bool := inRange 48 57 c.
Definition isAlpha (c : char) : bool := (isLower c || isUpper c)%bool.

(** The class [\w]. *)
Definition isWord (c : char) : bool :=
  (isAlpha c || isDigit c || eqc c 95)%N%bool.

(** [String.prototype.toLowerCase] restricted to [A-Z] (used on the
    extension table only, whose keys are ASCII). *)
Definition lowerAscii (c : char) : char := if isUpper c then (c + 32)%N else c.

Fixpoint dropSpaces (s : jsstring) : jsstring :=
  match s with
  | c :: s' => if isSpace c then dropSpaces s' else s
  | [] => []
  end.

(** [s.trim()] *)
Definition trim (s : jsstring) : jsstring :=
  rev (dropSpaces (rev (dropSpaces s))).

Definition zlen (s : jsstring) : Z := Z.of_nat (length s).

(** [s.slice(a, b)]: negative positions count from the end. *)
Definition slice (s : jsstring) (a b : Z) : jsstring :=
  let len := zlen s in
  let from := if (a <? 0)%Z then Z.max (len + a) 0 else Z.min a len in
  let to := if (b <? 0)%Z then Z.max (len + b) 0 else Z.min b len in
  firstn (Z.to_nat (to - from)) (skipn (Z.to_nat from) s).

(** [s.slice(a)] *)
Definition sliceFrom (s : jsstring) (a : Z) : jsstring := slice s a (zlen s).

Fixpoint startsWith (s p : jsstring) : bool :=
  match p, s with
  | [], _ => true
  | x :: p', y :: s' => eqc x y && startsWith s' p'
  | _ :: _, [] => false
  end.

(** [s.endsWith(p)] *)
Definition endsWith (s p : jsstring) : bool := startsWith (rev s) (rev p).

(** Largest index [i <= from] with [s[i] = c], or -1: [s.lastIndexOf(c, from)]
    for a one-character search string; [from] is clamped to the string. *)
Fixpoint lastIndexOfChar (c : char) (s : jsstring) (i : nat) (limit : nat) (found : Z) : Z :=
  match s with
  | [] => found
  | x :: s' =>
      if Nat.ltb limit i then found
      else lastIndexOfChar c s' (S i) limit (if eqc x c then Z.of_nat i else found)
  end.

Definition lastIndexOf (s : jsstring) (c : char) (from : Z) : Z :=
  lastIndexOfChar c s 0 (Z.to_nat (Z.max from 0)) (-1)%Z.

(** [s.split(sep).join(by)] for a non-empty [sep]: every occurrence of [sep],
    scanning left to right without overlap, is replaced by [by]. The counter
    [skip] is the number of characters of the current occurrence still to
    be passed over. *)
Fixpoint splitJoinFrom (sep by_ : jsstring) (s : jsstring) (skip : nat) : jsstring :=
  match s with
  | [] => []
  | c :: s' =>
      match skip with
      | S k => splitJoinFrom sep by_ s' k
      | O =>
          if startsWith s sep
          then by_ ++ splitJoinFrom sep by_ s' (pred (length sep))
          else c :: splitJoinFrom sep by_ s' 0
      end
  end.

Definition splitJoin (s sep by_ : jsstring) : jsstring := splitJoinFrom sep by_ s 0.

(** Truthiness of a string: non-empty. *)
Definition truthy (s : jsstring) : bool :=
  match s with [] => false | _ => true end.

End Js.
Import Js.

(** ** Regular expressions *)

Module Regex.

Inductive regex : Type :=
| Eps
| Chr (p : char -> bool)
| Seq (r1 r2 : regex)
| Alt (r1 r2 : regex)
| Rep (greedy : bool) (min : nat) (max : option nat) (r : regex)
| Grp (n : nat) (r : regex)
| Bref (n : nat)
| NegAhead (r : regex)
| Bol
| Eol.

(** A position in the subject: the characters before it (nearest first), its
    index, the characters after it, and the captures made so far. *)
Record MState := mkM {
  before : list char;
  idx : nat;
  after : list char;
  caps : list (nat * jsstring)
}.

Fixpoint capture (n : nat) (cs : list (nat * jsstring)) : option jsstring :=
  match cs with
  | [] => None
  | (k, v) :: cs' => if Nat.eqb k n then Some v else capture n cs'
  end.

Fixpoint groupsOf (r : regex) : list nat :=
  match r with
  | Seq a b | Alt a b => groupsOf a ++ groupsOf b
  | Rep _ _ _ a | NegAhead a => groupsOf a
  | Grp n a => n :: groupsOf a
  | _ => []
  end.

Definition clearCaps (gs : list nat) (cs : list (nat * jsstring)) :=
  filter (fun kv => negb (existsb (Nat.eqb (fst kv)) gs)) cs.

Definition advance (x : MState) : option MState :=
  match after x with
  | [] => None
  | c :: rest => Some (mkM (c :: before x) (S (idx x)) rest (caps x))
  end.

(** Consume the literal [s] at [x]. *)
Fixpoint eat (s : jsstring) (x : MState) : option MState :=
  match s with
  | [] => Some x
  | c :: s' =>
      match after x with
      | d :: _ =>
          if eqc c d then
            match advance x with Some y => eat s' y | None => None end
          else None
      | [] => None
      end
  end.

(** The text between two positions of one subject. *)
Definition between (x y : MState) : jsstring :=
  rev (firstn (idx y - idx x) (before y)).

Definition orElse {A} (a : option A) (b : unit -> option A) : option A :=
  match a with Some v => Some v | None => b tt end.

Definition predMax (m : option nat) : option nat :=
  match m with Some k => Some (pred k) | None => None end.

(** The matcher of [r] from position [x] with continuation [k]; [ml] is the
    [m] flag. The repetition follows RepeatMatcher. Each iteration either
    uses up one of the [min] mandatory rounds or, [min] being exhausted, must
    consume a character (an iteration that matches the empty text is
    rejected), and a position never moves backwards; so the counter
    [min + remaining input] is not exhausted while a further iteration could
    succeed, and at 0 the only way on is the continuation. *)
Fixpoint run (ml : bool) (r : regex) (x : MState) (k : MState -> option MState)
  {struct r} : option MState :=
  match r with
  | Eps => k x
  | Chr p =>
      match after x with
      | c :: _ => if p c then match advance x with Some y => k y | None => None end
                  else None
      | [] => None
      end
  | Seq a b => run ml a x (fun y => run ml b y k)
  | Alt a b => orElse (run ml a x k) (fun _ => run ml b x k)
  | Rep greedy min max a =>
      (fix rep (fuel : nat) (min : nat) (max : option nat) (x : MState)
         {struct fuel} : option MState :=
         match fuel with
         | O => k x
         | S fuel' =>
             match max with
             | Some O => k x
             | _ =>
                 let d := fun y : MState =>
                   if (Nat.eqb min 0 && Nat.eqb (idx y) (idx x))%bool then None
                   else rep fuel' (pred min) (predMax max) y in
                 let xr := mkM (before x) (idx x) (after x)
                               (clearCaps (groupsOf a) (caps x)) in
                 if negb (Nat.eqb min 0) then run ml a xr d
                 else if greedy
                      then orElse (run ml a xr d) (fun _ => k x)
                      else orElse (k x) (fun _ => run ml a xr d)
             end
         end) (min + length (after x)) min max x
  | Grp n a =>
      run ml a x (fun y =>
        k (mkM (before y) (idx y) (after y)
               ((n, between x y) :: clearCaps [n] (caps y))))
  | Bref n =>
      match capture n (caps x) with
      | None => k x
      | Some s => match eat s x with Some y => k y | None => None end
      end
  | NegAhead a =>
      match run ml a x (fun y => Some y) with
      | Some _ => None
      | None => k x
      end
  | Bol =>
      match before x with
      | [] => k x
      | c :: _ => if (ml && isLineTerminator c)%bool then k x else None
      end
  | Eol =>
      match after x with
      | [] => k x
      | c :: _ => if (ml && isLineTerminator c)%bool then k x else None
      end
  end.

(** A successful match: [match.index], [match[0]] and the groups. *)
Record MatchInfo := mkMatch {
  m_index : nat;
  m_text : jsstring;
  m_caps : list (nat * jsstring)
}.

Definition group (n : nat) (m : MatchInfo) : jsstring :=
  match capture n (m_caps m) with Some s => s | None => [] end.

(** One attempt at position [x]. *)
Definition matchAt (ml : bool) (r : regex) (bef : list char) (i : nat) (aft : list char)
  : option MatchInfo :=
  let x := mkM bef i aft [] in
  match run ml r x (fun y => Some y) with
  | Some y => Some (mkMatch i (between x y) (caps y))
  | None => None
  end.

(** [r.exec(s)] without the [g] flag, [s.match(r)], [r.test(s)]: the
    leftmost match. *)
Fixpoint execFrom (ml : bool) (r : regex) (bef : list char) (i : nat) (aft : list char)
  : option MatchInfo :=
  match matchAt ml r bef i aft with
  | Some m => Some m
  | None =>
      match aft with
      | [] => None
      | c :: aft' => execFrom ml r (c :: bef) (S i) aft'
      end
  end.

Definition exec (ml : bool) (r : regex) (s : jsstring) : option MatchInfo :=
  execFrom ml r [] 0 s.

Definition test (ml : bool) (r : regex) (s : jsstring) : bool :=
  match exec ml r s with Some _ => true | None => false end.

(** All matches of a [g] regex in order, as the loop
    [while ((m = r.exec(s)) !== null)] and [replace] visit them: the search
    resumes where the previous match ended (one further on after an empty
    match). [skip] counts the characters of the last match not yet passed. *)
Fixpoint matchesFrom (ml : bool) (r : regex) (bef : list char) (i : nat) (aft : list char)
  (skip : nat) {struct aft} : list MatchInfo :=
  match skip with
  | S k =>
      match aft with
      | [] => []
      | c :: aft' => matchesFrom ml r (c :: bef) (S i) aft' k
      end
  | O =>
      match matchAt ml r bef i aft with
      | Some m =>
          m :: match aft with
               | [] => []
               | c :: aft' =>
                   matchesFrom ml r (c :: bef) (S i) aft' (pred (length (m_text m)))
               end
      | None =>
          match aft with
          | [] => []
          | c :: aft' => matchesFrom ml r (c :: bef) (S i) aft' 0
          end
      end
  end.

Definition matchAll (ml : bool) (r : regex) (s : jsstring) : list MatchInfo :=
  matchesFrom ml r [] 0 s 0.

(** Rebuild the subject with every match replaced: [pos] is the index up to
    which the subject has been copied. *)
Fixpoint spliceFrom (f : MatchInfo -> jsstring) (s : jsstring) (pos : nat)
  (ms : list MatchInfo) : jsstring :=
  match ms with
  | [] => skipn pos s
  | m :: ms' =>
      firstn (m_index m - pos) (skipn pos s) ++ f m
        ++ spliceFrom f s (m_index m + length (m_text m)) ms'
  end.

(** [s.replace(r, f)] for a [g] regex; the callback receives the match, from
    which it reads the groups, the offset and (at its call site) the subject. *)
Definition replaceAll (ml : bool) (r : regex) (f : MatchInfo -> jsstring) (s : jsstring)
  : jsstring :=
  spliceFrom f s 0 (matchAll ml r s).

(** *** Pattern syntax *)

Definition chr (c : string) : regex :=
  match str c with
  | [x] => Chr (eqc x)
  | _ => Chr (fun _ => false)
  end.

Fixpoint lits (s : jsstring) : regex :=
  match s with
  | [] => Eps
  | [c] => Chr (eqc c)
  | c :: s' => Seq (Chr (eqc c)) (lits s')
  end.

Definition lit (s : string) : regex := lits (str s).

(** A literal under the [i] flag. The patterns here are ASCII, for which a
    character matches its two cases and nothing else. *)
Definition ciChar (c : char) : regex :=
  Chr (fun d => eqc (lowerAscii d) (lowerAscii c)).

Fixpoint cilits (s : jsstring) : regex :=
  match s with
  | [] => Eps
  | [c] => ciChar c
  | c :: s' => Seq (ciChar c) (cilits s')
  end.

Definition cilit (s : string) : regex := cilits (str s).

Fixpoint seq (rs : list regex) : regex :=
  match rs with
  | [] => Eps
  | [r] => r
  | r :: rs' => Seq r (seq rs')
  end.

Fixpoint alt (rs : list regex) : regex :=
  match rs with
  | [] => Chr (fun _ => false)
  | [r] => r
  | r :: rs' => Alt r (alt rs')
  end.

Definition star (r : regex) : regex := Rep true 0 None r.
Definition plus (r : regex) : regex := Rep true 1 None r.
Definition opt (r : regex) : regex := Rep true 0 (Some 1) r.
Definition lazyStar (r : regex) : regex := Rep false 0 None r.
Definition atLeast (n : nat) (r : regex) : regex := Rep true n None r.
Definition fromTo (n m : nat) (r : regex) : regex := Rep true n (Some m) r.

(** [[\s\S]], [.], [\s], [\w], [[^...]] *)
Definition anyChar : regex := Chr (fun _ => true).
Definition dot : regex := Chr (fun c => negb (isLineTerminator c)).
Definition space : regex := Chr isSpace.
Definition noneOf (s : string) : regex :=
  Chr (fun c => negb (existsb (eqc c) (str s))).
Definition noneOfChars (s : jsstring) : regex :=
  Chr (fun c => negb (existsb (eqc c) s)).

End Regex.
Import Regex.

(** ** The host's documents (obsidian [TAbstractFile], [TFile], [TFolder]) *)

Record TFile := mkFile {
  path : jsstring;
  name : jsstring;
  basename : jsstring;
  extension : jsstring
}.

Inductive TAbstractFile : Type :=
| AFile (f : TFile)
| AFolder (folderPath : jsstring).

(** ** markdown.ts, the text passes *)

Module Markdown.

Definition cr : regex := Chr (eqc CR).
Definition lf : regex := Chr (eqc LF).

(** [/^---\r?\n[\s\S]*?\r?\n---\r?\n?/] *)
Definition frontmatterRe : regex :=
  seq [Bol; lit "---"; opt cr; lf; lazyStar anyChar; opt cr; lf; lit "---";
       opt cr; opt lf].

Definition stripFrontmatter (md : jsstring) : jsstring :=
  match exec false frontmatterRe md with
  | Some m => sliceFrom md (zlen (m_text m))
  | None => md
  end.

(** [/\[\[([^\]|]+)\|([^\]]+)\]\]/g] *)
Definition aliasedLinkRe : regex :=
  seq [lit "[["; Grp 1 (plus (noneOf "]|")); chr "|"; Grp 2 (plus (noneOf "]"));
       lit "]]"].

(** [/\[\[([^\]]+)\]\]/g] *)
Definition plainLinkRe : regex :=
  seq [lit "[["; Grp 1 (plus (noneOf "]")); lit "]]"].

Definition convertWikiLinks (md : jsstring) : jsstring :=
  let md := replaceAll false aliasedLinkRe (group 2) md in
  let md := replaceAll false plainLinkRe (group 1) md in
  md.

(** [/%%[\s\S]*?%%/g] *)
Definition commentRe : regex := seq [lit "%%"; lazyStar anyChar; lit "%%"].

Definition stripComments (md : jsstring) : jsstring :=
  replaceAll false commentRe (fun _ => []) md.

(** [/(^|\s)#(?!#|\s)([\w/-]+)/gm] *)
Definition tagRe : regex :=
  seq [Grp 1 (Alt Bol space); chr "#"; NegAhead (Alt (chr "#") space);
       Grp 2 (plus (Chr (fun c => (isWord c || eqc c 47 || eqc c 45)%bool)))].

(** [/^#{0,6}$/] *)
Definition hashesOnlyRe : regex := seq [Bol; fromTo 0 6 (chr "#"); Eol].

(** The replacement callback of [stripTags]; [str] is the subject. *)
Definition stripTagsCallback (str : jsstring) (m : MatchInfo) : jsstring :=
  let match_ := m_text m in
  let prefix := group 1 m in
  let offset := Z.of_nat (m_index m) in
  let lineStart := (lastIndexOf str LF (offset - 1) + 1)%Z in
  let beforeOnLine := slice str lineStart (offset + zlen prefix) in
  if (test false hashesOnlyRe (trim beforeOnLine)
      && Nat.ltb 0 (length (trim beforeOnLine)))%bool
  then match_
  else prefix.

Definition stripTags (md : jsstring) : jsstring :=
  replaceAll true tagRe (stripTagsCallback md) md.

(** Code regions, as half-open index ranges. *)
Record Region := mkRegion { r_start : nat; r_end : nat }.

(** [/^(`{3,}|~{3,}).*\n[\s\S]*?\n\1\s*$/gm] *)
Definition fencedRe : regex :=
  seq [Bol; Grp 1 (Alt (atLeast 3 (chr "`")) (atLeast 3 (chr "~"))); star dot; lf;
       lazyStar anyChar; lf; Bref 1; star space; Eol].

(** [/`[^`\n]+`/g] *)
Definition inlineRe : regex :=
  seq [chr "`"; plus (noneOfChars (str "`" ++ [LF])); chr "`"].

Definition regionOf (m : MatchInfo) : Region :=
  mkRegion (m_index m) (m_index m + length (m_text m)).

Definition buildCodeRegions (md : jsstring) : list Region :=
  map regionOf (matchAll true fencedRe md)
  ++ map regionOf (matchAll false inlineRe md).

Definition isInsideCode (offset : nat) (regions : list Region) : bool :=
  existsb (fun r => (Nat.leb (r_start r) offset && Nat.ltb offset (r_end r))%bool)
          regions.

(** [/\.(png|jpe?g|gif|webp|svg)$/i] *)
Definition imageExtensions : regex :=
  seq [chr ".";
       alt [cilit "png"; seq [cilit "jp"; opt (cilit "e"); cilit "g"]; cilit "gif";
            cilit "webp"; cilit "svg"];
       Eol].

(** [wikiImageRegex], with the pieces spaced out:
    [/ !\[\[ ( [^\]|]+ (?: \. [a-zA-Z]+ ) ) (?: \| [^\]]* )? \]\] /g] *)
Definition wikiImageRegex : regex :=
  seq [lit "![["; Grp 1 (seq [plus (noneOf "]|"); chr "."; plus (Chr isAlpha)]);
       opt (seq [chr "|"; star (noneOf "]")]); lit "]]"].

(** [mdImageRegex], with the pieces spaced out:
    [/ !\[ ( [^\]]* ) \]\( (?! https?:\/\/ ) ( [^)]+ ) \) /g] *)
Definition mdImageRegex : regex :=
  seq [lit "!["; Grp 1 (star (noneOf "]")); lit "]("; 
       NegAhead (seq [lit "http"; opt (chr "s"); lit "://"]);
       Grp 2 (plus (noneOf ")")); chr ")"].

(** The extension table of [getMimeType]. *)
Definition mimeTable : list (jsstring * jsstring) :=
  [ (str "png", str "image/png"); (str "jpg", str "image/jpeg");
    (str "jpeg", str "image/jpeg"); (str "gif", str "image/gif");
    (str "webp", str "image/webp"); (str "svg", str "image/svg+xml") ].

Fixpoint lookupStr {V} (k : jsstring) (t : list (jsstring * V)) : option V :=
  match t with
  | [] => None
  | (k', v) :: t' => if eqs k' k then Some v else lookupStr k t'
  end.

Definition getMimeType (ext : jsstring) : option jsstring :=
  lookupStr (map lowerAscii ext) mimeTable.

(** The predicate handed to [find] in [resolveAndUploadImage]. *)
Definition refersTo (fileName : jsstring) (f : TFile) : bool :=
  (eqs (path f) fileName || eqs (name f) fileName
   || endsWith (path f) (str "/" ++ fileName))%bool.

(** [const resolved = vault.getFiles().find(...)] *)
Definition resolved (files : list TFile) (fileName : jsstring) : option TFile :=
  find (refersTo fileName) files.

(** References the two scans of [processImages] hand on to resolution:
    matches outside code whose name carries an image extension. *)
Definition wikiImageRefs (md : jsstring) : list MatchInfo :=
  filter (fun m => (negb (isInsideCode (m_index m) (buildCodeRegions md))
                    && test false imageExtensions (group 1 m))%bool)
         (matchAll false wikiImageRegex md).

Definition mdImageRefs (md : jsstring) : list MatchInfo :=
  filter (fun m => (negb (isInsideCode (m_index m) (buildCodeRegions md))
                    && test false imageExtensions (group 2 m))%bool)
         (matchAll false mdImageRegex md).

(** The patterns of [extractTitle]: the header block
    [/^---\r?\n[\s\S]*?\r?\n---/], the title line [/^title:\s*(.+)$/m], a
    single or double quote at either end (flag [g]), and the first level-1
    heading [/^#\s+(.+)$/m]. *)
Definition frontmatterBlockRe : regex :=
  seq [Bol; lit "---"; opt cr; lf; lazyStar anyChar; opt cr; lf; lit "---"].

Definition titleLineRe : regex :=
  seq [Bol; lit "title:"; star space; Grp 1 (plus dot); Eol].

Definition quote : regex := Chr (fun c => (eqc c 34 || eqc c 39)%bool).
Definition edgeQuoteRe : regex := Alt (Seq Bol quote) (Seq quote Eol).

Definition h1Re : regex := seq [Bol; chr "#"; plus space; Grp 1 (plus dot); Eol].

Definition extractTitle (content : jsstring) (file : TFile) : jsstring :=
  let fromFrontmatter :=
    match exec false frontmatterBlockRe content with
    | Some fmMatch =>
        match exec true titleLineRe (m_text fmMatch) with
        | Some titleMatch =>
            Some (replaceAll false edgeQuoteRe (fun _ => []) (trim (group 1 titleMatch)))
        | None => None
        end
    | None => None
    end in
  match fromFrontmatter with
  | Some t => t
  | None =>
      let stripped := stripFrontmatter content in
      match exec true h1Re stripped with
      | Some h1Match => trim (group 1 h1Match)
      | None => basename file
      end
  end.

End Markdown.
Import Markdown.

(** ** JavaScript objects used as maps

    Keys in insertion order: assigning to a present key keeps its place,
    assigning to an absent key appends it, [delete] removes it. (Keys that
    look like array indices would be enumerated first; the keys here are
    document paths and header property names.) Inherited properties of
    [Object.prototype] are not modelled. *)

Module JsObj.
Section Obj.
Variable V : Type.

Definition t := list (jsstring * V).

Fixpoint get (o : t) (k : jsstring) : option V :=
  match o with
  | [] => None
  | (k', v) :: o' => if eqs k' k then Some v else get o' k
  end.

Fixpoint set (o : t) (k : jsstring) (v : V) : t :=
  match o with
  | [] => [(k, v)]
  | (k', v') :: o' => if eqs k' k then (k', v) :: o' else (k', v') :: set o' k v
  end.

Fixpoint delete (o : t) (k : jsstring) : t :=
  match o with
  | [] => []
  | (k', v') :: o' => if eqs k' k then delete o' k else (k', v') :: delete o' k
  end.

(** [Object.entries(o)] *)
Definition entries (o : t) : list (jsstring * V) := o.

Definition keys (o : t) : list jsstring := map fst o.
End Obj.
End JsObj.

(** ** types.ts *)

Module Types.

Record JotBirdSettings := mkSettings {
  apiKey : jsstring;
  stripTags : bool;
  autoCopyLink : bool;
  storeFrontmatter : bool
}.

Definition DEFAULT_SETTINGS : JotBirdSettings := mkSettings [] true true true.

Record PublishedNote := mkNote {
  slug : jsstring;
  url : jsstring;
  editToken : option jsstring;
  publishedAt : jsstring
}.

Record PluginData := mkData {
  d_settings : JotBirdSettings;
  d_publishedNotes : JsObj.t PublishedNote;
  d_deviceFingerprint : jsstring;
  d_proRefreshDone : bool
}.

(** [ttlDays: number | null]; only its truthiness is ever inspected. *)
Record PublishResponse := mkPublishResponse {
  res_slug : jsstring;
  res_url : jsstring;
  res_title : jsstring;
  res_expiresAt : option jsstring;
  res_ttlDays : option Z;
  res_created : bool;
  res_editToken : option jsstring
}.

Record DocumentListItem := mkItem {
  item_slug : jsstring;
  item_title : jsstring;
  item_url : jsstring;
  item_source : jsstring;
  item_updatedAt : jsstring;
  item_expiresAt : jsstring
}.

Record DocumentListResponse := mkList {
  documents : list DocumentListItem;
  list_isPro : option bool
}.

Record ClaimResponse := mkClaim {
  claim_ok : bool;
  claim_slug : jsstring;
  claim_url : jsstring;
  claim_expiresAt : option jsstring;
  claim_ttlDays : option Z
}.

Record ImageUploadResponse := mkUpload { upload_url : jsstring }.

End Types.
Import Types.

(** ** Values, exceptions and the calls that leave the plugin *)

(** A header value: the plugin writes strings and never reads the rest. *)
Inductive JsValue : Type :=
| VString (s : jsstring)
| VOther (tag : N).

Definition Frontmatter := JsObj.t JsValue.

(** What a [catch] clause receives: an [Error] with its message, or some
    other thrown value. *)
Inductive JsError : Type :=
| ErrorObj (message : jsstring)
| Thrown.

Inductive Result (A : Type) : Type :=
| Ok (a : A)
| Throw (e : JsError).
Arguments Ok {A} a.
Arguments Throw {A} e.

(** [!ttlDays] *)
Definition falsyNumber (n : option Z) : bool :=
  match n with
  | None => true
  | Some z => Z.eqb z 0
  end.

(** [x ?? ""] *)
Definition orEmpty (x : option jsstring) : jsstring :=
  match x with Some s => s | None => [] end.

(** [!!x] for an optional string *)
Definition truthyOpt (x : option jsstring) : bool :=
  match x with Some s => truthy s | None => false end.

(** What a run leaves behind, in order: the calls to the collaborators with
    their outcomes, the notices shown, and a mark for each run of
    [refreshProExpiration] (which may otherwise leave no trace). *)
Inductive Event : Type :=
| EPublishNote (apiKey markdown title : jsstring) (slug : option jsstring)
    (out : Result PublishResponse)
| ETrialPublish (deviceFingerprint markdown title : jsstring)
    (slug editToken : option jsstring) (out : Result PublishResponse)
| EListDocuments (apiKey : jsstring) (out : Result DocumentListResponse)
| EClaimDocument (apiKey slug editToken : jsstring) (out : Result ClaimResponse)
| EUploadImage (apiKey : jsstring) (data : list N) (filename mimeType : jsstring)
    (out : Result ImageUploadResponse)
| EProcessFrontMatter (file : TFile) (fn : Frontmatter -> Frontmatter)
    (out : Result unit)
| ESaveData (data : PluginData) (out : Result unit)
| EClipboard (text : jsstring) (out : Result unit)
| ENotice (message : jsstring)
| ERefreshProExpiration (excludePath : jsstring).

(** The collaborators of [main.ts] over a world [W]: the functions of
    [api.ts] as the plugin calls them (they resolve or throw), the vault,
    the file manager, plugin storage, the clipboard and the clock. *)
Record Host (W : Type) := mkHost {
  publishNote : jsstring -> jsstring -> jsstring -> option jsstring ->
                W -> Result PublishResponse * W;
  trialPublish : jsstring -> jsstring -> jsstring -> option jsstring ->
                 option jsstring -> W -> Result PublishResponse * W;
  listDocuments : jsstring -> W -> Result DocumentListResponse * W;
  claimDocument : jsstring -> jsstring -> jsstring -> W -> Result ClaimResponse * W;
  uploadImage : jsstring -> list N -> jsstring -> jsstring ->
                W -> Result ImageUploadResponse * W;
  vault_read : TFile -> W -> Result jsstring * W;
  vault_readBinary : TFile -> W -> Result (list N) * W;
  vault_getFiles : W -> list TFile;
  vault_getAbstractFileByPath : jsstring -> W -> option TAbstractFile;
  processFrontMatter : TFile -> (Frontmatter -> Frontmatter) -> W -> Result unit * W;
  saveData : PluginData -> W -> Result unit * W;
  clipboard_writeText : jsstring -> W -> Result unit * W;
  toISOString_now : W -> jsstring
}.

(** The fields of the plugin object. *)
Record Plugin := mkPlugin {
  settings : JotBirdSettings;
  publishedNotes : JsObj.t PublishedNote;
  deviceFingerprint : jsstring;
  isPro : bool;
  proRefreshDone : bool
}.

Record State (W : Type) := mkState {
  this : Plugin;
  world : W
}.

(** ** Computations: state, exceptions and the events emitted *)

Module Comp.
Section Monad.
Variable W : Type.

Definition M (A : Type) : Type := State W -> Result A * State W * list Event.

Definition ret {A} (a : A) : M A := fun s => (Ok a, s, []).

Definition throw {A} (e : JsError) : M A := fun s => (Throw e, s, []).

Definition bind {A B} (m : M A) (f : A -> M B) : M B :=
  fun s =>
    match m s with
    | (Ok a, s1, ev1) =>
        match f a s1 with
        | (r, s2, ev2) => (r, s2, ev1 ++ ev2)
        end
    | (Throw e, s1, ev1) => (Throw e, s1, ev1)
    end.

(** [try { m } catch (e) { h e }] *)
Definition tryCatch {A} (m : M A) (h : JsError -> M A) : M A :=
  fun s =>
    match m s with
    | (Ok a, s1, ev1) => (Ok a, s1, ev1)
    | (Throw e, s1, ev1) =>
        match h e s1 with
        | (r, s2, ev2) => (r, s2, ev1 ++ ev2)
        end
    end.

Definition emit (e : Event) : M unit := fun s => (Ok tt, s, [e]).

Definition getThis : M Plugin := fun s => (Ok (this s), s, []).

Definition getWorld : M W := fun s => (Ok (world s), s, []).

Definition modifyThis (f : Plugin -> Plugin) : M unit :=
  fun s => (Ok tt, mkState (f (this s)) (world s), []).

(** A call to a collaborator: it moves the world on, resolves or throws,
    and is recorded with its outcome. *)
Definition call {A} (op : W -> Result A * W) (ev : Result A -> Event) : M A :=
  fun s =>
    match op (world s) with
    | (r, w') => (r, mkState (this s) w', [ev r])
    end.

(** A call that is not recorded (reads of the vault). *)
Definition query {A} (op : W -> Result A * W) : M A :=
  fun s =>
    match op (world s) with
    | (r, w') => (r, mkState (this s) w', [])
    end.
End Monad.
End Comp.
Import Comp.

Arguments ret {W A} a.
Arguments throw {W A} e.
Arguments bind {W A B} m f.
Arguments tryCatch {W A} m h.
Arguments emit {W} e.
Arguments getThis {W}.
Arguments getWorld {W}.
Arguments modifyThis {W} f.
Arguments call {W A} op ev.
Arguments query {W A} op.

Notation "x <- m ;; k" := (bind m (fun x => k))
  (at level 61, m at next level, right associativity).
Notation "m ;;; k" := (bind m (fun _ => k))
  (at level 61, right associativity).

(** [String(n)] for a count *)
Definition numToString (n : nat) : jsstring :=
  str (NilZero.string_of_uint (Nat.to_uint n)).

Definition nl2 : jsstring := [LF; LF].

(** [/not found/i] and [/^# /] *)
Definition notFoundRe : regex := cilit "not found".
Definition startsWithH1Re : regex := seq [Bol; lit "# "].

Section Plugin.
Variable W : Type.
Variable host : Host W.

Local Abbreviation M := (Comp.M W).

(** ** markdown.ts, the passes that reach the vault and the service *)

Definition resolveAndUploadImage (fileName apiKey : jsstring) (sourceFile : TFile)
  : M (option jsstring) :=
  w <- getWorld ;;
  match resolved (vault_getFiles host w) fileName with
  | None => ret None
  | Some f =>
      tryCatch
        (data <- query (vault_readBinary host f) ;;
         match getMimeType (extension f) with
         | None => ret None
         | Some mimeType =>
             result <- call (uploadImage host apiKey data (name f) mimeType)
                            (EUploadImage apiKey data (name f) mimeType) ;;
             ret (Some (upload_url result))
         end)
        (fun _ => ret None)
  end.

Record Replacement := mkReplacement { original : jsstring; rep_url : jsstring }.

(** One of the two scanning loops of [processImages] over the references
    it does not skip: [nameOf] picks the group to resolve, [wrap] builds
    the queued text from the match and the URL. *)
Fixpoint uploadAll (nameOf : MatchInfo -> jsstring)
  (wrap : MatchInfo -> jsstring -> jsstring) (apiKey : jsstring) (sourceFile : TFile)
  (refs : list MatchInfo) : M (list Replacement) :=
  match refs with
  | [] => ret []
  | m :: refs' =>
      url <- resolveAndUploadImage (nameOf m) apiKey sourceFile ;;
      rest <- uploadAll nameOf wrap apiKey sourceFile refs' ;;
      ret (if truthyOpt url
           then mkReplacement (m_text m) (wrap m (orEmpty url)) :: rest
           else rest)
  end.

Definition applyReplacement (md : jsstring) (r : Replacement) : jsstring :=
  let replacement :=
    if startsWith (original r) (str "![[")
    then str "![](" ++ rep_url r ++ str ")"
    else rep_url r in
  splitJoin md (original r) replacement.

Definition processImages (md apiKey : jsstring) (sourceFile : TFile) : M jsstring :=
  wiki <- uploadAll (group 1) (fun _ url => url) apiKey sourceFile
                    (wikiImageRefs md) ;;
  std <- uploadAll (group 2)
                   (fun m url => str "![" ++ group 1 m ++ str "](" ++ url ++ str ")")
                   apiKey sourceFile (mdImageRefs md) ;;
  ret (fold_left applyReplacement (wiki ++ std) md).

Definition processMarkdown (content : jsstring) (sourceFile : TFile)
  (apiKey : jsstring) (shouldStripTags : bool) : M jsstring :=
  let md := stripFrontmatter content in
  let md := stripComments md in
  md <- processImages md apiKey sourceFile ;;
  let md := convertWikiLinks md in
  let md := if shouldStripTags then Markdown.stripTags md else md in
  ret (trim md).

(** ** main.ts *)

Definition notice (msg : jsstring) : M unit := emit (ENotice msg).

Definition saveSettings : M unit :=
  p <- getThis ;;
  let data := mkData (settings p) (publishedNotes p) (deviceFingerprint p)
                     (proRefreshDone p) in
  call (saveData host data) (ESaveData data).

(** The callback [writeFrontmatter] hands to [processFrontMatter]. Its
    [expiresAt] is a string at every call site, so [?.] and [??] around the
    slice never take their null branch. *)
Definition frontmatterWriter (url expiresAt : jsstring) (ttlDays : option Z)
  (fm : Frontmatter) : Frontmatter :=
  let fm := JsObj.delete fm (str "jotbird_link") in
  let fm := JsObj.delete fm (str "jotbird_expires") in
  let fm := JsObj.set fm (str "jotbird_link") (VString url) in
  let fm := JsObj.set fm (str "jotbird_expires")
              (VString (if falsyNumber ttlDays then str "never"
                        else slice expiresAt 0 10)) in
  let fm := JsObj.delete fm (str "jotbird_url") in
  let fm := JsObj.delete fm (str "jotbird_slug") in
  let fm := JsObj.delete fm (str "jotbird_published") in
  fm.

Definition writeFrontmatter (file : TFile) (url expiresAt : jsstring)
  (ttlDays : option Z) : M unit :=
  p <- getThis ;;
  if negb (storeFrontmatter (settings p)) then ret tt
  else
    let fn := frontmatterWriter url expiresAt ttlDays in
    tryCatch (call (processFrontMatter host file fn) (EProcessFrontMatter file fn))
             (fun _ => ret tt).

Definition plural (n : nat) : jsstring := if Nat.eqb n 1 then [] else str "s".

(** The loop of [refreshProExpiration]; the result is [updated]. *)
Fixpoint refreshLoop (excludePath : jsstring)
  (entries : list (jsstring * PublishedNote)) : M nat :=
  match entries with
  | [] => ret 0
  | (filePath, note) :: rest =>
      if eqs filePath excludePath then refreshLoop excludePath rest
      else
        w <- getWorld ;;
        match vault_getAbstractFileByPath host filePath w with
        | Some (AFile file) =>
            one <- tryCatch (writeFrontmatter file (url note) [] (Some 0%Z) ;;; ret 1)
                            (fun _ => ret 0) ;;
            more <- refreshLoop excludePath rest ;;
            ret (one + more)
        | _ => refreshLoop excludePath rest
        end
  end.

Definition refreshProExpiration (excludePath : jsstring) : M unit :=
  emit (ERefreshProExpiration excludePath) ;;;
  p <- getThis ;;
  if negb (storeFrontmatter (settings p)) then ret tt
  else
    updated <- refreshLoop excludePath (JsObj.entries (publishedNotes p)) ;;
    if Nat.ltb 0 updated
    then notice (str "JotBird: Updated " ++ numToString updated ++ str " note"
                 ++ plural updated ++ str " to Pro (no expiration).")
    else ret tt.

Definition isNotFound (e : JsError) : bool :=
  match e with
  | ErrorObj message => test false notFoundRe message
  | Thrown => false
  end.

Definition errorText (e : JsError) : jsstring :=
  match e with
  | ErrorObj message => message
  | Thrown => str "Unknown error"
  end.

(** The remote call of [publishFile]; [slug] and [editToken] are what the
    call site passes ([existing?.slug], [existing?.editToken] or nothing). *)
Definition remotePublish (hasApiKey : bool) (markdown title : jsstring)
  (slug editToken : option jsstring) : M PublishResponse :=
  p <- getThis ;;
  if hasApiKey
  then call (publishNote host (apiKey (settings p)) markdown title slug)
            (EPublishNote (apiKey (settings p)) markdown title slug)
  else call (trialPublish host (deviceFingerprint p) markdown title slug editToken)
            (ETrialPublish (deviceFingerprint p) markdown title slug editToken).

Definition setNote (filePath : jsstring) (note : PublishedNote) (p : Plugin) : Plugin :=
  mkPlugin (settings p) (JsObj.set (publishedNotes p) filePath note)
           (deviceFingerprint p) (isPro p) (proRefreshDone p).

Definition deleteNote (filePath : jsstring) (p : Plugin) : Plugin :=
  mkPlugin (settings p) (JsObj.delete (publishedNotes p) filePath)
           (deviceFingerprint p) (isPro p) (proRefreshDone p).

Definition setProRefreshDone (b : bool) (p : Plugin) : Plugin :=
  mkPlugin (settings p) (publishedNotes p) (deviceFingerprint p) (isPro p) b.

Definition setIsPro (b : bool) (p : Plugin) : Plugin :=
  mkPlugin (settings p) (publishedNotes p) (deviceFingerprint p) b (proRefreshDone p).

Definition emDash : jsstring := [8212%N].

(** [publishFile], lines 768-780: read the document, derive the title,
    run the pipeline and prepend a level-1 heading when there is none. *)
Definition prepare (file : TFile) : M (jsstring * jsstring) :=
  p <- getThis ;;
  content <- query (vault_read host file) ;;
  let title := extractTitle content file in
  markdown <- processMarkdown content file (apiKey (settings p))
                              (stripTags (settings p)) ;;
  let markdown :=
    if negb (test false startsWithH1Re markdown)
    then str "# " ++ title ++ nl2 ++ markdown
    else markdown in
  ret (title, markdown).

(** [publishFile], lines 782-821: the remote call and its single retry;
    the result is [(result, retried)]. *)
Definition publishWithRetry (hasApiKey : bool) (existing : option PublishedNote)
  (markdown title : jsstring) : M (PublishResponse * bool) :=
  tryCatch
    (result <- remotePublish hasApiKey markdown title
                 (option_map slug existing)
                 (match existing with Some n => editToken n | None => None end) ;;
     ret (result, false))
    (fun e =>
       match existing with
       | Some _ =>
           if isNotFound e
           then result <- remotePublish hasApiKey markdown title None None ;;
                ret (result, true)
           else throw e
       | None => throw e
       end).

(** [publishFile], lines 823-859: upsert the record, persist, mirror into
    the header, propagate a tier upgrade, report. The final
    [addPropertyIcons] only touches the DOM and is left out. *)
Definition recordPublished (file : TFile) (hasApiKey : bool)
  (existing : option PublishedNote) (result : PublishResponse) (retried : bool)
  : M unit :=
  w <- getWorld ;;
  modifyThis (setNote (path file)
                (mkNote (res_slug result) (res_url result) (res_editToken result)
                        (toISOString_now host w))) ;;;
  saveSettings ;;;
  writeFrontmatter file (res_url result) (orEmpty (res_expiresAt result))
                   (res_ttlDays result) ;;;
  p1 <- getThis ;;
  (if (falsyNumber (res_ttlDays result) && negb (proRefreshDone p1))%bool
   then modifyThis (setProRefreshDone true) ;;; refreshProExpiration (path file)
   else ret tt) ;;;
  let verb :=
    match existing with
    | Some _ => if negb retried then str "Updated" else str "Published"
    | None => str "Published"
    end in
  p2 <- getThis ;;
  (if autoCopyLink (settings p2)
   then call (clipboard_writeText host (res_url result)) (EClipboard (res_url result))
   else ret tt) ;;;
  if negb hasApiKey
  then
    let copyMsg := if autoCopyLink (settings p2) then str " Link copied." else [] in
    notice (str "JotBird: " ++ verb ++ str "!" ++ copyMsg ++ [LF]
            ++ str "Expires in 30 days " ++ emDash
            ++ str " connect a JotBird account for longer links.")
  else if autoCopyLink (settings p2)
  then notice (str "JotBird: " ++ verb ++ str "! Link copied.")
  else notice (str "JotBird: " ++ verb ++ str "!").

(** The body of the outer [try] of [publishFile]. *)
Definition publishBody (file : TFile) (hasApiKey : bool)
  (existing : option PublishedNote) : M unit :=
  tm <- prepare file ;;
  rr <- publishWithRetry hasApiKey existing (snd tm) (fst tm) ;;
  recordPublished file hasApiKey existing (fst rr) (snd rr).

Definition publishFile (file : TFile) : M unit :=
  p <- getThis ;;
  let hasApiKey := truthy (apiKey (settings p)) in
  let existing := JsObj.get (publishedNotes p) (path file) in
  let action := match existing with Some _ => str "Updating" | None => str "Publishing" end in
  notice (str "JotBird: " ++ action ++ str "...") ;;;
  tryCatch (publishBody file hasApiKey existing)
           (fun e => notice (str "JotBird: " ++ errorText e)).

(** The loop of [claimAnonymousDocuments]; the result is [claimed]. *)
Fixpoint claimLoop (toClaim : list (jsstring * PublishedNote)) : M nat :=
  match toClaim with
  | [] => ret 0
  | (filePath, note) :: rest =>
      one <- tryCatch
               (p <- getThis ;;
                result <- call (claimDocument host (apiKey (settings p)) (slug note)
                                              (orEmpty (editToken note)))
                               (EClaimDocument (apiKey (settings p)) (slug note)
                                               (orEmpty (editToken note))) ;;
                modifyThis (setNote filePath
                              (mkNote (claim_slug result) (claim_url result) None
                                      (publishedAt note))) ;;;
                w <- getWorld ;;
                match vault_getAbstractFileByPath host filePath w with
                | Some (AFile file) =>
                    writeFrontmatter file (claim_url result)
                                     (orEmpty (claim_expiresAt result))
                                     (claim_ttlDays result)
                | _ => ret tt
                end ;;;
                ret 1)
               (fun _ => ret 0) ;;
      more <- claimLoop rest ;;
      ret (one + more)
  end.

(** [Object.entries(this.publishedNotes).filter(([, note]) => !!note.editToken)] *)
Definition toClaimOf (notes : JsObj.t PublishedNote) : list (jsstring * PublishedNote) :=
  filter (fun e => truthyOpt (editToken (snd e))) (JsObj.entries notes).

Definition claimAnonymousDocuments : M unit :=
  p <- getThis ;;
  if negb (truthy (apiKey (settings p))) then ret tt
  else
    let toClaim := toClaimOf (publishedNotes p) in
    if Nat.eqb (length toClaim) 0 then ret tt
    else
      claimed <- claimLoop toClaim ;;
      if Nat.ltb 0 claimed
      then saveSettings ;;;
           notice (str "JotBird: " ++ numToString claimed ++ str " existing document"
                   ++ plural claimed ++ str " linked to your account.")
      else ret tt.

(** [checkProStatus] when no other invocation is in flight, so that the
    waiting loop is not entered; overlapping invocations are the subject of
    [ProCheck] below. Redrawing the settings tab is left out. *)
Definition checkProStatus : M unit :=
  p <- getThis ;;
  if negb (truthy (apiKey (settings p))) then ret tt
  else
    tryCatch
      (result <- call (listDocuments host (apiKey (settings p)))
                      (EListDocuments (apiKey (settings p))) ;;
       modifyThis (setIsPro (match list_isPro result with
                             | Some b => b
                             | None => false
                             end)))
      (fun _ => ret tt).

Definition handleProUpgrade : M unit :=
  checkProStatus ;;;
  p <- getThis ;;
  if isPro p
  then modifyThis (setProRefreshDone true) ;;;
       refreshProExpiration [] ;;;
       notice (str "JotBird: Welcome to Pro! All your links are now permanent.")
  else notice (str "JotBird: Upgrade not detected yet. Try publishing a note "
               ++ emDash ++ str " it will update automatically.").

(** The handler registered for the vault's [rename] event; [file] carries
    the new path. [saveSettings] is started and not awaited. *)
Definition onRename (file : TAbstractFile) (oldPath : jsstring) : M unit :=
  match file with
  | AFolder _ => ret tt
  | AFile f =>
      p <- getThis ;;
      match JsObj.get (publishedNotes p) oldPath with
      | Some published =>
          modifyThis (setNote (path f) published) ;;;
          modifyThis (deleteNote oldPath) ;;;
          tryCatch saveSettings (fun _ => ret tt)
      | None => ret tt
      end
  end.

(** The handler registered for the vault's [delete] event. *)
Definition onDelete (file : TAbstractFile) : M unit :=
  match file with
  | AFolder _ => ret tt
  | AFile f =>
      p <- getThis ;;
      match JsObj.get (publishedNotes p) (path f) with
      | Some _ =>
          modifyThis (deleteNote (path f)) ;;;
          tryCatch saveSettings (fun _ => ret tt)
      | None => ret tt
      end
  end.

(** What the user does in a session, as far as the tier sweep goes: publish
    a document, or have the status checked (at startup and after a
    credential arrives, where the check is started and not awaited).
    [perform] runs a list of such actions in order. *)
Inductive UserAction : Type :=
| DoPublish (file : TFile)
| DoCheckProStatus.

Definition performOne (a : UserAction) : M unit :=
  match a with
  | DoPublish file => publishFile file
  | DoCheckProStatus => tryCatch checkProStatus (fun _ => ret tt)
  end.

Fixpoint perform (acts : list UserAction) : M unit :=
  match acts with
  | [] => ret tt
  | a :: rest => performOne a ;;; perform rest
  end.

End Plugin.

Arguments processMarkdown {W} host content sourceFile apiKey shouldStripTags.
Arguments publishFile {W} host file.
Arguments perform {W} host acts.
Arguments performOne {W} host a.
Arguments claimAnonymousDocuments {W} host.
Arguments claimLoop {W} host toClaim.
Arguments checkProStatus {W} host.
Arguments handleProUpgrade {W} host.
Arguments refreshProExpiration {W} host excludePath.
Arguments writeFrontmatter {W} host file url expiresAt ttlDays.
Arguments onRename {W} host file oldPath.
Arguments onDelete {W} host file.
Arguments saveSettings {W} host.

(** ** A scripted host

    A world for running the plugin on concrete inputs, in the manner of the
    mocks of the test suite: the service answers from queues of prepared
    outcomes, the vault holds a fixed list of documents with their text. *)

Module Demo.

Record World := mkWorld {
  publishQueue : list (Result PublishResponse);
  claimQueue : list (Result ClaimResponse);
  listQueue : list (Result DocumentListResponse);
  vaultFiles : list (TFile * jsstring)
}.

Definition noAnswer {A} : Result A := Throw (ErrorObj (str "no answer")).

Definition popPublish (w : World) : Result PublishResponse * World :=
  match publishQueue w with
  | [] => (noAnswer, w)
  | r :: q => (r, mkWorld q (claimQueue w) (listQueue w) (vaultFiles w))
  end.

Definition popClaim (w : World) : Result ClaimResponse * World :=
  match claimQueue w with
  | [] => (noAnswer, w)
  | r :: q => (r, mkWorld (publishQueue w) q (listQueue w) (vaultFiles w))
  end.

Definition popList (w : World) : Result DocumentListResponse * World :=
  match listQueue w with
  | [] => (noAnswer, w)
  | r :: q => (r, mkWorld (publishQueue w) (claimQueue w) q (vaultFiles w))
  end.

Fixpoint fileAt (p : jsstring) (fs : list (TFile * jsstring)) : option (TFile * jsstring) :=
  match fs with
  | [] => None
  | (f, c) :: fs' => if eqs (path f) p then Some (f, c) else fileAt p fs'
  end.

Definition host : Host World :=
  mkHost
    (fun _ _ _ _ w => popPublish w)
    (fun _ _ _ _ _ w => popPublish w)
    (fun _ w => popList w)
    (fun _ _ _ w => popClaim w)
    (fun _ _ _ _ w => (Ok (mkUpload (str "https://share.jotbird.com/images/up.png")), w))
    (fun f w => (match fileAt (path f) (vaultFiles w) with
                 | Some (_, c) => Ok c
                 | None => Throw (ErrorObj (str "File not found"))
                 end, w))
    (fun f w => (match fileAt (path f) (vaultFiles w) with
                 | Some _ => Ok [0%N]
                 | None => Throw (ErrorObj (str "read error"))
                 end, w))
    (fun w => map fst (vaultFiles w))
    (fun p w => match fileAt p (vaultFiles w) with
                | Some (f, _) => Some (AFile f)
                | None => None
                end)
    (fun _ _ w => (Ok tt, w))
    (fun _ w => (Ok tt, w))
    (fun _ w => (Ok tt, w))
    (fun _ => str "2026-02-10T12:00:00.000Z").

Definition mdFile (p b : string) : TFile := mkFile (str p) (str b ++ str ".md") (str b) (str "md").

Definition pluginWith (key : string) (notes : JsObj.t PublishedNote) : Plugin :=
  mkPlugin (mkSettings (str key) true false true) notes (str "device-1") false false.

Definition response (s : string) (expires : option jsstring) (ttl : option Z)
  (token : option jsstring) : PublishResponse :=
  mkPublishResponse (str s) (str "https://share.jotbird.com/" ++ str s) (str "T")
                    expires ttl true token.

End Demo.


(** ** Overlapping invocations of [checkProStatus]

    JavaScript runs each invocation without interruption from one [await]
    to the next. An invocation is therefore at one of a few places: not yet
    called; suspended in the waiting loop on the promise it found in
    [proCheckInFlight]; suspended on its own promise while [listDocuments]
    is outstanding; resumable after its own promise has settled, with the
    [finally] block still to run; returned. An action runs one invocation
    from its place to its next [await]. Any order of enabled actions is
    allowed, which covers the order of the microtask queue. A promise is
    named after the invocation that created it. *)

Module ProCheck.

Inductive Place : Type :=
| NotCalled
| Waiting (promise : nat)
| Calling
| Settled
| Returned.

Inductive Ev : Type :=
| Invoke (t : nat)
| CallStart (t : nat)
| CallEnd (t : nat) (out : Result DocumentListResponse)
| Return (t : nat).

Record Sys := mkSys {
  key : jsstring;
  proCheckInFlight : option nat;
  settledPromise : nat -> bool;
  place : nat -> Place;
  sysIsPro : bool;
  log : list Ev
}.

Inductive Action : Type :=
| AInvoke (t : nat)
| AResume (t : nat)
| ARespond (t : nat) (out : Result DocumentListResponse)
| AFinish (t : nat).

Definition upd {A} (f : nat -> A) (t : nat) (v : A) : nat -> A :=
  fun u => if Nat.eqb u t then v else f u.

(** [!!result.isPro] *)
Definition tierOf (result : DocumentListResponse) : bool :=
  match list_isPro result with
  | Some b => b
  | None => false
  end.

Definition init (apiKey : jsstring) : Sys :=
  mkSys apiKey None (fun _ => false) (fun _ => NotCalled) false [].

(** The head of the waiting loop, run by invocation [t]: with a promise in
    flight, await it; with none, start the call, store the new promise and
    await it. *)
Definition loopHead (t : nat) (s : Sys) : Sys :=
  match proCheckInFlight s with
  | Some p =>
      mkSys (key s) (proCheckInFlight s) (settledPromise s)
            (upd (place s) t (Waiting p)) (sysIsPro s) (log s)
  | None =>
      mkSys (key s) (Some t) (settledPromise s)
            (upd (place s) t Calling) (sysIsPro s) (log s ++ [CallStart t])
  end.

Definition withLog (s : Sys) (evs : list Ev) : Sys :=
  mkSys (key s) (proCheckInFlight s) (settledPromise s) (place s) (sysIsPro s)
        (log s ++ evs).

Definition fire (a : Action) (s : Sys) : option Sys :=
  match a with
  | AInvoke t =>
      match place s t with
      | NotCalled =>
          if negb (truthy (key s))
          then Some (mkSys (key s) (proCheckInFlight s) (settledPromise s)
                           (upd (place s) t Returned) (sysIsPro s)
                           (log s ++ [Invoke t; Return t]))
          else Some (loopHead t (withLog s [Invoke t]))
      | _ => None
      end
  | AResume t =>
      match place s t with
      | Waiting p => if settledPromise s p then Some (loopHead t s) else None
      | _ => None
      end
  | ARespond t out =>
      match place s t with
      | Calling =>
          Some (mkSys (key s) (proCheckInFlight s) (upd (settledPromise s) t true)
                      (upd (place s) t Settled)
                      (match out with
                       | Ok result => match list_isPro result with
                                      | Some b => b
                                      | None => false
                                      end
                       | Throw _ => sysIsPro s
                       end)
                      (log s ++ [CallEnd t out]))
      | _ => None
      end
  | AFinish t =>
      match place s t with
      | Settled =>
          Some (mkSys (key s) None (settledPromise s) (upd (place s) t Returned)
                      (sysIsPro s) (log s ++ [Return t]))
      | _ => None
      end
  end.

Fixpoint runSchedule (sched : list Action) (s : Sys) : option Sys :=
  match sched with
  | [] => Some s
  | a :: rest =>
      match fire a s with
      | Some s' => runSchedule rest s'
      | None => None
      end
  end.

(** Reading a log from the start: the remote call now outstanding, if any;
    [None] once a call starts while another is outstanding or an end does
    not match the outstanding call. *)
Definition scanStep (o : option (option nat)) (e : Ev) : option (option nat) :=
  match o with
  | None => None
  | Some open =>
      match e, open with
      | CallStart t, None => Some (Some t)
      | CallStart _, Some _ => None
      | CallEnd t _, Some u => if Nat.eqb t u then Some None else None
      | CallEnd _ _, None => None
      | _, _ => Some open
      end
  end.

Definition scan (l : list Ev) : option (option nat) := fold_left scanStep l (Some None).

Definition serialized (l : list Ev) : Prop := scan l <> None.

Definition evOf (t : nat) (e : Ev) : bool :=
  match e with
  | Invoke u | CallStart u | CallEnd u _ | Return u => Nat.eqb u t
  end.

(** The events of invocation [t], in order. *)
Definition history (t : nat) (l : list Ev) : list Ev := filter (evOf t) l.

End ProCheck.

(** Concrete documents and records used in the examples below. *)

Module Samples.

Definition nestedPng : TFile :=
  mkFile (str "attachments/img.png") (str "img.png") (str "img") (str "png").

Definition rootPng : TFile :=
  mkFile (str "img.png") (str "img.png") (str "img") (str "png").

Definition noteA : PublishedNote :=
  mkNote (str "doc-a") (str "https://share.jotbird.com/doc-a") (Some (str "tok_a"))
         (str "2026-01-15T00:00:00.000Z").

Definition noteB : PublishedNote :=
  mkNote (str "doc-b") (str "https://share.jotbird.com/doc-b") (Some (str "tok_b"))
         (str "2026-01-20T00:00:00.000Z").

Definition noteC : PublishedNote :=
  mkNote (str "doc-c") (str "https://share.jotbird.com/doc-c") None
         (str "2026-01-25T00:00:00.000Z").

Definition notes : JsObj.t PublishedNote :=
  [(str "notes/a.md", noteA); (str "notes/b.md", noteB); (str "notes/c.md", noteC)].

Definition fileA : TFile := Demo.mdFile "notes/a.md" "a".
Definition fileB : TFile := Demo.mdFile "notes/b.md" "b".
Definition fileC : TFile := Demo.mdFile "notes/c.md" "c".
Definition fileNew : TFile := Demo.mdFile "notes/new.md" "new".

Definition vault : list (TFile * jsstring) :=
  [(fileA, str "# A"); (fileB, str "# B"); (fileC, str "# C"); (fileNew, str "# New")].

Definition expiry : jsstring := str "2026-05-10T00:00:00.000Z".

(** A text whose metadata header only comes to the front once the blank
    line before it is trimmed away, and a text with two tags run together. *)
Definition hiddenHeader : jsstring :=
  [LF] ++ str "---" ++ [LF] ++ str "title: X" ++ [LF] ++ str "---" ++ [LF] ++ str "body".

Definition joinedTags : jsstring := str "x #a#b".

Definition combinedNote : jsstring :=
  str "---" ++ [LF] ++ str "title: Test" ++ [LF] ++ str "tags: [a, b]" ++ [LF]
  ++ str "---" ++ [LF] ++ str "# Hello World" ++ [LF; LF]
  ++ str "See [[Other Page|that page]] for more %%secret note%% details." ++ [LF; LF]
  ++ str "#tag1 #tag2" ++ [LF; LF] ++ str "## Section Two" ++ [LF; LF]
  ++ str "Some text with [[Simple Link]].".

Definition combinedResult : jsstring :=
  str "# Hello World" ++ [LF; LF] ++ str "See that page for more  details." ++ [LF; LF]
  ++ str " " ++ [LF; LF] ++ str "## Section Two" ++ [LF; LF]
  ++ str "Some text with Simple Link.".

Definition emptyState : State Demo.World :=
  mkState (Demo.pluginWith "key" []) (Demo.mkWorld [] [] [] []).

Definition testFile : TFile := Demo.mdFile "test.md" "test".

Definition listed (pro : bool) : Result DocumentListResponse := Ok (mkList [] (Some pro)).

(** Two overlapping status checks: the second is invoked while the call of
    the first is outstanding. *)
Definition overlapping : list ProCheck.Action :=
  [ProCheck.AInvoke 1; ProCheck.AInvoke 2; ProCheck.ARespond 1 (listed false);
   ProCheck.AResume 2; ProCheck.AFinish 1; ProCheck.AResume 2;
   ProCheck.ARespond 2 (listed true); ProCheck.AFinish 2].

Definition notFound : JsError := ErrorObj (str "Publish: Document not found").
Definition rateLimited : JsError := ErrorObj (str "Publish: Rate limit exceeded").

Definition freshResponse : PublishResponse :=
  Demo.response "new-slug" (Some expiry) (Some 90%Z) None.

Definition zeroTtlResponse : PublishResponse :=
  Demo.response "zero" (Some expiry) (Some 0%Z) None.

Definition proResponse : PublishResponse :=
  Demo.response "pro-note" None None None.

(** A session with an account and three tracked records. *)
Definition session (answers : list (Result PublishResponse))
  (lists : list (Result DocumentListResponse)) : State Demo.World :=
  mkState (Demo.pluginWith "jb_key" notes) (Demo.mkWorld answers [] lists vault).

Definition retryState : State Demo.World := session [Throw notFound; Ok freshResponse] [].
Definition failState : State Demo.World := session [Throw rateLimited] [].
Definition zeroTtlState : State Demo.World := session [Ok zeroTtlResponse] [].
Definition proState : State Demo.World :=
  session [Ok proResponse; Ok proResponse]
          [Ok (mkList [] (Some true)); Ok (mkList [] (Some true))].
Definition proListState : State Demo.World :=
  session [] [Ok (mkList [] (Some true)); Ok (mkList [] (Some true))].

End Samples.

(** ** Vocabulary of the statements *)

(** No white space at the front. *)
Definition unspaced (s : jsstring) : Prop :=
  match s with
  | [] => True
  | c :: _ => isSpace c = false
  end.

(** The outcome, the final state and the events of a run. *)
Definition outcome {W A} (x : Result A * State W * list Event) : Result A := fst (fst x).
Definition final {W A} (x : Result A * State W * list Event) : State W := snd (fst x).
Definition events {W A} (x : Result A * State W * list Event) : list Event := snd x.

Definition notesOf {W} (s : State W) : JsObj.t PublishedNote := publishedNotes (this s).

(** [wp m s Q]: the run of [m] from [s] ends in an outcome, a state and a
    list of events that satisfy [Q]. *)
Definition wp {W A} (m : Comp.M W A) (s : State W)
  (Q : Result A -> State W -> list Event -> Prop) : Prop :=
  match m s with
  | (r, s', evs) => Q r s' evs
  end.

(** A publish call as the service sees it. *)
Record RemoteCall := mkCall {
  call_authenticated : bool;
  call_slug : option jsstring;
  call_editToken : option jsstring;
  call_out : Result PublishResponse
}.

Fixpoint publishCalls (evs : list Event) : list RemoteCall :=
  match evs with
  | [] => []
  | EPublishNote _ _ _ slug out :: rest => mkCall true slug None out :: publishCalls rest
  | ETrialPublish _ _ _ slug token out :: rest =>
      mkCall false slug token out :: publishCalls rest
  | _ :: rest => publishCalls rest
  end.

Record ClaimCall := mkClaimCall {
  cc_slug : jsstring;
  cc_editToken : jsstring;
  cc_out : Result ClaimResponse
}.

Fixpoint claimCalls (evs : list Event) : list ClaimCall :=
  match evs with
  | [] => []
  | EClaimDocument _ slug token out :: rest => mkClaimCall slug token out :: claimCalls rest
  | _ :: rest => claimCalls rest
  end.

(** The number of runs of [refreshProExpiration]. *)
Fixpoint sweeps (evs : list Event) : nat :=
  match evs with
  | [] => 0
  | ERefreshProExpiration _ :: rest => S (sweeps rest)
  | _ :: rest => sweeps rest
  end.

(** The header callbacks handed to the file manager, with their document. *)
Fixpoint headerWrites (evs : list Event) : list (TFile * (Frontmatter -> Frontmatter)) :=
  match evs with
  | [] => []
  | EProcessFrontMatter file fn _ :: rest => (file, fn) :: headerWrites rest
  | _ :: rest => headerWrites rest
  end.

Fixpoint notices (evs : list Event) : list jsstring :=
  match evs with
  | [] => []
  | ENotice msg :: rest => msg :: notices rest
  | _ :: rest => notices rest
  end.

(** Events that are neither a publish call, nor a claim call, nor the start
    of a sweep. *)
Definition plain (e : Event) : Prop :=
  match e with
  | EPublishNote _ _ _ _ _ | ETrialPublish _ _ _ _ _ _ | EClaimDocument _ _ _ _
  | ERefreshProExpiration _ => False
  | _ => True
  end.

(** Plain events that do not write a header either. *)
Definition silent (e : Event) : Prop :=
  match e with
  | EProcessFrontMatter _ _ _ => False
  | _ => plain e
  end.

(** The value a header holds under a key, when it is a string. *)
Definition headerString (fm : Frontmatter) (k : string) : option jsstring :=
  match JsObj.get fm (str k) with
  | Some (VString s) => Some s
  | _ => None
  end.

(** The expiration the plugin mirrors for a response. *)
Definition mirroredExpiration (expiresAt : option jsstring) (ttlDays : option Z) : jsstring :=
  match ttlDays with
  | None => str "never"
  | Some z => if Z.eqb z 0 then str "never" else slice (orEmpty expiresAt) 0 10
  end.

(** The record [publishFile] stores for a response. *)
Definition recordOf (result : PublishResponse) (now : jsstring) : PublishedNote :=
  mkNote (res_slug result) (res_url result) (res_editToken result) now.

(** The records of a mapping that carry an edit token, that is, one that is
    present and not the empty string, in the order of the mapping, each with
    its path and its token. *)
Fixpoint withToken (notes : list (jsstring * PublishedNote))
  : list (jsstring * PublishedNote * jsstring) :=
  match notes with
  | [] => []
  | (p, n) :: rest =>
      match editToken n with
      | Some (c :: t) => (p, n, c :: t) :: withToken rest
      | _ => withToken rest
      end
  end.

(** The record [claimAnonymousDocuments] leaves for a claim outcome. *)
Definition afterClaim (note : PublishedNote) (out : Result ClaimResponse) : PublishedNote :=
  match out with
  | Ok result => mkNote (claim_slug result) (claim_url result) None (publishedAt note)
  | Throw _ => note
  end.

Definition lastCall (cs : list RemoteCall) : option RemoteCall :=
  match rev cs with
  | [] => None
  | c :: _ => Some c
  end.

(** [m] always resolves, keeps the plugin object and emits only events
    that satisfy [P]. *)
Definition steady {W A} (P : Event -> Prop) (m : Comp.M W A) : Prop :=
  forall s, wp m s (fun r s' evs =>
                      (exists a, r = Ok a) /\ this s' = this s /\ Forall P evs).

(** A header write that sets the permanent expiration. *)
Definition neverWrite (e : Event) : Prop :=
  exists file u out,
    e = EProcessFrontMatter file (frontmatterWriter u [] (Some 0%Z)) out.

(** The calls [publishWithRetry] can make: the first call carries the slug
    of the existing record (and its edit token on the anonymous path), the
    retry carries neither. *)
Definition firstCall (hasApiKey : bool) (existing : option PublishedNote)
  (out : Result PublishResponse) : RemoteCall :=
  mkCall hasApiKey (option_map slug existing)
         (if hasApiKey then None
          else match existing with Some n => editToken n | None => None end)
         out.

Definition freshCall (hasApiKey : bool) (out : Result PublishResponse) : RemoteCall :=
  mkCall hasApiKey None None out.

Inductive RetryRun (hasApiKey : bool) (existing : option PublishedNote)
  : Result (PublishResponse * bool) -> list RemoteCall -> Prop :=
| run_ok res :
    RetryRun hasApiKey existing (Ok (res, false)) [firstCall hasApiKey existing (Ok res)]
| run_fail e :
    existing = None \/ isNotFound e = false ->
    RetryRun hasApiKey existing (Throw e) [firstCall hasApiKey existing (Throw e)]
| run_retry_ok e res :
    existing <> None -> isNotFound e = true ->
    RetryRun hasApiKey existing (Ok (res, true))
             [firstCall hasApiKey existing (Throw e); freshCall hasApiKey (Ok res)]
| run_retry_fail e e2 :
    existing <> None -> isNotFound e = true ->
    RetryRun hasApiKey existing (Throw e2)
             [firstCall hasApiKey existing (Throw e); freshCall hasApiKey (Throw e2)].

(** Only publish calls. *)
Definition onlyPublish (evs : list Event) : Prop :=
  length (publishCalls evs) = length evs.

(** No save of the plugin data failed. *)
Definition savesOk (evs : list Event) : Prop :=
  forall data e, ~ In (ESaveData data (Throw e)) evs.

(** The effect of [recordPublished] on the plugin object [p], for a response
    [result] received at time [now]: the record is upserted, the data is
    saved and, when the save succeeds, the header is mirrored, a tier
    upgrade seen for the first time starts the sweep, and the user is told. *)
Definition recorded (file : TFile) (result : PublishResponse) (now : jsstring)
  (p p' : Plugin) (evs : list Event) : Prop :=
  publishedNotes p' = JsObj.set (publishedNotes p) (path file) (recordOf result now)
  /\ settings p' = settings p
  /\ exists data out rest,
       evs = ESaveData data out :: rest /\
       match out with
       | Throw e => rest = [] /\ proRefreshDone p' = proRefreshDone p
       | Ok _ =>
           exists mirror sweep tail,
             rest = mirror ++ sweep ++ tail
             /\ (if storeFrontmatter (settings p)
                 then exists o,
                   mirror = [EProcessFrontMatter file
                               (frontmatterWriter (res_url result)
                                  (orEmpty (res_expiresAt result))
                                  (res_ttlDays result)) o]
                 else mirror = [])
             /\ (if (falsyNumber (res_ttlDays result) && negb (proRefreshDone p))%bool
                 then proRefreshDone p' = true
                      /\ exists writes quiet,
                           sweep = ERefreshProExpiration (path file) :: writes ++ quiet
                           /\ Forall neverWrite writes /\ Forall silent quiet
                 else sweep = [] /\ proRefreshDone p' = proRefreshDone p)
             /\ Forall silent tail
       end.

(** The runs of [publishFile] from a plugin object [p]: the document could
    not be read; the remote call failed for good; the remote call succeeded
    and the result was recorded. *)
Inductive PublishRun (file : TFile) (p : Plugin) : Plugin -> list Event -> Prop :=
| publish_unread start prep e :
    Forall silent prep ->
    PublishRun file p p
      (ENotice start :: prep ++ [ENotice (str "JotBird: " ++ errorText e)])
| publish_failed start prep calls e :
    Forall silent prep -> onlyPublish calls ->
    RetryRun (truthy (apiKey (settings p))) (JsObj.get (publishedNotes p) (path file))
             (Throw e) (publishCalls calls) ->
    PublishRun file p p
      (ENotice start :: prep ++ calls ++ [ENotice (str "JotBird: " ++ errorText e)])
| publish_done start prep calls res retried now p' rec extra :
    Forall silent prep -> onlyPublish calls ->
    RetryRun (truthy (apiKey (settings p))) (JsObj.get (publishedNotes p) (path file))
             (Ok (res, retried)) (publishCalls calls) ->
    recorded file res now p p' rec -> Forall silent extra ->
    PublishRun file p p' (ENotice start :: prep ++ calls ++ rec ++ extra).

(** The remote call that a state of the status checks has outstanding. *)
Definition outstanding (s : ProCheck.Sys) : option nat :=
  match ProCheck.proCheckInFlight s with
  | Some t => match ProCheck.place s t with
              | ProCheck.Calling => Some t
              | _ => None
              end
  | None => None
  end.

(** The history an invocation has at each of its places. *)
Definition historyAt (t : nat) (pl : ProCheck.Place) (h : list ProCheck.Ev) : Prop :=
  match pl with
  | ProCheck.NotCalled => h = []
  | ProCheck.Waiting _ => h = [ProCheck.Invoke t]
  | ProCheck.Calling => h = [ProCheck.Invoke t; ProCheck.CallStart t]
  | ProCheck.Settled =>
      exists out, h = [ProCheck.Invoke t; ProCheck.CallStart t; ProCheck.CallEnd t out]
  | ProCheck.Returned =>
      exists out, h = [ProCheck.Invoke t; ProCheck.CallStart t; ProCheck.CallEnd t out;
                       ProCheck.Return t]
  end.

(** An invocation that is about to return after a successful call of its own
    finds the tier state that this call produced. *)
Definition observesOwnCall (s : ProCheck.Sys) : Prop :=
  forall t result,
    ProCheck.place s t = ProCheck.Settled ->
    In (ProCheck.CallEnd t (Ok result)) (ProCheck.log s) ->
    ProCheck.sysIsPro s = ProCheck.tierOf result.

(** What every reachable state of the status checks satisfies. *)
Record CheckInv (apiKey : jsstring) (s : ProCheck.Sys) : Prop := mkCheckInv {
  inv_key : ProCheck.key s = apiKey;
  inv_calling : forall t, ProCheck.place s t = ProCheck.Calling ->
                          ProCheck.proCheckInFlight s = Some t;
  inv_settled : forall t, ProCheck.place s t = ProCheck.Settled ->
                          ProCheck.proCheckInFlight s = Some t;
  inv_scan : ProCheck.scan (ProCheck.log s) = Some (outstanding s);
  inv_history : forall t, historyAt t (ProCheck.place s t)
                                    (ProCheck.history t (ProCheck.log s));
  inv_observed : observesOwnCall s
}.

(** The body, title and slug of the authenticated publish calls. *)
Fixpoint sentNotes (evs : list Event) : list (jsstring * jsstring * option jsstring) :=
  match evs with
  | [] => []
  | EPublishNote _ markdown title slug _ :: rest => (markdown, title, slug) :: sentNotes rest
  | _ :: rest => sentNotes rest
  end.

(** A session without records in which the vault holds one document. *)
Definition oneDocument (file : TFile) (content : jsstring)
  (answers : list (Result PublishResponse)) : State Demo.World :=
  mkState (Demo.pluginWith "jb_key" [])
          (Demo.mkWorld answers [] [] [(file, content)]).

(** Concrete calls and runs used in the examples below. *)

Module Runs.

Definition updateCall (e : JsError) : RemoteCall :=
  mkCall true (Some (str "doc-a")) None (Throw e).

Definition createCall (res : PublishResponse) : RemoteCall :=
  mkCall true None None (Ok res).

(** Two records with edit tokens and one without; the first claim fails, the
    second succeeds. *)
Definition claimedB : ClaimResponse :=
  mkClaim true (str "doc-b2") (str "https://share.jotbird.com/doc-b2")
          (Some Samples.expiry) (Some 90%Z).

Definition claimState : State Demo.World :=
  mkState (Demo.pluginWith "jb_key" Samples.notes)
          (Demo.mkWorld [] [Throw (ErrorObj (str "Claim: Document not found")); Ok claimedB]
                        [] Samples.vault).

Definition renamedB : TFile := Demo.mdFile "archive/b.md" "b".

(** A status check, a publish that reveals the permanent tier, another
    status check and a second such publish. *)
Definition twoPublishes : list UserAction :=
  [DoCheckProStatus; DoPublish Samples.fileNew; DoCheckProStatus; DoPublish Samples.fileA].

Definition overlappingEnd : ProCheck.Sys :=
  match ProCheck.runSchedule Samples.overlapping (ProCheck.init (str "jb_key")) with
  | Some s => s
  | None => ProCheck.init []
  end.

End Runs.

(** [s] starts with [p], and [s] contains [p], up to the case of ASCII
    letters. *)
Fixpoint ciStartsWith (s p : jsstring) {struct p} : bool :=
  match p with
  | [] => true
  | x :: p' =>
      match s with
      | [] => false
      | y :: s' => (eqc (lowerAscii y) (lowerAscii x) && ciStartsWith s' p')%bool
      end
  end.

Fixpoint ciIncludes (s p : jsstring) : bool :=
  (ciStartsWith s p
   || match s with
      | [] => false
      | _ :: s' => ciIncludes s' p
      end)%bool.

(** The position [n] characters further on. *)
Fixpoint jump (n : nat) (x : MState) : MState :=
  match n with
  | O => x
  | S n' => match advance x with
            | Some y => jump n' y
            | None => x
            end
  end.


(** ** api.ts

    The functions of [api.ts] over the transport [requestUrl] of the host
    application. A response carries its status, the parsed body ([json] is
    a getter that throws when the body is not JSON) and the raw text. *)

Module Api.

(** JSON values. A number carries the text that [String] gives for it. *)
#[warnings="-register-all"] Inductive Json : Type :=
| JNull
| JBool (b : bool)
| JNum (shown : jsstring)
| JStr (s : jsstring)
| JArr (items : list Json)
| JObj (fields : list (jsstring * Json)).

(** The string a template literal makes of a value: [`${v}`]. An array is
    joined with commas, its [null] elements as empty text. *)
Fixpoint jsToString (j : Json) : jsstring :=
  match j with
  | JNull => str "null"
  | JBool b => if b then str "true" else str "false"
  | JNum shown => shown
  | JStr s => s
  | JArr items =>
      (fix join (l : list Json) : jsstring :=
         match l with
         | [] => []
         | x :: l' =>
             let one := match x with JNull => [] | _ => jsToString x end in
             match l' with
             | [] => one
             | _ :: _ => one ++ str "," ++ join l'
             end
         end) items
  | JObj _ => str "[object Object]"
  end.

Record Response := mkResponse {
  status : nat;
  json : option Json;
  text : jsstring
}.

Inductive Body : Type :=
| TextBody (s : jsstring)
| BinaryBody (bytes : list N).

Record RequestUrlParam := mkParam {
  rq_url : jsstring;
  rq_method : jsstring;
  rq_contentType : option jsstring;
  rq_body : option Body;
  rq_headers : JsObj.t jsstring;
  rq_throw : option bool
}.

Definition BASE_URL : jsstring := str "https://api.jotbird.com".
Definition USER_AGENT : jsstring := str "jotbird-obsidian/0.1.0".

Definition headers (apiKey : jsstring) : JsObj.t jsstring :=
  let h := [(str "User-Agent", USER_AGENT)] in
  if truthy apiKey
  then JsObj.set h (str "Authorization") (str "Bearer " ++ apiKey)
  else h.

(** [JSON.stringify] of an object whose values are strings. [quoteJSON] is
    QuoteJSONString: the short escapes, [\u] escapes for the other control
    characters and for surrogates that are not part of a pair. *)
Definition isLeadSurrogate (c : char) : bool := inRange 55296 56319 c.
Definition isTrailSurrogate (c : char) : bool := inRange 56320 57343 c.

Definition hexDigit (n : N) : char :=
  if (n <? 10)%N then (48 + n)%N else (87 + n)%N.

Definition unicodeEscape (c : char) : jsstring :=
  str "\u" ++ [hexDigit ((c / 4096) mod 16); hexDigit ((c / 256) mod 16);
               hexDigit ((c / 16) mod 16); hexDigit (c mod 16)]%N.

Definition backslash : char := 92%N.
Definition dquote : char := 34%N.

Definition quoteOne (c : char) : jsstring :=
  if eqc c 8 then [backslash; 98%N]
  else if eqc c 9 then [backslash; 116%N]
  else if eqc c 10 then [backslash; 110%N]
  else if eqc c 12 then [backslash; 102%N]
  else if eqc c 13 then [backslash; 114%N]
  else if eqc c dquote then [backslash; dquote]
  else if eqc c backslash then [backslash; backslash]
  else if (c <? 32)%N then unicodeEscape c
  else if (isLeadSurrogate c || isTrailSurrogate c)%bool then unicodeEscape c
  else [c].

Fixpoint quoteChars (s : jsstring) : jsstring :=
  match s with
  | [] => []
  | c :: s' =>
      match s' with
      | d :: s'' =>
          if (isLeadSurrogate c && isTrailSurrogate d)%bool
          then c :: d :: quoteChars s''
          else quoteOne c ++ quoteChars s'
      | [] => quoteOne c
      end
  end.

Definition quoteJSON (s : jsstring) : jsstring := [dquote] ++ quoteChars s ++ [dquote].

Fixpoint stringifyFields (o : list (jsstring * jsstring)) : jsstring :=
  match o with
  | [] => []
  | (k, v) :: o' =>
      let one := quoteJSON k ++ str ":" ++ quoteJSON v in
      match o' with
      | [] => one
      | _ :: _ => one ++ str "," ++ stringifyFields o'
      end
  end.

Definition stringify (o : JsObj.t jsstring) : jsstring :=
  str "{" ++ stringifyFields o ++ str "}".

Section Transport.
Variable W : Type.
Variable requestUrl : RequestUrlParam -> W -> Result Response * W.

(** An asynchronous function: it moves the world on and resolves or throws. *)
Definition Io (A : Type) : Type := W -> Result A * W.

Definition andThen {A B} (m : Io A) (f : A -> Io B) : Io B :=
  fun w =>
    match m w with
    | (Ok a, w') => f a w'
    | (Throw e, w') => (Throw e, w')
    end.

Definition settled {A} (r : Result A) : Io A := fun w => (r, w).

Definition requestFailed (status : nat) : jsstring :=
  str "Request failed with status " ++ numToString status.

(** The result is [{ status, json }]. *)
Definition apiRequest (params : RequestUrlParam) : Io (nat * Json) :=
  andThen
    (requestUrl (mkParam (rq_url params) (rq_method params) (rq_contentType params)
                         (rq_body params) (rq_headers params) (Some false)))
    (fun response =>
       let json :=
         match json response with
         | Some j => j
         | None =>
             JObj [(str "error",
                    JStr (if truthy (text response) then text response
                          else requestFailed (status response)))]
         end in
       settled (Ok (status response, json))).

Definition assertOk (status : nat) (json : Json) (context : jsstring) : Result unit :=
  if Nat.leb 400 status
  then
    let errMsg :=
      match json with
      | JObj fields =>
          match JsObj.get fields (str "error") with
          | Some v => jsToString v
          | None => requestFailed status
          end
      | _ => requestFailed status
      end in
    Throw (ErrorObj (context ++ str ": " ++ errMsg))
  else Ok tt.

Definition jsonBody (body : JsObj.t jsstring) : option Body :=
  Some (TextBody (stringify body)).

Definition publishNote (apiKey markdown title : jsstring) (slug : option jsstring)
  : Io Json :=
  let body := [(str "markdown", markdown); (str "title", title)] in
  let body := if truthyOpt slug then JsObj.set body (str "slug") (orEmpty slug)
              else body in
  andThen
    (apiRequest (mkParam (BASE_URL ++ str "/cli/publish") (str "POST")
                         (Some (str "application/json")) (jsonBody body)
                         (headers apiKey) None))
    (fun sj =>
       andThen (settled (assertOk (fst sj) (snd sj) (str "Publish")))
               (fun _ => settled (Ok (snd sj)))).

Definition listDocuments (apiKey : jsstring) : Io Json :=
  andThen
    (apiRequest (mkParam (BASE_URL ++ str "/cli/documents") (str "POST")
                         None None (headers apiKey) None))
    (fun sj =>
       andThen (settled (assertOk (fst sj) (snd sj) (str "List documents")))
               (fun _ => settled (Ok (snd sj)))).

Definition deleteDocument (apiKey slug : jsstring) : Io Json :=
  andThen
    (apiRequest (mkParam (BASE_URL ++ str "/cli/documents/delete") (str "POST")
                         (Some (str "application/json"))
                         (jsonBody [(str "slug", slug)])
                         (headers apiKey) None))
    (fun sj =>
       andThen (settled (assertOk (fst sj) (snd sj) (str "Delete")))
               (fun _ => settled (Ok (snd sj)))).

Definition claimDocument (apiKey slug editToken : jsstring) : Io Json :=
  andThen
    (apiRequest (mkParam (BASE_URL ++ str "/cli/claim") (str "POST")
                         (Some (str "application/json"))
                         (jsonBody [(str "slug", slug); (str "editToken", editToken)])
                         (headers apiKey) None))
    (fun sj =>
       andThen (settled (assertOk (fst sj) (snd sj) (str "Claim")))
               (fun _ => settled (Ok (snd sj)))).

Definition trialHeaders (deviceFingerprint : jsstring) : JsObj.t jsstring :=
  [(str "User-Agent", USER_AGENT); (str "X-Device-Fingerprint", deviceFingerprint)].

Definition trialPublish (deviceFingerprint markdown title : jsstring)
  (slug editToken : option jsstring) : Io Json :=
  let body := [(str "markdown", markdown); (str "title", title)] in
  let body := if truthyOpt slug then JsObj.set body (str "slug") (orEmpty slug)
              else body in
  let body := if truthyOpt editToken
              then JsObj.set body (str "editToken") (orEmpty editToken)
              else body in
  andThen
    (apiRequest (mkParam (BASE_URL ++ str "/trial/publish") (str "POST")
                         (Some (str "application/json")) (jsonBody body)
                         (trialHeaders deviceFingerprint) None))
    (fun sj =>
       andThen (settled (assertOk (fst sj) (snd sj) (str "Publish")))
               (fun _ => settled (Ok (snd sj)))).

Definition trialDeleteDocument (slug editToken deviceFingerprint : jsstring) : Io Json :=
  andThen
    (apiRequest (mkParam (BASE_URL ++ str "/trial/documents/delete") (str "POST")
                         (Some (str "application/json"))
                         (jsonBody [(str "slug", slug); (str "editToken", editToken)])
                         (trialHeaders deviceFingerprint) None))
    (fun sj =>
       andThen (settled (assertOk (fst sj) (snd sj) (str "Delete")))
               (fun _ => settled (Ok (snd sj)))).

End Transport.
End Api.

(** ** main.ts and settings.ts, the commands besides publishing *)

(** [Partial<PluginData>] as [loadData] returns it: any field may be
    missing, and so may any setting. *)
Record StoredSettings := mkStoredSettings {
  st_apiKey : option jsstring;
  st_stripTags : option bool;
  st_autoCopyLink : option bool;
  st_storeFrontmatter : option bool
}.

Record StoredData := mkStored {
  sd_settings : option StoredSettings;
  sd_publishedNotes : option (JsObj.t PublishedNote);
  sd_deviceFingerprint : option jsstring;
  sd_proRefreshDone : option bool
}.

Record DeleteResponse := mkDelete { delete_ok : bool }.

(** Further collaborators: the two delete functions of [api.ts], the
    answer of the user to a [ConfirmModal] with a given message (whether
    Confirm is pressed), plugin storage and [crypto.randomUUID]. *)
Record Facilities (W : Type) := mkFacilities {
  deleteDocument : jsstring -> jsstring -> W -> Result DeleteResponse * W;
  trialDeleteDocument : jsstring -> jsstring -> jsstring ->
                        W -> Result DeleteResponse * W;
  confirmModal : jsstring -> W -> bool * W;
  loadData : W -> Result (option StoredData) * W;
  randomUUID : W -> jsstring * W
}.

Definition setApiKey (key : jsstring) (p : Plugin) : Plugin :=
  mkPlugin (mkSettings key (stripTags (settings p)) (autoCopyLink (settings p))
                       (storeFrontmatter (settings p)))
           (publishedNotes p) (deviceFingerprint p) (isPro p) (proRefreshDone p).

(** [Object.assign({}, DEFAULT_SETTINGS, data.settings)] *)
Definition assignSettings (base : JotBirdSettings) (src : option StoredSettings)
  : JotBirdSettings :=
  match src with
  | None => base
  | Some st =>
      mkSettings
        (match st_apiKey st with Some v => v | None => apiKey base end)
        (match st_stripTags st with Some v => v | None => stripTags base end)
        (match st_autoCopyLink st with Some v => v | None => autoCopyLink base end)
        (match st_storeFrontmatter st with Some v => v | None => storeFrontmatter base end)
  end.

Section Commands.
Variable W : Type.
Variable host : Host W.
Variable fac : Facilities W.

Local Abbreviation M := (Comp.M W).

(** The callback [clearFrontmatter] hands to [processFrontMatter]. *)
Definition frontmatterCleaner (fm : Frontmatter) : Frontmatter :=
  let fm := JsObj.delete fm (str "jotbird_link") in
  let fm := JsObj.delete fm (str "jotbird_expires") in
  let fm := JsObj.delete fm (str "jotbird_url") in
  let fm := JsObj.delete fm (str "jotbird_slug") in
  let fm := JsObj.delete fm (str "jotbird_published") in
  fm.

Definition clearFrontmatter (file : TFile) : M unit :=
  p <- getThis ;;
  if negb (storeFrontmatter (settings p)) then ret tt
  else
    tryCatch (call (processFrontMatter host file frontmatterCleaner)
                   (EProcessFrontMatter file frontmatterCleaner))
             (fun _ => ret tt).

(** The question [unpublishNote] puts to the user. *)
Definition unpublishQuestion (file : TFile) (published : PublishedNote) : jsstring :=
  str "Unpublish " ++ [34%N] ++ basename file ++ [34%N]
  ++ str " from JotBird? This will permanently remove it from "
  ++ url published ++ str ".".

(** The remote call of [unpublishNote]. *)
Definition remoteDelete (published : PublishedNote) : M DeleteResponse :=
  p <- getThis ;;
  if truthy (apiKey (settings p))
  then query (deleteDocument fac (apiKey (settings p)) (slug published))
  else query (trialDeleteDocument fac (slug published) (orEmpty (editToken published))
                                  (deviceFingerprint p)).

(** The callback that runs when the user presses Confirm. *)
Definition unpublishConfirmed (file : TFile) (published : PublishedNote) : M unit :=
  tryCatch
    (remoteDelete published ;;;
     modifyThis (deleteNote (path file)) ;;;
     saveSettings host ;;;
     clearFrontmatter file ;;;
     notice (str "JotBird: Note unpublished."))
    (fun e => notice (str "JotBird: " ++ errorText e)).

(** [unpublishNote] together with the answer to its question: the dialog
    is opened, and when the user confirms the callback runs. *)
Definition unpublishNote (file : TFile) : M unit :=
  p <- getThis ;;
  match JsObj.get (publishedNotes p) (path file) with
  | None => notice (str "JotBird: This note is not published.")
  | Some published =>
      confirmed <- query (fun w =>
                            let (answer, w') :=
                              confirmModal fac (unpublishQuestion file published) w in
                            (Ok answer, w')) ;;
      if confirmed then unpublishConfirmed file published else ret tt
  end.

Definition loadSettings : M unit :=
  loaded <- query (loadData fac) ;;
  let data := match loaded with
              | Some d => d
              | None => mkStored None None None None
              end in
  fingerprint <-
    (if truthyOpt (sd_deviceFingerprint data)
     then ret (orEmpty (sd_deviceFingerprint data))
     else query (fun w => let (id, w') := randomUUID fac w in (Ok id, w'))) ;;
  modifyThis (fun p =>
    mkPlugin (assignSettings DEFAULT_SETTINGS (sd_settings data))
             (match sd_publishedNotes data with Some notes => notes | None => [] end)
             fingerprint
             (isPro p)
             (match sd_proRefreshDone data with Some b => b | None => false end)).

(** settings.ts: the Disconnect button, and the text field for the key. *)
Definition disconnect : M unit :=
  modifyThis (setApiKey []) ;;;
  modifyThis (setIsPro false) ;;;
  modifyThis (setProRefreshDone false) ;;;
  saveSettings host.

Definition onApiKeyChange (value : jsstring) : M unit :=
  modifyThis (setApiKey (trim value)) ;;;
  saveSettings host.

End Commands.

Arguments clearFrontmatter {W} host file.
Arguments unpublishNote {W} host fac file.
Arguments unpublishConfirmed {W} host fac file published.
Arguments remoteDelete {W} fac published.
Arguments loadSettings {W} fac.
Arguments disconnect {W} host.
Arguments onApiKeyChange {W} host value.

(** ** Vocabulary of the further statements *)

(** [z] is the position [n] characters after [x] in the same subject. *)
Definition ahead (x z : MState) : Prop :=
  exists n, n <= length (after x)
    /\ before z = rev (firstn n (after x)) ++ before x
    /\ idx z = idx x + n
    /\ after z = skipn n (after x).

(** Every match of [r] contains the character [c]: a sufficient condition
    read off the pattern. *)
Fixpoint needs (c : char) (r : regex) : Prop :=
  match r with
  | Chr p => forall d, p d = true -> d = c
  | Seq a b => needs c a \/ needs c b
  | Alt a b => needs c a /\ needs c b
  | Rep _ min max a => 0 < min /\ max <> Some 0 /\ needs c a
  | Grp _ a => needs c a
  | _ => False
  end.

Definition percent : char := 37%N.
Definition bracket : char := 91%N.
Definition hash : char := 35%N.

(** The characters of a tag, [[\w/-]]. *)
Definition tagChar (c : char) : bool := (isWord c || eqc c 47 || eqc c 45)%bool.

(** Some [#] is directly followed by a tag character. *)
Fixpoint hasTagStart (s : jsstring) : bool :=
  match s with
  | a :: t => (eqc a hash && match t with b :: _ => tagChar b | [] => false end)
              || hasTagStart t
  | [] => false
  end.

(** The text passes of the pipeline without the image pass. *)
Definition textPasses (shouldStripTags : bool) (content : jsstring) : jsstring :=
  let md := convertWikiLinks (stripComments (stripFrontmatter content)) in
  trim (if shouldStripTags then Markdown.stripTags md else md).

(** The uploads that succeeded. *)
Fixpoint uploadsDone (evs : list Event) : list ImageUploadResponse :=
  match evs with
  | [] => []
  | EUploadImage _ _ _ _ (Ok r) :: rest => r :: uploadsDone rest
  | _ :: rest => uploadsDone rest
  end.

(** The header properties the plugin owns, current and legacy. *)
Definition ownKeys : list jsstring :=
  [str "jotbird_link"; str "jotbird_expires"; str "jotbird_url"; str "jotbird_slug";
   str "jotbird_published"].

Definition isOwnKey (k : jsstring) : bool := existsb (eqs k) ownKeys.

(** The entries of a header that are not the plugin's. *)
Definition foreign (fm : Frontmatter) : Frontmatter :=
  filter (fun kv => negb (isOwnKey (fst kv))) fm.

(** The text and the title of the publish calls, authenticated or not. *)
Fixpoint sentTexts (evs : list Event) : list (jsstring * jsstring) :=
  match evs with
  | [] => []
  | EPublishNote _ markdown title _ _ :: rest => (markdown, title) :: sentTexts rest
  | ETrialPublish _ markdown title _ _ _ :: rest => (markdown, title) :: sentTexts rest
  | _ :: rest => sentTexts rest
  end.

(** The identity a publish call carries: the credential of an authenticated
    call, the device fingerprint of an anonymous one. *)
Fixpoint sentIdentities (evs : list Event) : list (bool * jsstring) :=
  match evs with
  | [] => []
  | EPublishNote key _ _ _ _ :: rest => (true, key) :: sentIdentities rest
  | ETrialPublish fingerprint _ _ _ _ _ :: rest => (false, fingerprint) :: sentIdentities rest
  | _ :: rest => sentIdentities rest
  end.

(** The fields of the plugin object that publishing never writes. *)
Definition sameAccount (p p' : Plugin) : Prop :=
  settings p' = settings p /\ deviceFingerprint p' = deviceFingerprint p
  /\ isPro p' = isPro p.

(** The documents a sweep addresses in a world: the recorded paths other
    than [excludePath] that name a document of the vault, in the order of the
    mapping, each with the url of its record. *)
Fixpoint sweepTargets {W} (host : Host W) (w : W) (excludePath : jsstring)
  (entries : list (jsstring * PublishedNote)) : list (TFile * jsstring) :=
  match entries with
  | [] => []
  | (filePath, note) :: rest =>
      if eqs filePath excludePath then sweepTargets host w excludePath rest
      else
        match vault_getAbstractFileByPath host filePath w with
        | Some (AFile file) => (file, url note) :: sweepTargets host w excludePath rest
        | _ => sweepTargets host w excludePath rest
        end
  end.

(** Writing a header does not change which paths name documents. *)
Definition stableVault {W} (host : Host W) : Prop :=
  forall file fn w p,
    vault_getAbstractFileByPath host p (snd (processFrontMatter host file fn w))
    = vault_getAbstractFileByPath host p w.

Definition sweepNotice (n : nat) : jsstring :=
  str "JotBird: Updated " ++ numToString n ++ str " note" ++ plural n
  ++ str " to Pro (no expiration).".

(** The saves of the plugin data, with their outcomes. *)
Fixpoint saves (evs : list Event) : list (PluginData * Result unit) :=
  match evs with
  | [] => []
  | ESaveData data out :: rest => (data, out) :: saves rest
  | _ :: rest => saves rest
  end.

Definition succeeded (c : ClaimCall) : bool :=
  match cc_out c with Ok _ => true | Throw _ => false end.

Definition claimNotice (n : nat) : jsstring :=
  str "JotBird: " ++ numToString n ++ str " existing document" ++ plural n
  ++ str " linked to your account.".

(** What storage returns for data that was saved: every field is there. *)
Definition storedOf (d : PluginData) : StoredData :=
  mkStored
    (Some (mkStoredSettings (Some (apiKey (d_settings d)))
                            (Some (stripTags (d_settings d)))
                            (Some (autoCopyLink (d_settings d)))
                            (Some (storeFrontmatter (d_settings d)))))
    (Some (d_publishedNotes d))
    (Some (d_deviceFingerprint d))
    (Some (d_proRefreshDone d)).

(** The error text of a reply: the [error] field of a body that is a JSON
    object, the raw text of a body that is not JSON, and the generic message
    when neither is there. *)
Definition errorTextOf (r : Api.Response) : jsstring :=
  match Api.json r with
  | Some (Api.JObj fields) =>
      match JsObj.get fields (str "error") with
      | Some v => Api.jsToString v
      | None => Api.requestFailed (Api.status r)
      end
  | Some _ => Api.requestFailed (Api.status r)
  | None => if truthy (Api.text r) then Api.text r
            else Api.requestFailed (Api.status r)
  end.

(** What a reply below 400 resolves to: its body, or for a body that is not
    JSON an object that holds its text as [error]. *)
Definition replyBody (r : Api.Response) : Api.Json :=
  match Api.json r with
  | Some j => j
  | None => Api.JObj [(str "error", Api.JStr (errorTextOf r))]
  end.

(** The functions of [api.ts] that return the body, each with the context
    it names in its errors. *)
Inductive Endpoint {W} (requestUrl : Api.RequestUrlParam -> W -> Result Api.Response * W)
  : Api.Io W Api.Json -> jsstring -> Prop :=
| ep_publishNote key markdown title slug_ :
    Endpoint requestUrl (Api.publishNote requestUrl key markdown title slug_)
             (str "Publish")
| ep_listDocuments key :
    Endpoint requestUrl (Api.listDocuments requestUrl key) (str "List documents")
| ep_deleteDocument key slug_ :
    Endpoint requestUrl (Api.deleteDocument requestUrl key slug_) (str "Delete")
| ep_claimDocument key slug_ token :
    Endpoint requestUrl (Api.claimDocument requestUrl key slug_ token) (str "Claim")
| ep_trialPublish fingerprint markdown title slug_ token :
    Endpoint requestUrl (Api.trialPublish requestUrl fingerprint markdown title slug_ token)
             (str "Publish")
| ep_trialDeleteDocument slug_ token fingerprint :
    Endpoint requestUrl (Api.trialDeleteDocument requestUrl slug_ token fingerprint)
             (str "Delete").

(** No character of [s] is [c] in either case. *)
Definition lacks (c : char) (s : jsstring) : Prop :=
  Forall (fun d => eqc (lowerAscii d) (lowerAscii c) = false) s.

(** The data [saveSettings] hands to storage for a plugin object. *)
Definition dataOf (p : Plugin) : PluginData :=
  mkData (settings p) (publishedNotes p) (deviceFingerprint p) (proRefreshDone p).

(** [m] emits only events that satisfy [P], whatever its outcome. *)
Definition emits {W A} (P : Event -> Prop) (m : Comp.M W A) : Prop :=
  forall s, wp m s (fun _ _ evs => Forall P evs).

Definition notSave (e : Event) : Prop :=
  match e with
  | ESaveData _ _ => False
  | _ => True
  end.

(** The tier a log leaves behind: the one of the last call that succeeded,
    and none while no call has. *)
Definition tierAfter (l : list ProCheck.Ev) : bool :=
  fold_left (fun b e => match e with
                        | ProCheck.CallEnd _ (Ok result) => ProCheck.tierOf result
                        | _ => b
                        end) l false.

(** An invocation that has started and not returned. *)
Definition pending (s : ProCheck.Sys) (t : nat) : Prop :=
  ProCheck.place s t <> ProCheck.NotCalled /\ ProCheck.place s t <> ProCheck.Returned.

(** What the states of the status checks satisfy besides [CheckInv]. *)
Record LiveInv (s : ProCheck.Sys) : Prop := mkLiveInv {
  live_tier : ProCheck.sysIsPro s = tierAfter (ProCheck.log s);
  live_flight : forall p, ProCheck.proCheckInFlight s = Some p ->
                  ProCheck.place s p = ProCheck.Calling
                  \/ (ProCheck.place s p = ProCheck.Settled
                      /\ ProCheck.settledPromise s p = true);
  live_waiting : forall t p, ProCheck.place s t = ProCheck.Waiting p ->
                   ProCheck.settledPromise s p = true
                   \/ ProCheck.place s p = ProCheck.Calling;
  live_calling : forall t, ProCheck.place s t = ProCheck.Calling ->
                   ProCheck.proCheckInFlight s = Some t;
  live_settled : forall t, ProCheck.place s t = ProCheck.Settled ->
                   ProCheck.proCheckInFlight s = Some t
}.

(** The state in which two status checks have started: the first has made
    its call, the second waits for it. *)
Definition bothStarted : ProCheck.Sys :=
  match ProCheck.runSchedule (firstn 2 Samples.overlapping)
                             (ProCheck.init (str "jb_key")) with
  | Some s => s
  | None => ProCheck.init []
  end.

(** The texts a pattern can consume, read off its syntax. Assertions
    consume nothing, and nothing is said here about what they require or
    about the text of a back reference. *)
Inductive Lang : regex -> jsstring -> Prop :=
| L_eps : Lang Eps []
| L_chr p c : p c = true -> Lang (Chr p) [c]
| L_seq a b s t : Lang a s -> Lang b t -> Lang (Seq a b) (s ++ t)
| L_alt_l a b s : Lang a s -> Lang (Alt a b) s
| L_alt_r a b s : Lang b s -> Lang (Alt a b) s
| L_rep_done greedy max a : Lang (Rep greedy 0 max a) []
| L_rep_stop greedy min a : Lang (Rep greedy min (Some 0) a) []
| L_rep_more greedy min max a s t :
    max <> Some 0 -> Lang a s -> Lang (Rep greedy (pred min) (predMax max) a) t ->
    Lang (Rep greedy min max a) (s ++ t)
| L_grp n a s : Lang a s -> Lang (Grp n a) s
| L_bref n s : Lang (Bref n) s
| L_negAhead a : Lang (NegAhead a) []
| L_bol : Lang Bol []
| L_eol : Lang Eol [].

(** [z] is the position [n] characters after [x]. *)
Definition aheadBy (n : nat) (x z : MState) : Prop :=
  n <= length (after x)
  /\ before z = rev (firstn n (after x)) ++ before x
  /\ idx z = idx x + n
  /\ after z = skipn n (after x).

(** The extensions of the table of [getMimeType]. *)
Definition imageTypes : list jsstring := map fst mimeTable.

(** The first failure of a run among the steps that follow the remote call
    of [publishFile] and can fail: saving the plugin data and writing to the
    clipboard. *)
Fixpoint localFailure (evs : list Event) : option JsError :=
  match evs with
  | [] => None
  | ESaveData _ (Throw e) :: _ => Some e
  | EClipboard _ (Throw e) :: _ => Some e
  | _ :: rest => localFailure rest
  end.

(** Events that are neither a save nor a write to the clipboard. *)
Definition notLocal (e : Event) : Prop :=
  match e with
  | ESaveData _ _ | EClipboard _ _ => False
  | _ => True
  end.

(** The notices of [publishFile]: the one it opens with, and the one that
    reports a success with the verb [verb]. *)
Definition startNotice (existing : option PublishedNote) : jsstring :=
  str "JotBird: "
  ++ match existing with Some _ => str "Updating" | None => str "Publishing" end
  ++ str "...".

Definition successNotice (verb : jsstring) (hasApiKey autoCopy : bool) : jsstring :=
  if negb hasApiKey
  then str "JotBird: " ++ verb ++ str "!"
       ++ (if autoCopy then str " Link copied." else []) ++ [LF]
       ++ str "Expires in 30 days " ++ emDash
       ++ str " connect a JotBird account for longer links."
  else if autoCopy
  then str "JotBird: " ++ verb ++ str "! Link copied."
  else str "JotBird: " ++ verb ++ str "!".

(** The verb of the success notice, from the record the path had and the
    publish calls the run made: an update that needed no retry is reported
    as one. *)
Definition verbOf (existing : option PublishedNote) (calls : list RemoteCall) : jsstring :=
  match existing with
  | Some _ => if Nat.eqb (length calls) 1 then str "Updated" else str "Published"
  | None => str "Published"
  end.

(** A scripted host for the commands: the answer to the dialog, the outcome
    of a remote delete and the stored data are fixed; a transport that gives
    one and the same reply to every request. *)

Module Bench.

Definition facilities (answer : bool) (deleted : Result DeleteResponse)
  (stored : option StoredData) : Facilities Demo.World :=
  mkFacilities
    (fun _ _ w => (deleted, w))
    (fun _ _ _ w => (deleted, w))
    (fun _ w => (answer, w))
    (fun w => (Ok stored, w))
    (fun w => (str "7b1c6f0e-0000-4000-8000-000000000000", w)).

Definition transport (reply : Api.Response)
  : Api.RequestUrlParam -> unit -> Result Api.Response * unit :=
  fun _ w => (Ok reply, w).

(** A 404 with a plain-text body, and one with an empty body. *)
Definition notFoundReply : Api.Response := Api.mkResponse 404 None (str "Not found").
Definition emptyReply : Api.Response := Api.mkResponse 404 None [].

Definition session : State Demo.World :=
  mkState (Demo.pluginWith "jb_key" Samples.notes)
          (Demo.mkWorld [] [] [] Samples.vault).

End Bench.

(** * Properties *)

(** ** Strings *)

Lemma eqc_eq (a b : char) : eqc a b = true <-> a = b.
Proof. unfold eqc. apply N.eqb_eq. Qed.

Lemma eqs_eq (a b : jsstring) : eqs a b = true <-> a = b.
Proof.
  revert b. induction a as [|x a IH]; intros [|y b]; simpl; split; intro H;
    try reflexivity; try discriminate.
  - apply andb_true_iff in H. destruct H as [Hx Ha].
    apply eqc_eq in Hx. apply IH in Ha. now subst.
  - inversion H; subst. apply andb_true_iff. split.
    + now apply eqc_eq.
    + now apply IH.
Qed.

Lemma eqs_refl (a : jsstring) : eqs a a = true.
Proof. now apply eqs_eq. Qed.

Lemma eqs_neq (a b : jsstring) : a <> b -> eqs a b = false.
Proof.
  intro H. destruct (eqs a b) eqn:E; [|reflexivity].
  apply eqs_eq in E. contradiction.
Qed.

Lemma eqs_false (a b : jsstring) : eqs a b = false -> a <> b.
Proof. intros H E. subst. rewrite eqs_refl in H. discriminate. Qed.

Lemma startsWith_prefix (s p : jsstring) :
  startsWith s p = true <-> exists rest, s = p ++ rest.
Proof.
  revert s. induction p as [|x p IH]; intros s; simpl.
  - split; [intros _; now exists s | intros _; now destruct s].
  - destruct s as [|y s].
    + split; [discriminate | intros [rest H]; discriminate].
    + split.
      * intro H. apply andb_true_iff in H. destruct H as [Hx Hp].
        apply eqc_eq in Hx. apply IH in Hp. destruct Hp as [rest ->].
        subst. now exists rest.
      * intros [rest H]. inversion H; subst. apply andb_true_iff. split.
        -- now apply eqc_eq.
        -- apply IH. now exists rest.
Qed.

Lemma endsWith_suffix (s p : jsstring) :
  endsWith s p = true <-> exists front, s = front ++ p.
Proof.
  unfold endsWith. rewrite startsWith_prefix. split.
  - intros [rest H]. exists (rev rest).
    rewrite <- (rev_involutive s), H, rev_app_distr, rev_involutive. reflexivity.
  - intros [front ->]. exists (rev front). apply rev_app_distr.
Qed.

Lemma dropSpaces_unspaced (s : jsstring) : unspaced (dropSpaces s).
Proof.
  induction s as [|c s IH]; simpl; [exact I|].
  destruct (isSpace c) eqn:E; [exact IH | exact E].
Qed.

Lemma dropSpaces_id (s : jsstring) : unspaced s -> dropSpaces s = s.
Proof. destruct s as [|c s]; simpl; [reflexivity | now intros ->]. Qed.

Lemma dropSpaces_tail (s : jsstring) : exists front, s = front ++ dropSpaces s.
Proof.
  induction s as [|c s [front IH]]; simpl.
  - now exists [].
  - destruct (isSpace c).
    + exists (c :: front). simpl. now rewrite <- IH.
    + now exists [].
Qed.

Lemma unspaced_app (a b : jsstring) : unspaced (a ++ b) -> a <> [] -> unspaced a.
Proof. destruct a; simpl; [intros _ H; now elim H | trivial]. Qed.

Lemma trim_unspaced (s : jsstring) : unspaced (trim s) /\ unspaced (rev (trim s)).
Proof.
  unfold trim. rewrite rev_involutive. split; [|apply dropSpaces_unspaced].
  destruct (dropSpaces_tail (rev (dropSpaces s))) as [front H].
  assert (Ha : dropSpaces s = rev (dropSpaces (rev (dropSpaces s))) ++ rev front).
  { rewrite <- rev_app_distr, <- H. now rewrite rev_involutive. }
  destruct (rev (dropSpaces (rev (dropSpaces s)))) as [|c t] eqn:E; [exact I|].
  eapply unspaced_app with (b := rev front); [|discriminate].
  rewrite <- Ha. apply dropSpaces_unspaced.
Qed.

Lemma trim_fixed (s : jsstring) : unspaced s -> unspaced (rev s) -> trim s = s.
Proof.
  intros H1 H2. unfold trim.
  rewrite (dropSpaces_id s H1), (dropSpaces_id (rev s) H2). apply rev_involutive.
Qed.

Lemma trim_idempotent (s : jsstring) : trim (trim s) = trim s.
Proof. destruct (trim_unspaced s). now apply trim_fixed. Qed.

(** ** Literal patterns under the [i] flag *)

Lemma run_cilits (ml : bool) (p : jsstring) (x : MState) (k : MState -> option MState) :
  run ml (cilits p) x k
  = if ciStartsWith (after x) p then k (jump (length p) x) else None.
Proof.
  revert x k. induction p as [|c p IH]; intros x k; [reflexivity|].
  assert (Hone : forall (x : MState) (k : MState -> option MState),
            run ml (ciChar c) x k
            = match after x with
              | [] => None
              | d :: _ => if eqc (lowerAscii d) (lowerAscii c)
                          then match advance x with Some y => k y | None => None end
                          else None
              end).
  { intros x0 k0. simpl. destruct (after x0); reflexivity. }
  destruct p as [|c' p'].
  - simpl cilits. rewrite Hone. destruct x as [bef i aft cs]. simpl.
    destruct aft as [|d aft]; [reflexivity|].
    destruct (eqc (lowerAscii d) (lowerAscii c)); reflexivity.
  - change (cilits (c :: c' :: p')) with (Seq (ciChar c) (cilits (c' :: p'))).
    change (run ml (Seq (ciChar c) (cilits (c' :: p'))) x k)
      with (run ml (ciChar c) x (fun y => run ml (cilits (c' :: p')) y k)).
    rewrite Hone. destruct x as [bef i aft cs].
    destruct aft as [|d aft]; [reflexivity|].
    change (ciStartsWith (after (mkM bef i (d :: aft) cs)) (c :: c' :: p'))
      with (eqc (lowerAscii d) (lowerAscii c) && ciStartsWith aft (c' :: p'))%bool.
    cbn [after advance before idx caps].
    destruct (eqc (lowerAscii d) (lowerAscii c)); [|reflexivity].
    rewrite IH. reflexivity.
Qed.

Lemma test_cilits (p s : jsstring) : test false (cilits p) s = ciIncludes s p.
Proof.
  unfold test, exec.
  assert (H : forall aft bef i,
            match execFrom false (cilits p) bef i aft with
            | Some _ => true
            | None => false
            end = ciIncludes aft p).
  { induction aft as [|c aft IH]; intros bef i; simpl; unfold matchAt;
      rewrite run_cilits; simpl after.
    - destruct (ciStartsWith [] p); reflexivity.
    - destruct (ciStartsWith (c :: aft) p); [reflexivity|]. apply IH. }
  apply H.
Qed.

Lemma ciStartsWith_prefix (s p : jsstring) :
  ciStartsWith s p = true <->
  exists w rest, s = w ++ rest /\ map lowerAscii w = map lowerAscii p.
Proof.
  revert s. induction p as [|x p IH]; intros s; simpl.
  - split; [intros _; now exists [], s|reflexivity].
  - destruct s as [|y s].
    + split; [discriminate|]. intros ([|a w] & rest & H & Hw); discriminate.
    + rewrite andb_true_iff, eqc_eq, IH. split.
      * intros (Hy & w & rest & -> & Hw). exists (y :: w), rest. simpl.
        now rewrite Hy, Hw.
      * intros ([|a w] & rest & H & Hw); [discriminate|].
        simpl in H, Hw. inversion H; subst. inversion Hw.
        split; [reflexivity|]. now exists w, rest.
Qed.

Lemma ciIncludes_infix (s p : jsstring) :
  ciIncludes s p = true <->
  exists front w rest, s = front ++ w ++ rest /\ map lowerAscii w = map lowerAscii p.
Proof.
  induction s as [|c s IH]; simpl; rewrite orb_true_iff, ciStartsWith_prefix.
  - split.
    + intros [(w & rest & H & Hw) | H]; [|discriminate]. now exists [], w, rest.
    + intros (front & w & rest & H & Hw). left.
      destruct front; [|discriminate]. now exists w, rest.
  - rewrite IH. split.
    + intros [(w & rest & H & Hw) | (front & w & rest & -> & Hw)].
      * now exists [], w, rest.
      * now exists (c :: front), w, rest.
    + intros ([|a front] & w & rest & H & Hw).
      * left. now exists w, rest.
      * right. simpl in H. inversion H; subst. now exists front, w, rest.
Qed.

(** The test of [publishFile] on a caught error: it is an [Error] whose
    message contains "not found" in any mix of upper and lower case. *)
Lemma isNotFound_meaning (e : JsError) :
  isNotFound e = true <->
  exists front w rest,
    e = ErrorObj (front ++ w ++ rest) /\ map lowerAscii w = str "not found".
Proof.
  destruct e as [message|]; simpl.
  - unfold notFoundRe, cilit. rewrite test_cilits, ciIncludes_infix. split.
    + intros (front & w & rest & -> & Hw). now exists front, w, rest.
    + intros (front & w & rest & H & Hw). inversion H. now exists front, w, rest.
  - split; [discriminate|]. intros (front & w & rest & H & _). discriminate.
Qed.

(** ** Objects *)

Section ObjFacts.
Variable V : Type.
Implicit Types (o : JsObj.t V) (k : jsstring) (v : V).

Lemma get_set_same o k v : JsObj.get (JsObj.set o k v) k = Some v.
Proof.
  induction o as [|[k' v'] o IH]; simpl.
  - now rewrite eqs_refl.
  - destruct (eqs k' k) eqn:E; simpl; rewrite E; [reflexivity | exact IH].
Qed.

Lemma get_set_other o k k' v :
  k' <> k -> JsObj.get (JsObj.set o k v) k' = JsObj.get o k'.
Proof.
  intro Hne. induction o as [|[k0 v0] o IH]; simpl.
  - rewrite eqs_neq; [reflexivity | congruence].
  - destruct (eqs k0 k) eqn:E; simpl.
    + apply eqs_eq in E. subst k0. rewrite eqs_neq; [reflexivity | congruence].
    + destruct (eqs k0 k'); [reflexivity | exact IH].
Qed.

Lemma get_delete_same o k : JsObj.get (JsObj.delete o k) k = None.
Proof.
  induction o as [|[k' v'] o IH]; simpl; [reflexivity|].
  destruct (eqs k' k) eqn:E; simpl; [exact IH | now rewrite E].
Qed.

Lemma get_delete_other o k k' :
  k' <> k -> JsObj.get (JsObj.delete o k) k' = JsObj.get o k'.
Proof.
  intro Hne. induction o as [|[k0 v0] o IH]; simpl; [reflexivity|].
  destruct (eqs k0 k) eqn:E; simpl.
  - apply eqs_eq in E. subst k0. rewrite eqs_neq; [exact IH | congruence].
  - destruct (eqs k0 k'); [reflexivity | exact IH].
Qed.

Lemma get_first o k v :
  NoDup (JsObj.keys o) -> In (k, v) o -> JsObj.get o k = Some v.
Proof.
  induction o as [|[k' v'] o IH]; simpl; [intros _ []|].
  intros Hnd [H | H].
  - inversion H; subst. now rewrite eqs_refl.
  - inversion Hnd as [|? ? Hnotin Hnd']; subst.
    destruct (eqs k' k) eqn:E.
    + apply eqs_eq in E. subst k'. elim Hnotin.
      unfold JsObj.keys. change k with (fst (k, v)). now apply in_map.
    + now apply IH.
Qed.
End ObjFacts.

(** ** The pipeline on the inputs of the test suite *)

Example test_strips_frontmatter :
  stripFrontmatter (str "---" ++ [LF] ++ str "title: My Note" ++ [LF] ++ str "tags: [test]"
                    ++ [LF] ++ str "---" ++ [LF] ++ str "# Hello World")
  = str "# Hello World".
Proof. vm_compute. reflexivity. Qed.

Example test_frontmatter_crlf :
  stripFrontmatter (str "---" ++ [CR; LF] ++ str "title: Test" ++ [CR; LF] ++ str "---"
                    ++ [CR; LF] ++ str "Content")
  = str "Content".
Proof. vm_compute. reflexivity. Qed.

Example test_wiki_links :
  convertWikiLinks (str "Link to [[Page A]] and [[Page B|B page]]")
  = str "Link to Page A and B page".
Proof. vm_compute. reflexivity. Qed.

Example test_comments :
  stripComments (str "Before" ++ [LF] ++ str "%%" ++ [LF] ++ str "This is a" ++ [LF]
                 ++ str "multi-line comment" ++ [LF] ++ str "%%" ++ [LF] ++ str "After")
  = str "Before" ++ [LF; LF] ++ str "After".
Proof. vm_compute. reflexivity. Qed.

Example test_tags :
  Markdown.stripTags (str "Some text #tag1 and #tag2") = str "Some text  and ".
Proof. vm_compute. reflexivity. Qed.

Example test_headings_kept :
  Markdown.stripTags (str "# Heading 1" ++ [LF] ++ str "## Heading 2" ++ [LF]
                      ++ str "### Heading 3")
  = str "# Heading 1" ++ [LF] ++ str "## Heading 2" ++ [LF] ++ str "### Heading 3".
Proof. vm_compute. reflexivity. Qed.

Example test_tag_at_line_start : Markdown.stripTags (str "#standaloneTag") = [].
Proof. vm_compute. reflexivity. Qed.

Example test_title_from_frontmatter :
  extractTitle (str "---" ++ [LF] ++ str "title: 'Single Quoted'" ++ [LF] ++ str "---"
                ++ [LF] ++ str "Content") (Demo.mdFile "test.md" "test")
  = str "Single Quoted".
Proof. vm_compute. reflexivity. Qed.

Example test_title_from_heading :
  extractTitle (str "# First Heading" ++ [LF; LF] ++ str "Some content")
               (Demo.mdFile "test.md" "test")
  = str "First Heading".
Proof. vm_compute. reflexivity. Qed.

Example test_wiki_image_uploaded :
  outcome (processMarkdown Demo.host (str "Here is an image ![[img.png]]")
             (Demo.mdFile "test.md" "test") (str "key") false
             (mkState (Demo.pluginWith "key" [])
                      (Demo.mkWorld [] [] [] [(Samples.nestedPng, [])])))
  = Ok (str "Here is an image ![](https://share.jotbird.com/images/up.png)").
Proof. vm_compute. reflexivity. Qed.

Example test_missing_image_left :
  outcome (processMarkdown Demo.host (str "![[missing.png]]")
             (Demo.mdFile "test.md" "test") (str "key") false
             (mkState (Demo.pluginWith "key" []) (Demo.mkWorld [] [] [] [])))
  = Ok (str "!missing.png").
Proof. vm_compute. reflexivity. Qed.

Example test_combined_note :
  outcome (processMarkdown Demo.host Samples.combinedNote Samples.testFile (str "key")
             true Samples.emptyState)
  = Ok Samples.combinedResult.
Proof. vm_compute. reflexivity. Qed.

(** ** Image resolution *)

(** C3, as stated, does not hold: a document whose path is the name itself
    is passed over for a document, enumerated earlier, that matches only by
    its file name and by the suffix of its path. *)
Lemma resolved_takes_first_enumerated :
  resolved [Samples.nestedPng; Samples.rootPng] (str "img.png") = Some Samples.nestedPng
  /\ path Samples.rootPng = str "img.png"
  /\ path Samples.nestedPng <> str "img.png".
Proof. repeat split. vm_compute. discriminate. Qed.

Lemma refersTo_criteria (fileName : jsstring) (f : TFile) :
  refersTo fileName f = true <->
  path f = fileName \/ name f = fileName
  \/ exists front, path f = front ++ str "/" ++ fileName.
Proof.
  unfold refersTo. rewrite !orb_true_iff, !eqs_eq, endsWith_suffix. tauto.
Qed.

(** C3, amended: the three criteria are tried together on each document in
    enumeration order. The resolved document is the first one that meets any
    of them (path equal to the name, file name equal to the name, or path
    ending in "/" followed by the name); nothing is resolved exactly when no
    document meets any. *)
Theorem resolved_first_match (files : list TFile) (fileName : jsstring) :
  match resolved files fileName with
  | Some f =>
      exists earlier later,
        files = earlier ++ f :: later
        /\ (path f = fileName \/ name f = fileName
            \/ exists front, path f = front ++ str "/" ++ fileName)
        /\ forall g, In g earlier ->
             ~ (path g = fileName \/ name g = fileName
                \/ exists front, path g = front ++ str "/" ++ fileName)
  | None =>
      forall g, In g files ->
        ~ (path g = fileName \/ name g = fileName
           \/ exists front, path g = front ++ str "/" ++ fileName)
  end.
Proof.
  unfold resolved. induction files as [|f files IH]; simpl.
  - intros g [].
  - destruct (refersTo fileName f) eqn:E.
    + exists [], files. repeat split.
      * now apply refersTo_criteria.
      * intros g [].
    + assert (Hf : ~ (path f = fileName \/ name f = fileName
                      \/ exists front, path f = front ++ str "/" ++ fileName)).
      { intro H. apply refersTo_criteria in H. congruence. }
      destruct (find (refersTo fileName) files) as [g|].
      * destruct IH as (earlier & later & -> & Hg & Hearlier).
        exists (f :: earlier), later. repeat split; [exact Hg|].
        intros h [<- | Hh]; [exact Hf | now apply Hearlier].
      * intros g [<- | Hg]; [exact Hf | now apply IH].
Qed.

(** ** Tag stripping *)

(** C4: the code leaves the tag in place. On "## #tag" the text before the
    tag on its line trims to "##", the callback takes the heading branch and
    returns the whole match; the published text still carries the tag. *)
Theorem heading_tag_is_kept :
  Markdown.stripTags (str "## #tag") = str "## #tag"
  /\ outcome (processMarkdown Demo.host (str "## #tag") (Demo.mdFile "test.md" "test")
                (str "key") true
                (mkState (Demo.pluginWith "key" []) (Demo.mkWorld [] [] [] [])))
     = Ok (str "## #tag").
Proof. split; vm_compute; reflexivity. Qed.

(** ** Rules for runs *)

Section Rules.
Context {W : Type}.
Implicit Types (s : State W).

Lemma wp_run A (m : Comp.M W A) s Q :
  wp m s Q <-> Q (outcome (m s)) (final (m s)) (events (m s)).
Proof. unfold wp, outcome, final, events. destruct (m s) as [[r s'] evs]. tauto. Qed.

Lemma wp_mono A (m : Comp.M W A) s (Q Q' : Result A -> State W -> list Event -> Prop) :
  wp m s Q -> (forall r s' evs, Q r s' evs -> Q' r s' evs) -> wp m s Q'.
Proof. unfold wp. destruct (m s) as [[r s'] evs]. auto. Qed.

Lemma wp_ret A (a : A) s (Q : Result A -> State W -> list Event -> Prop) :
  Q (Ok a) s [] -> wp (ret a) s Q.
Proof. trivial. Qed.

Lemma wp_throw A (e : JsError) s (Q : Result A -> State W -> list Event -> Prop) :
  Q (Throw e) s [] -> wp (throw e) s Q.
Proof. trivial. Qed.

Lemma wp_emit (e : Event) s (Q : Result unit -> State W -> list Event -> Prop) :
  Q (Ok tt) s [e] -> wp (emit e) s Q.
Proof. trivial. Qed.

Lemma wp_getThis s (Q : Result Plugin -> State W -> list Event -> Prop) :
  Q (Ok (this s)) s [] -> wp getThis s Q.
Proof. trivial. Qed.

Lemma wp_getWorld s (Q : Result W -> State W -> list Event -> Prop) :
  Q (Ok (world s)) s [] -> wp getWorld s Q.
Proof. trivial. Qed.

Lemma wp_modifyThis (f : Plugin -> Plugin) s
  (Q : Result unit -> State W -> list Event -> Prop) :
  Q (Ok tt) (mkState (f (this s)) (world s)) [] -> wp (modifyThis f) s Q.
Proof. trivial. Qed.

Lemma wp_call A (op : W -> Result A * W) (ev : Result A -> Event) s
  (Q : Result A -> State W -> list Event -> Prop) :
  (forall r w', op (world s) = (r, w') -> Q r (mkState (this s) w') [ev r]) ->
  wp (call op ev) s Q.
Proof. unfold wp, call. intro H. destruct (op (world s)) as [r w'] eqn:E. now apply H. Qed.

Lemma wp_query A (op : W -> Result A * W) s
  (Q : Result A -> State W -> list Event -> Prop) :
  (forall r w', op (world s) = (r, w') -> Q r (mkState (this s) w') []) ->
  wp (query op) s Q.
Proof. unfold wp, query. intro H. destruct (op (world s)) as [r w'] eqn:E. now apply H. Qed.

Lemma wp_bind A B (m : Comp.M W A) (f : A -> Comp.M W B) s
  (Q : Result B -> State W -> list Event -> Prop) :
  wp m s (fun r s1 ev1 =>
            match r with
            | Ok a => wp (f a) s1 (fun r2 s2 ev2 => Q r2 s2 (ev1 ++ ev2))
            | Throw e => Q (Throw e) s1 ev1
            end) ->
  wp (bind m f) s Q.
Proof.
  unfold wp, bind. destruct (m s) as [[[a|e] s1] ev1]; [|trivial].
  destruct (f a s1) as [[r2 s2] ev2]. trivial.
Qed.

Lemma wp_tryCatch A (m : Comp.M W A) (h : JsError -> Comp.M W A) s
  (Q : Result A -> State W -> list Event -> Prop) :
  wp m s (fun r s1 ev1 =>
            match r with
            | Ok a => Q (Ok a) s1 ev1
            | Throw e => wp (h e) s1 (fun r2 s2 ev2 => Q r2 s2 (ev1 ++ ev2))
            end) ->
  wp (tryCatch m h) s Q.
Proof.
  unfold wp, tryCatch. destruct (m s) as [[[a|e] s1] ev1]; [trivial|].
  destruct (h e s1) as [[r2 s2] ev2]. trivial.
Qed.
End Rules.

(** ** Event lists *)

Lemma publishCalls_app (a b : list Event) :
  publishCalls (a ++ b) = publishCalls a ++ publishCalls b.
Proof.
  induction a as [|e a IH]; simpl; [reflexivity|].
  destruct e; simpl; now rewrite ?IH.
Qed.

Lemma claimCalls_app (a b : list Event) :
  claimCalls (a ++ b) = claimCalls a ++ claimCalls b.
Proof.
  induction a as [|e a IH]; simpl; [reflexivity|].
  destruct e; simpl; now rewrite ?IH.
Qed.

Lemma sweeps_app (a b : list Event) : sweeps (a ++ b) = sweeps a + sweeps b.
Proof.
  induction a as [|e a IH]; simpl; [reflexivity|].
  destruct e; simpl; now rewrite ?IH.
Qed.

Lemma headerWrites_app (a b : list Event) :
  headerWrites (a ++ b) = headerWrites a ++ headerWrites b.
Proof.
  induction a as [|e a IH]; simpl; [reflexivity|].
  destruct e; simpl; now rewrite ?IH.
Qed.

Lemma notices_app (a b : list Event) : notices (a ++ b) = notices a ++ notices b.
Proof.
  induction a as [|e a IH]; simpl; [reflexivity|].
  destruct e; simpl; now rewrite ?IH.
Qed.

Lemma plain_quiet (evs : list Event) :
  Forall plain evs -> publishCalls evs = [] /\ claimCalls evs = [] /\ sweeps evs = 0.
Proof.
  induction 1 as [|e evs He _ IH]; simpl; [auto|].
  destruct e; simpl in *; try contradiction; exact IH.
Qed.

Lemma silent_plain (evs : list Event) : Forall silent evs -> Forall plain evs.
Proof.
  apply Forall_impl. intros e. destruct e; simpl; trivial.
Qed.

Lemma silent_no_header (evs : list Event) : Forall silent evs -> headerWrites evs = [].
Proof.
  induction 1 as [|e evs He _ IH]; simpl; [auto|].
  destruct e; simpl in *; try contradiction; exact IH.
Qed.

(** ** The procedures that leave the records alone *)

Section Steady.
Context {W : Type} (host : Host W).
Implicit Types (s : State W).

Lemma steady_ret A (P : Event -> Prop) (a : A) : steady P (ret (W:=W) a).
Proof. intro s. apply wp_ret. eauto. Qed.

Lemma steady_bind A B (P : Event -> Prop) (m : Comp.M W A) (f : A -> Comp.M W B) :
  steady P m -> (forall a, steady P (f a)) -> steady P (bind m f).
Proof.
  intros Hm Hf s. apply wp_bind. eapply wp_mono; [apply Hm|].
  intros r s1 ev1 ([a ->] & Hs1 & Hev1).
  eapply wp_mono; [apply Hf|].
  intros r2 s2 ev2 (Ha & Hs2 & Hev2). repeat split; [exact Ha | congruence |].
  apply Forall_app. now split.
Qed.

Lemma resolveAndUploadImage_steady fileName apiKey sourceFile :
  steady silent (resolveAndUploadImage host fileName apiKey sourceFile).
Proof.
  intro s. unfold resolveAndUploadImage. apply wp_bind, wp_getWorld.
  destruct (resolved (vault_getFiles host (world s)) fileName) as [f|].
  2:{ apply wp_ret. simpl. eauto. }
  apply wp_tryCatch, wp_bind, wp_query. intros [data|e] w' _.
  2:{ apply wp_ret. simpl. eauto. }
  destruct (getMimeType (extension f)) as [mimeType|].
  2:{ apply wp_ret. simpl. eauto. }
  apply wp_bind, wp_call. intros [result|e] w'' _.
  - apply wp_ret. simpl. repeat split; eauto. repeat constructor.
  - apply wp_ret. simpl. repeat split; eauto. repeat constructor.
Qed.

Lemma uploadAll_steady nameOf wrap apiKey sourceFile refs :
  steady silent (uploadAll host nameOf wrap apiKey sourceFile refs).
Proof.
  induction refs as [|m refs IH]; simpl.
  - apply steady_ret.
  - apply steady_bind; [apply resolveAndUploadImage_steady|]. intro url.
    apply steady_bind; [exact IH|]. intro rest. apply steady_ret.
Qed.

Lemma processImages_steady md apiKey sourceFile :
  steady silent (processImages host md apiKey sourceFile).
Proof.
  unfold processImages.
  apply steady_bind; [apply uploadAll_steady|]. intro wiki.
  apply steady_bind; [apply uploadAll_steady|]. intro std.
  apply steady_ret.
Qed.

Lemma processMarkdown_steady content sourceFile apiKey shouldStripTags :
  steady silent (processMarkdown host content sourceFile apiKey shouldStripTags).
Proof.
  unfold processMarkdown.
  apply steady_bind; [apply processImages_steady|]. intro md. apply steady_ret.
Qed.

(** The result of the pipeline is a trimmed text. *)
Lemma processMarkdown_trimmed content sourceFile apiKey shouldStripTags s :
  exists md, outcome (processMarkdown host content sourceFile apiKey shouldStripTags s)
             = Ok (trim md).
Proof.
  unfold processMarkdown, bind, outcome.
  pose proof (processImages_steady (stripComments (stripFrontmatter content))
                apiKey sourceFile s) as H.
  unfold wp in H.
  destruct (processImages host (stripComments (stripFrontmatter content))
              apiKey sourceFile s) as [[r s1] ev1].
  destruct H as ([md ->] & _). simpl. eauto.
Qed.

(** Without references to local images the pipeline leaves the world alone
    and is the composition of the text passes. *)
Lemma processMarkdown_no_images content sourceFile apiKey shouldStripTags s :
  let md := stripComments (stripFrontmatter content) in
  wikiImageRefs md = [] -> mdImageRefs md = [] ->
  processMarkdown host content sourceFile apiKey shouldStripTags s
  = (Ok (trim (let md := convertWikiLinks md in
               if shouldStripTags then Markdown.stripTags md else md)), s, []).
Proof.
  intros md Hw Hm. unfold processMarkdown, processImages. fold md.
  rewrite Hw, Hm. reflexivity.
Qed.

Lemma saveSettings_spec s :
  wp (saveSettings host) s (fun r s' evs =>
    this s' = this s /\ exists data, evs = [ESaveData data r]).
Proof.
  unfold saveSettings. apply wp_bind, wp_getThis. apply wp_call.
  intros r w' _. simpl. eauto.
Qed.

Lemma writeFrontmatter_spec file u expiresAt ttlDays s :
  wp (writeFrontmatter host file u expiresAt ttlDays) s (fun r s' evs =>
    r = Ok tt /\ this s' = this s /\
    if storeFrontmatter (settings (this s))
    then exists out,
           evs = [EProcessFrontMatter file (frontmatterWriter u expiresAt ttlDays) out]
    else evs = []).
Proof.
  unfold writeFrontmatter. apply wp_bind, wp_getThis.
  destruct (storeFrontmatter (settings (this s))); simpl.
  2:{ apply wp_ret. auto. }
  apply wp_tryCatch, wp_call. intros [[]|e] w' _.
  - simpl. eauto.
  - apply wp_ret. simpl. eauto.
Qed.

Lemma writeFrontmatter_steady file u expiresAt ttlDays :
  steady plain (writeFrontmatter host file u expiresAt ttlDays).
Proof.
  intro s. eapply wp_mono; [apply writeFrontmatter_spec|].
  intros r s' evs (-> & Hs & Hev). repeat split; eauto.
  destruct (storeFrontmatter (settings (this s))).
  - destruct Hev as [out ->]. repeat constructor.
  - subst. constructor.
Qed.

Lemma refreshLoop_spec excludePath entries s :
  wp (refreshLoop host excludePath entries) s (fun r s' evs =>
    (exists n, r = Ok n) /\ this s' = this s /\ Forall neverWrite evs).
Proof.
  revert s. induction entries as [|[filePath note] rest IH]; intro s; simpl.
  - apply wp_ret. eauto.
  - destruct (eqs filePath excludePath); [apply IH|].
    apply wp_bind, wp_getWorld.
    destruct (vault_getAbstractFileByPath host filePath (world s)) as [[file|]|];
      try apply IH.
    apply wp_bind, wp_tryCatch, wp_bind.
    eapply wp_mono; [apply writeFrontmatter_spec|].
    intros r s1 ev1 (-> & Hs1 & Hev1). apply wp_ret. simpl.
    apply wp_bind. eapply wp_mono; [apply IH|].
    intros r2 s2 ev2 ([n ->] & Hs2 & Hev2). apply wp_ret.
    repeat split; [eauto | congruence |].
    rewrite !app_nil_r. apply Forall_app. split; [|exact Hev2].
    destruct (storeFrontmatter (settings (this s))).
    + destruct Hev1 as [out ->]. constructor; [|constructor].
      now exists file, (url note), out.
    + subst. constructor.
Qed.

Lemma neverWrite_plain (evs : list Event) : Forall neverWrite evs -> Forall plain evs.
Proof. apply Forall_impl. intros e (file & u & out & ->). exact I. Qed.

Lemma refreshProExpiration_spec excludePath s :
  wp (refreshProExpiration host excludePath) s (fun r s' evs =>
    r = Ok tt /\ this s' = this s /\
    exists writes tail,
      evs = ERefreshProExpiration excludePath :: writes ++ tail
      /\ Forall neverWrite writes /\ Forall silent tail).
Proof.
  unfold refreshProExpiration. apply wp_bind, wp_emit. apply wp_bind, wp_getThis.
  destruct (storeFrontmatter (settings (this s))); simpl.
  2:{ apply wp_ret. repeat split. exists [], []. repeat split; constructor. }
  apply wp_bind. eapply wp_mono; [apply refreshLoop_spec|].
  intros r s1 ev1 ([n ->] & Hs1 & Hev1).
  destruct (Nat.ltb 0 n).
  - apply wp_emit. repeat split; [exact Hs1|].
    exists ev1, [ENotice (str "JotBird: Updated " ++ numToString n ++ str " note"
                          ++ plural n ++ str " to Pro (no expiration).")].
    repeat split; [exact Hev1 | repeat constructor].
  - apply wp_ret. repeat split; [exact Hs1|].
    exists ev1, []. rewrite !app_nil_r. repeat split; [exact Hev1 | constructor].
Qed.
End Steady.

(** ** Publishing *)

Section Publish.
Context {W : Type} (host : Host W).
Implicit Types (s : State W).

Lemma prepare_spec file s :
  wp (prepare host file) s (fun r s' evs => this s' = this s /\ Forall silent evs).
Proof.
  unfold prepare. apply wp_bind, wp_getThis. apply wp_bind, wp_query.
  intros [content|e] w' _; [|simpl; auto].
  apply wp_bind. eapply wp_mono; [apply processMarkdown_steady|].
  intros r s1 ev1 ([md ->] & Hs1 & Hev1). apply wp_ret.
  rewrite !app_nil_r. auto.
Qed.

Lemma remotePublish_spec hasApiKey markdown title slug_ token s :
  wp (remotePublish host hasApiKey markdown title slug_ token) s (fun r s' evs =>
    this s' = this s /\
    publishCalls evs = [mkCall hasApiKey slug_ (if hasApiKey then None else token) r]
    /\ onlyPublish evs).
Proof.
  unfold remotePublish. apply wp_bind, wp_getThis.
  destruct hasApiKey; apply wp_call; intros r w' _; simpl; repeat split.
Qed.

Lemma onlyPublish_app (a b : list Event) :
  onlyPublish a -> onlyPublish b -> onlyPublish (a ++ b).
Proof.
  unfold onlyPublish. intros Ha Hb. rewrite publishCalls_app, !length_app. lia.
Qed.

Lemma publishWithRetry_spec hasApiKey existing markdown title s :
  wp (publishWithRetry host hasApiKey existing markdown title) s (fun r s' evs =>
    this s' = this s /\ RetryRun hasApiKey existing r (publishCalls evs)
    /\ onlyPublish evs).
Proof.
  unfold publishWithRetry. apply wp_tryCatch, wp_bind.
  eapply wp_mono; [apply remotePublish_spec|].
  intros [res|e] s1 ev1 (Hs1 & Hc1 & Ho1).
  - apply wp_ret. rewrite app_nil_r, Hc1. repeat split; auto. constructor.
  - destruct existing as [n|].
    + destruct (isNotFound e) eqn:Enf.
      * apply wp_bind. eapply wp_mono; [apply remotePublish_spec|].
        intros [res|e2] s2 ev2 (Hs2 & Hc2 & Ho2).
        -- apply wp_ret. rewrite app_nil_r, publishCalls_app, Hc1, Hc2.
           repeat split; [congruence | | now apply onlyPublish_app].
           replace (if hasApiKey then None else None) with (@None jsstring)
             by now destruct hasApiKey.
           now apply (run_retry_ok hasApiKey (existing := Some n)).
        -- rewrite publishCalls_app, Hc1, Hc2.
           repeat split; [congruence | | now apply onlyPublish_app].
           replace (if hasApiKey then None else None) with (@None jsstring)
             by now destruct hasApiKey.
           now apply (run_retry_fail hasApiKey (existing := Some n)).
      * apply wp_throw. rewrite app_nil_r, Hc1. repeat split; auto.
        apply (run_fail hasApiKey (existing := Some n)). now right.
    + apply wp_throw. rewrite app_nil_r, Hc1. repeat split; auto.
      apply (run_fail hasApiKey (existing := None)). now left.
Qed.

(** What follows a successful remote call. *)
Lemma recordPublished_spec file hasApiKey existing result retried s :
  wp (recordPublished host file hasApiKey existing result retried) s (fun r s' evs =>
    recorded file result (toISOString_now host (world s)) (this s) (this s') evs).
Proof.
  unfold recordPublished. apply wp_bind, wp_getWorld.
  apply wp_bind, wp_modifyThis. apply wp_bind.
  eapply wp_mono; [apply saveSettings_spec|].
  intros [[]|e] s1 ev1 (Hs1 & data & ->).
  2:{ unfold recorded. simpl. rewrite Hs1. simpl.
      split; [reflexivity|]. split; [reflexivity|].
      exists data, (Throw e), []. auto. }
  apply wp_bind. eapply wp_mono; [apply writeFrontmatter_spec|].
  intros r2 s2 ev2 (-> & Hs2 & Hev2). rewrite Hs1 in Hev2. simpl in Hev2.
  apply wp_bind, wp_getThis.
  assert (Hthis2 : this s2 = setNote (path file)
                               (mkNote (res_slug result) (res_url result)
                                       (res_editToken result)
                                       (toISOString_now host (world s))) (this s))
    by (rewrite Hs2, Hs1; reflexivity).
  (* the tail: clipboard and notice *)
  assert (Htail : forall st,
    wp (p2 <- getThis ;;
        (if autoCopyLink (settings p2)
         then call (clipboard_writeText host (res_url result))
                   (EClipboard (res_url result))
         else ret tt) ;;;
        (if negb hasApiKey
         then notice (str "JotBird: "
                      ++ match existing with
                         | Some _ => if negb retried then str "Updated" else str "Published"
                         | None => str "Published"
                         end
                      ++ str "!"
                      ++ (if autoCopyLink (settings p2) then str " Link copied." else [])
                      ++ [LF] ++ str "Expires in 30 days " ++ emDash
                      ++ str " connect a JotBird account for longer links.")
         else if autoCopyLink (settings p2)
         then notice (str "JotBird: "
                      ++ match existing with
                         | Some _ => if negb retried then str "Updated" else str "Published"
                         | None => str "Published"
                         end
                      ++ str "! Link copied.")
         else notice (str "JotBird: "
                      ++ match existing with
                         | Some _ => if negb retried then str "Updated" else str "Published"
                         | None => str "Published"
                         end
                      ++ str "!"))) st
       (fun r s' evs => this s' = this st /\ Forall silent evs)).
  { intro st. apply wp_bind, wp_getThis. apply wp_bind.
    destruct (autoCopyLink (settings (this st))).
    - apply wp_call. intros [[]|e] w' _; simpl.
      + destruct (negb hasApiKey); apply wp_emit; simpl; split; auto;
          repeat constructor.
      + split; auto. repeat constructor.
    - apply wp_ret.
      destruct (negb hasApiKey); apply wp_emit; simpl; split; auto;
        repeat constructor. }
  rewrite Hthis2 at 1. simpl proRefreshDone.
  destruct (falsyNumber (res_ttlDays result) && negb (proRefreshDone (this s)))%bool
    eqn:Eup.
  - apply wp_bind, wp_bind, wp_modifyThis.
    eapply wp_mono; [apply refreshProExpiration_spec|].
    intros r3 s3 ev3 (-> & Hs3 & writes & quiet & -> & Hw & Hq). simpl in Hs3.
    eapply wp_mono; [apply Htail|].
    intros r4 s4 ev4 (Hs4 & Hev4). unfold recorded. simpl.
    rewrite Hs4, Hs3, Hthis2. simpl. rewrite Eup.
    split; [reflexivity|]. split; [reflexivity|].
    exists data, (Ok tt), (ev2 ++ (ERefreshProExpiration (path file) :: writes ++ quiet) ++ ev4).
    split; [reflexivity|].
    exists ev2, (ERefreshProExpiration (path file) :: writes ++ quiet), ev4.
    split; [reflexivity|]. split; [exact Hev2|]. split; [|exact Hev4].
    split; [reflexivity|]. exists writes, quiet. auto.
  - apply wp_bind, wp_ret.
    eapply wp_mono; [apply Htail|].
    intros r4 s4 ev4 (Hs4 & Hev4). unfold recorded. simpl.
    rewrite Hs4, Hthis2. simpl. rewrite Eup.
    split; [reflexivity|]. split; [reflexivity|].
    exists data, (Ok tt), (ev2 ++ [] ++ ev4).
    split; [reflexivity|].
    exists ev2, [], ev4.
    split; [reflexivity|]. split; [exact Hev2|]. split; [|exact Hev4]. auto.
Qed.
Lemma publishFile_run file s :
  wp (publishFile host file) s (fun r s' evs =>
    r = Ok tt /\ PublishRun file (this s) (this s') evs).
Proof.
  unfold publishFile. apply wp_bind, wp_getThis. apply wp_bind, wp_emit.
  apply wp_tryCatch. unfold publishBody. apply wp_bind.
  eapply wp_mono; [apply prepare_spec|].
  intros [[title markdown]|e] s1 prep (Hs1 & Hprep).
  2:{ apply wp_emit. split; [reflexivity|]. rewrite Hs1. simpl.
      now apply publish_unread. }
  apply wp_bind. eapply wp_mono; [apply publishWithRetry_spec|].
  intros [[res retried]|e] s2 calls (Hs2 & Hrun & Hcalls).
  2:{ apply wp_emit. split; [reflexivity|]. rewrite Hs2, Hs1. simpl.
      rewrite <- app_assoc. apply publish_failed; auto. }
  eapply wp_mono; [apply recordPublished_spec|].
  intros [[]|e] s3 rec Hrec; simpl; rewrite Hs2, Hs1 in Hrec.
  - split; [reflexivity|].
    replace (prep ++ calls ++ rec) with (prep ++ calls ++ rec ++ [])
      by now rewrite app_nil_r.
    eapply publish_done; eauto.
  - apply wp_emit. split; [reflexivity|].
    rewrite <- !app_assoc. eapply publish_done; eauto. repeat constructor.
Qed.
End Publish.

(** ** What the runs of [publishFile] contain *)

Lemma neverWrite_quiet (evs : list Event) :
  Forall neverWrite evs ->
  publishCalls evs = [] /\ claimCalls evs = [] /\ sweeps evs = 0.
Proof. intro H. apply plain_quiet. now apply neverWrite_plain. Qed.

Lemma silent_quiet (evs : list Event) :
  Forall silent evs ->
  publishCalls evs = [] /\ claimCalls evs = [] /\ sweeps evs = 0.
Proof. intro H. apply plain_quiet. now apply silent_plain. Qed.

Lemma onlyPublish_quiet (evs : list Event) :
  onlyPublish evs -> sweeps evs = 0 /\ headerWrites evs = [] /\ notices evs = []
                     /\ savesOk evs.
Proof.
  unfold onlyPublish, savesOk. induction evs as [|e evs IH]; simpl.
  - intros _. repeat split. intros data e [].
  - assert (Hle : length (publishCalls evs) <= length evs).
    { clear. induction evs as [|e evs IH]; simpl; [lia|]. destruct e; simpl; lia. }
    destruct e; simpl; intro H; try lia;
      (destruct IH as (? & ? & ? & Hs); [lia|]; repeat split; auto;
       intros data e [Hd | Hd]; [discriminate | now apply (Hs data e)]).
Qed.

Lemma recorded_calls file res now p p' rec :
  recorded file res now p p' rec -> publishCalls rec = [] /\ claimCalls rec = [].
Proof.
  intros (_ & _ & data & out & rest & -> & H). simpl.
  destruct out as [[]|e].
  - destruct H as (mirror & sweep & tail & -> & Hm & Hs & Ht).
    rewrite !publishCalls_app, !claimCalls_app.
    destruct (silent_quiet Ht) as (-> & -> & _).
    assert (publishCalls mirror = [] /\ claimCalls mirror = []) as [-> ->].
    { destruct (storeFrontmatter (settings p)); [destruct Hm as [o ->] | subst]; auto. }
    assert (publishCalls sweep = [] /\ claimCalls sweep = []) as [-> ->].
    { destruct (falsyNumber (res_ttlDays res) && negb (proRefreshDone p))%bool.
      - destruct Hs as (_ & writes & quiet & -> & Hw & Hq). simpl.
        rewrite publishCalls_app, claimCalls_app.
        destruct (neverWrite_quiet Hw) as (-> & -> & _).
        destruct (silent_quiet Hq) as (-> & -> & _). auto.
      - destruct Hs as [-> _]. auto. }
    auto.
  - destruct H as [-> _]. auto.
Qed.

Lemma recorded_notices_only file res now p p' rec :
  recorded file res now p p' rec -> savesOk rec ->
  storeFrontmatter (settings p) = true ->
  exists later,
    headerWrites rec
    = (file, frontmatterWriter (res_url res) (orEmpty (res_expiresAt res))
                               (res_ttlDays res)) :: later.
Proof.
  intros (_ & _ & data & out & rest & -> & H) Hsave Hstore. simpl.
  destruct out as [[]|e].
  - destruct H as (mirror & sweep & tail & -> & Hm & _).
    rewrite Hstore in Hm. destruct Hm as [o ->]. simpl. eauto.
  - elim (Hsave data e). now left.
Qed.

Lemma recorded_sweeps file res now p p' rec :
  recorded file res now p p' rec ->
  sweeps rec <= 1
  /\ (proRefreshDone p = true -> sweeps rec = 0 /\ proRefreshDone p' = true)
  /\ (sweeps rec = 1 -> proRefreshDone p' = true)
  /\ (savesOk rec -> falsyNumber (res_ttlDays res) = true ->
      proRefreshDone p = false -> sweeps rec = 1).
Proof.
  intros (_ & _ & data & out & rest & -> & H). simpl.
  destruct out as [[]|e].
  - destruct H as (mirror & sweep & tail & -> & Hm & Hs & Ht).
    rewrite !sweeps_app.
    destruct (silent_quiet Ht) as (_ & _ & ->).
    assert (sweeps mirror = 0) as ->.
    { destruct (storeFrontmatter (settings p)); [destruct Hm as [o ->] | subst]; auto. }
    destruct (falsyNumber (res_ttlDays res)) eqn:Ef;
      destruct (proRefreshDone p) eqn:Ed; simpl in Hs.
    + destruct Hs as [-> ->]. simpl. repeat split; auto; try lia; discriminate.
    + destruct Hs as (-> & writes & quiet & -> & Hw & Hq). simpl.
      rewrite sweeps_app.
      destruct (neverWrite_quiet Hw) as (_ & _ & ->).
      destruct (silent_quiet Hq) as (_ & _ & ->). simpl.
      repeat split; auto; discriminate.
    + destruct Hs as [-> ->]. simpl. repeat split; auto; try lia; discriminate.
    + destruct Hs as [-> ->]. simpl. repeat split; auto; try lia; discriminate.
  - destruct H as [-> ->]. simpl. repeat split; auto; try lia.
    intros Hsave. elim (Hsave data e). now left.
Qed.

Lemma PublishRun_calls file p p' evs :
  PublishRun file p p' evs ->
  (publishCalls evs = [] /\ p' = p)
  \/ (exists e,
        RetryRun (truthy (apiKey (settings p))) (JsObj.get (publishedNotes p) (path file))
                 (Throw e) (publishCalls evs)
        /\ p' = p /\ In (str "JotBird: " ++ errorText e) (notices evs))
  \/ (exists res retried now,
        RetryRun (truthy (apiKey (settings p))) (JsObj.get (publishedNotes p) (path file))
                 (Ok (res, retried)) (publishCalls evs)
        /\ publishedNotes p'
           = JsObj.set (publishedNotes p) (path file) (recordOf res now)).
Proof.
  intros [start prep e Hprep | start prep calls e Hprep Hcalls Hrun
          | start prep calls res retried now p'' rec extra Hprep Hcalls Hrun Hrec Hextra].
  - left. split; [|reflexivity]. simpl. rewrite publishCalls_app.
    destruct (silent_quiet Hprep) as (-> & _). reflexivity.
  - right; left. exists e. simpl. rewrite !publishCalls_app, !notices_app.
    destruct (silent_quiet Hprep) as (-> & _). simpl. rewrite app_nil_r.
    repeat split; auto. right. apply in_or_app. right. apply in_or_app. right.
    now left.
  - right; right. exists res, retried, now. simpl. rewrite !publishCalls_app.
    destruct (silent_quiet Hprep) as (-> & _).
    destruct (silent_quiet Hextra) as (-> & _).
    destruct (recorded_calls Hrec) as (-> & _). simpl. rewrite !app_nil_r.
    split; [exact Hrun|]. apply Hrec.
Qed.

(** C1: an update of an existing record carries the record's slug. When it
    fails with an error that [isNotFound] accepts (an [Error] whose message
    contains "not found", see [isNotFound_meaning]), it is retried exactly
    once, on the same path (authenticated or anonymous), as a fresh create
    without slug and without edit token, and a successful retry replaces the
    record with the new slug and url. Any other failure is not retried, is
    shown to the user, and leaves the records as they were. *)
Theorem retry_once_when_not_found {W} (host : Host W) (file : TFile) (s : State W)
  (n : PublishedNote) (c : RemoteCall) (rest : list RemoteCall) (e : JsError) :
  JsObj.get (notesOf s) (path file) = Some n ->
  publishCalls (events (publishFile host file s)) = c :: rest ->
  call_out c = Throw e ->
  call_slug c = Some (slug n)
  /\ if isNotFound e
     then exists retry,
            rest = [retry]
            /\ call_authenticated retry = call_authenticated c
            /\ call_slug retry = None /\ call_editToken retry = None
            /\ forall res, call_out retry = Ok res ->
                 exists now,
                   JsObj.get (notesOf (final (publishFile host file s))) (path file)
                   = Some (recordOf res now)
     else rest = []
          /\ In (str "JotBird: " ++ errorText e)
                (notices (events (publishFile host file s)))
          /\ notesOf (final (publishFile host file s)) = notesOf s.
Proof.
  intros Hget Hcalls Hout.
  pose proof (publishFile_run host file s) as H. apply wp_run in H.
  destruct H as [_ H]. apply PublishRun_calls in H. unfold notesOf in *.
  rewrite Hget, Hcalls in H.
  destruct H as [[H _] | [(e' & Hrun & Hp & Hnotice) | (res & retried & now & Hrun & Hset)]].
  - discriminate.
  - inversion Hrun as [ | e0 Hcase Hc | | e0 e2 Hex Hnf Hc]; subst; simpl in *.
    + inversion Hout; subst. split; [reflexivity|].
      destruct Hcase as [Hcase | ->]; [discriminate|].
      rewrite Hp. auto.
    + inversion Hout; subst. split; [reflexivity|]. rewrite Hnf.
      eexists. repeat split. intros res Hres. discriminate.
  - inversion Hrun as [res0 Hc | | e0 res0 Hex Hnf Hc | ]; subst; simpl in *.
    + discriminate.
    + inversion Hout; subst. split; [reflexivity|]. rewrite Hnf.
      eexists. repeat split. intros res' Hres. inversion Hres; subst.
      exists now. rewrite Hset. apply get_set_same.
Qed.

(** C10: when the remote call of a publish fails for good (the retry
    included), the mapping of published notes is left exactly as it was. *)
Theorem failed_publish_keeps_records {W} (host : Host W) (file : TFile) (s : State W)
  (c : RemoteCall) (e : JsError) :
  lastCall (publishCalls (events (publishFile host file s))) = Some c ->
  call_out c = Throw e ->
  notesOf (final (publishFile host file s)) = notesOf s.
Proof.
  intros Hlast Hout.
  pose proof (publishFile_run host file s) as H. apply wp_run in H.
  destruct H as [_ H]. apply PublishRun_calls in H. unfold notesOf.
  destruct H as [[H _] | [(e' & Hrun & Hp & _) | (res & retried & now & Hrun & _)]].
  - rewrite H in Hlast. discriminate.
  - now rewrite Hp.
  - inversion Hrun; subst;
      match goal with Hc : _ = publishCalls _ |- _ => rewrite <- Hc in Hlast end;
      inversion Hlast; subst; discriminate.
Qed.

(** ** The mirrored header *)

Lemma frontmatterWriter_values (u expiresAt : jsstring) (ttlDays : option Z)
  (fm : Frontmatter) :
  headerString (frontmatterWriter u expiresAt ttlDays fm) "jotbird_link" = Some u
  /\ headerString (frontmatterWriter u expiresAt ttlDays fm) "jotbird_expires"
     = Some (if falsyNumber ttlDays then str "never" else slice expiresAt 0 10).
Proof.
  unfold frontmatterWriter, headerString.
  rewrite !get_delete_other by (vm_compute; discriminate).
  rewrite get_set_same.
  rewrite get_set_other by (vm_compute; discriminate).
  rewrite get_set_same. split; reflexivity.
Qed.

Lemma mirroredExpiration_eq (expiresAt : option jsstring) (ttlDays : option Z) :
  mirroredExpiration expiresAt ttlDays
  = if falsyNumber ttlDays then str "never" else slice (orEmpty expiresAt) 0 10.
Proof. destruct ttlDays as [z|]; simpl; reflexivity. Qed.

Lemma savesOk_app (a b : list Event) : savesOk (a ++ b) -> savesOk a /\ savesOk b.
Proof.
  unfold savesOk. intro H. split; intros data e Hin; apply (H data e), in_or_app; auto.
Qed.

Lemma PublishRun_done file p p' evs c res :
  PublishRun file p p' evs ->
  lastCall (publishCalls evs) = Some c -> call_out c = Ok res ->
  exists front now rec extra,
    evs = front ++ rec ++ extra
    /\ recorded file res now p p' rec /\ Forall silent extra
    /\ sweeps front = 0 /\ headerWrites front = [].
Proof.
  intros [start prep e Hprep | start prep calls e Hprep Hcalls Hrun
          | start prep calls res' retried now p'' rec extra Hprep Hcalls Hrun Hrec Hextra]
         Hlast Hout.
  - simpl in Hlast. rewrite publishCalls_app in Hlast.
    destruct (silent_quiet Hprep) as (Hq & _). rewrite Hq in Hlast. discriminate.
  - simpl in Hlast. rewrite !publishCalls_app in Hlast.
    destruct (silent_quiet Hprep) as (Hq & _). rewrite Hq in Hlast. simpl in Hlast.
    rewrite app_nil_r in Hlast.
    inversion Hrun; subst;
      match goal with Hc : _ = publishCalls _ |- _ => rewrite <- Hc in Hlast end;
      inversion Hlast; subst; discriminate.
  - simpl in Hlast. rewrite !publishCalls_app in Hlast.
    destruct (silent_quiet Hprep) as (Hq & _ & Hsw). rewrite Hq in Hlast.
    destruct (silent_quiet Hextra) as (Hq' & _). rewrite Hq' in Hlast.
    destruct (recorded_calls Hrec) as (Hq'' & _). rewrite Hq'' in Hlast.
    simpl in Hlast. rewrite !app_nil_r in Hlast.
    assert (res' = res).
    { inversion Hrun; subst;
        match goal with Hc : _ = publishCalls _ |- _ => rewrite <- Hc in Hlast end;
        inversion Hlast; subst; simpl in Hout; congruence. }
    subst res'.
    exists (ENotice start :: prep ++ calls), now, rec, extra.
    destruct (onlyPublish_quiet Hcalls) as (Hs1 & Hh1 & _).
    split; [|split; [exact Hrec|split; [exact Hextra|split]]].
    + simpl. now rewrite <- !app_assoc.
    + simpl. rewrite sweeps_app. lia.
    + simpl. rewrite headerWrites_app, Hh1, (silent_no_header Hprep). reflexivity.
Qed.

(** C7, as stated, does not hold: a response whose [ttlDays] is the number 0
    is not the null that signals the permanent tier, and carries an expiry
    date, yet the header of the published document receives "never" (and,
    the response being taken for a tier upgrade, so do the headers of the
    three records already tracked). *)
Lemma zero_ttl_is_mirrored_as_never :
  res_ttlDays Samples.zeroTtlResponse <> None
  /\ res_expiresAt Samples.zeroTtlResponse = Some Samples.expiry
  /\ publishCalls (events (publishFile Demo.host Samples.fileNew Samples.zeroTtlState))
     = [mkCall true None None (Ok Samples.zeroTtlResponse)]
  /\ map (fun w => (path (fst w), headerString (snd w []) "jotbird_expires"))
         (headerWrites (events (publishFile Demo.host Samples.fileNew Samples.zeroTtlState)))
     = [(str "notes/new.md", Some (str "never"));
        (str "notes/a.md", Some (str "never"));
        (str "notes/b.md", Some (str "never"));
        (str "notes/c.md", Some (str "never"))].
Proof. repeat split; try discriminate; vm_compute; reflexivity. Qed.

(** C7, amended: on a successful publish whose save succeeds, with mirroring
    enabled, the first header write is for the published document; whatever
    the header held, it leaves the returned url under the link key and,
    under the expiration key, "never" when [ttlDays] is null or 0 and else
    the first ten characters of the expiry timestamp (none when the response
    has no expiry). *)
Theorem mirrored_header_values {W} (host : Host W) (file : TFile) (s : State W)
  (c : RemoteCall) (res : PublishResponse) :
  lastCall (publishCalls (events (publishFile host file s))) = Some c ->
  call_out c = Ok res ->
  storeFrontmatter (settings (this s)) = true ->
  savesOk (events (publishFile host file s)) ->
  exists fn later,
    headerWrites (events (publishFile host file s)) = (file, fn) :: later
    /\ forall fm,
         headerString (fn fm) "jotbird_link" = Some (res_url res)
         /\ headerString (fn fm) "jotbird_expires"
            = Some (mirroredExpiration (res_expiresAt res) (res_ttlDays res)).
Proof.
  intros Hlast Hout Hstore Hsave.
  pose proof (publishFile_run host file s) as H. apply wp_run in H.
  destruct H as [_ H].
  destruct (PublishRun_done H Hlast Hout)
    as (front & now & rec & extra & Hev & Hrec & Hextra & _ & Hfront).
  rewrite Hev in Hsave.
  apply savesOk_app in Hsave. destruct Hsave as [_ Hsave].
  apply savesOk_app in Hsave. destruct Hsave as [Hsave _].
  destruct (recorded_notices_only Hrec Hsave Hstore) as [later Hw].
  exists (frontmatterWriter (res_url res) (orEmpty (res_expiresAt res)) (res_ttlDays res)),
         (later ++ headerWrites extra).
  split.
  - rewrite Hev, !headerWrites_app, Hfront, Hw. reflexivity.
  - intro fm. rewrite mirroredExpiration_eq. apply frontmatterWriter_values.
Qed.

(** ** The tier sweep *)

Lemma PublishRun_sweeps file p p' evs :
  PublishRun file p p' evs ->
  sweeps evs <= 1
  /\ (proRefreshDone p = true -> sweeps evs = 0 /\ proRefreshDone p' = true)
  /\ (sweeps evs = 1 -> proRefreshDone p' = true).
Proof.
  intros [start prep e Hprep | start prep calls e Hprep Hcalls Hrun
          | start prep calls res retried now p'' rec extra Hprep Hcalls Hrun Hrec Hextra];
    simpl; rewrite ?sweeps_app;
    destruct (silent_quiet Hprep) as (_ & _ & ->); simpl.
  - repeat split; auto; lia.
  - destruct (onlyPublish_quiet Hcalls) as (-> & _). simpl.
    repeat split; auto; lia.
  - destruct (onlyPublish_quiet Hcalls) as (-> & _).
    destruct (silent_quiet Hextra) as (_ & _ & ->).
    destruct (recorded_sweeps Hrec) as (H1 & H2 & H3 & _).
    rewrite Nat.add_0_r. simpl. auto.
Qed.

Lemma checkProStatus_sweeps {W} (host : Host W) (s : State W) :
  wp (checkProStatus host) s (fun r s' evs =>
    sweeps evs = 0 /\ headerWrites evs = []
    /\ proRefreshDone (this s') = proRefreshDone (this s)).
Proof.
  unfold checkProStatus. apply wp_bind, wp_getThis.
  destruct (truthy (apiKey (settings (this s)))); simpl.
  2:{ apply wp_ret. auto. }
  apply wp_tryCatch, wp_bind, wp_call. intros [result|e] w' _.
  - apply wp_modifyThis. simpl. auto.
  - apply wp_ret. simpl. auto.
Qed.

Lemma performOne_sweeps {W} (host : Host W) (a : UserAction) (s : State W) :
  wp (performOne host a) s (fun r s' evs =>
    r = Ok tt
    /\ sweeps evs <= 1
    /\ (proRefreshDone (this s) = true -> sweeps evs = 0 /\ proRefreshDone (this s') = true)
    /\ (sweeps evs = 1 -> proRefreshDone (this s') = true)).
Proof.
  destruct a as [file|]; simpl.
  - eapply wp_mono; [apply publishFile_run|].
    intros r s1 ev1 (-> & Hrun). split; [reflexivity|].
    now apply PublishRun_sweeps in Hrun.
  - apply wp_tryCatch. eapply wp_mono; [apply checkProStatus_sweeps|].
    assert (Hq : forall (s1 : State W) (ev1 : list Event),
              sweeps ev1 = 0 -> proRefreshDone (this s1) = proRefreshDone (this s) ->
              sweeps ev1 <= 1
              /\ (proRefreshDone (this s) = true ->
                  sweeps ev1 = 0 /\ proRefreshDone (this s1) = true)
              /\ (sweeps ev1 = 1 -> proRefreshDone (this s1) = true)).
    { intros s1 ev1 H0 Hd. rewrite H0, Hd. repeat split; auto; discriminate. }
    intros [[]|e] s1 ev1 (H0 & _ & Hd).
    + split; [reflexivity|]. now apply Hq.
    + apply wp_ret. rewrite app_nil_r. split; [reflexivity|]. now apply Hq.
Qed.

Lemma perform_sweeps {W} (host : Host W) (acts : list UserAction) (s : State W) :
  wp (perform host acts) s (fun r s' evs =>
    sweeps evs <= 1
    /\ (proRefreshDone (this s) = true -> sweeps evs = 0 /\ proRefreshDone (this s') = true)
    /\ (sweeps evs = 1 -> proRefreshDone (this s') = true)).
Proof.
  revert s. induction acts as [|a acts IH]; intro s; simpl.
  - apply wp_ret. simpl. repeat split; auto; lia.
  - apply wp_bind. eapply wp_mono; [apply performOne_sweeps|].
    intros r s1 ev1 (-> & Hle & Hdone & Hone).
    eapply wp_mono; [apply IH|].
    intros r2 s2 ev2 (Hle2 & Hdone2 & Hone2). rewrite sweeps_app.
    destruct (proRefreshDone (this s)) eqn:Ed.
    + destruct Hdone as [-> Hd1]; [reflexivity|].
      destruct (Hdone2 Hd1) as [-> Hd2]. repeat split; auto.
    + destruct (Nat.eq_dec (sweeps ev1) 1) as [E1 | E1].
      * destruct (Hdone2 (Hone E1)) as [-> Hd2]. rewrite E1. simpl.
        repeat split; auto; discriminate.
      * assert (sweeps ev1 = 0) as -> by lia. simpl. repeat split; auto; discriminate.
Qed.

Lemma handleProUpgrade_sweeps {W} (host : Host W) (s : State W) :
  wp (handleProUpgrade host) s (fun r s' evs =>
    sweeps evs = if isPro (this s') then 1 else 0).
Proof.
  unfold handleProUpgrade. apply wp_bind.
  assert (Hcheck : wp (checkProStatus host) s (fun r s1 ev1 =>
            (exists a, r = Ok a) /\ sweeps ev1 = 0)).
  { unfold checkProStatus. apply wp_bind, wp_getThis.
    destruct (truthy (apiKey (settings (this s)))); simpl.
    2:{ apply wp_ret. eauto. }
    apply wp_tryCatch, wp_bind, wp_call. intros [result|e] w' _.
    - apply wp_modifyThis. simpl. eauto.
    - apply wp_ret. simpl. eauto. }
  eapply wp_mono; [apply Hcheck|].
  intros r s1 ev1 ([[] ->] & Hev1). apply wp_bind, wp_getThis.
  destruct (isPro (this s1)) eqn:Epro.
  - apply wp_bind, wp_modifyThis. apply wp_bind.
    eapply wp_mono; [apply refreshProExpiration_spec|].
    intros r2 s2 ev2 (-> & Hs2 & writes & tail & -> & Hw & Ht).
    apply wp_emit. rewrite Hs2. simpl. rewrite Epro.
    rewrite !sweeps_app, Hev1. simpl. rewrite !sweeps_app.
    destruct (neverWrite_quiet Hw) as (_ & _ & ->).
    destruct (silent_quiet Ht) as (_ & _ & ->). reflexivity.
  - apply wp_emit. rewrite Epro, !sweeps_app, Hev1. reflexivity.
Qed.

Lemma neverWrite_never (e : Event) :
  neverWrite e ->
  exists file fn out,
    e = EProcessFrontMatter file fn out
    /\ forall fm, headerString (fn fm) "jotbird_expires" = Some (str "never").
Proof.
  intros (file & u & out & ->). eexists _, _, _. split; [reflexivity|].
  intro fm. apply frontmatterWriter_values.
Qed.



(** ** Rename and delete notifications *)


(** ** The claim sweep *)

Lemma NoDup_keys_filter {V} (g : jsstring * V -> bool) (l : list (jsstring * V)) :
  NoDup (map fst l) -> NoDup (map fst (filter g l)).
Proof.
  induction l as [|x l IH]; simpl; [trivial|].
  intro H. inversion H as [|? ? Hnotin Hnd]; subst.
  destruct (g x); simpl; [|now apply IH].
  constructor; [|now apply IH].
  intro Hin. apply Hnotin. apply in_map_iff in Hin. destruct Hin as (y & Hy & Hin).
  apply filter_In in Hin. destruct Hin as [Hin _].
  rewrite <- Hy. now apply in_map.
Qed.

Lemma Forall2_refine {A B} (P : A -> Prop) (R R' : A -> B -> Prop)
  (l : list A) (l' : list B) :
  Forall P l -> Forall2 R l l' -> (forall a b, P a -> R a b -> R' a b) ->
  Forall2 R' l l'.
Proof.
  intros HP HR Himp. induction HR as [|a b l l' Hab _ IH]; constructor.
  - apply Himp; [now inversion HP | exact Hab].
  - apply IH. now inversion HP.
Qed.

Section Claim.
Context {W : Type} (host : Host W).
Implicit Types (s : State W).

Lemma claimLoop_spec toClaim s :
  NoDup (map fst toClaim) ->
  Forall (fun entry => JsObj.get (notesOf s) (fst entry) = Some (snd entry)) toClaim ->
  wp (claimLoop host toClaim) s (fun r s' evs =>
    (exists k, r = Ok k)
    /\ settings (this s') = settings (this s)
    /\ Forall2 (fun entry c =>
                  cc_slug c = slug (snd entry)
                  /\ cc_editToken c = orEmpty (editToken (snd entry))
                  /\ JsObj.get (notesOf s') (fst entry)
                     = Some (afterClaim (snd entry) (cc_out c)))
               toClaim (claimCalls evs)
    /\ forall p, ~ In p (map fst toClaim) ->
         JsObj.get (notesOf s') p = JsObj.get (notesOf s) p).
Proof.
  revert s. induction toClaim as [|[filePath note] rest IH]; intros s Hnd Hall.
  - apply wp_ret. simpl. split; [eauto|]. split; [reflexivity|].
    split; [constructor | reflexivity].
  - simpl claimLoop. inversion Hnd as [|? ? Hnotin Hnd']; subst.
    inversion Hall as [|? ? Hhead Hrest]; subst. simpl in Hhead.
    (* one iteration *)
    assert (Hstep :
      wp (tryCatch
            (p <- getThis ;;
             result <- call (claimDocument host (apiKey (settings p)) (slug note)
                                           (orEmpty (editToken note)))
                            (EClaimDocument (apiKey (settings p)) (slug note)
                                            (orEmpty (editToken note))) ;;
             modifyThis (setNote filePath
                           (mkNote (claim_slug result) (claim_url result) None
                                   (publishedAt note))) ;;;
             w <- getWorld ;;
             match vault_getAbstractFileByPath host filePath w with
             | Some (AFile file) =>
                 writeFrontmatter host file (claim_url result)
                                  (orEmpty (claim_expiresAt result))
                                  (claim_ttlDays result)
             | _ => ret tt
             end ;;;
             ret 1)
            (fun _ => ret 0)) s
         (fun r s1 ev1 =>
            (exists k, r = Ok k)
            /\ settings (this s1) = settings (this s)
            /\ exists out,
                 claimCalls ev1 = [mkClaimCall (slug note) (orEmpty (editToken note)) out]
                 /\ JsObj.get (notesOf s1) filePath = Some (afterClaim note out)
                 /\ forall p, p <> filePath ->
                      JsObj.get (notesOf s1) p = JsObj.get (notesOf s) p)).
    { apply wp_tryCatch, wp_bind, wp_getThis. apply wp_bind, wp_call.
      intros [result|e] w' _.
      2:{ apply wp_ret. simpl. split; [eauto|]. split; [reflexivity|].
          exists (Throw e). auto. }
      apply wp_bind, wp_modifyThis. apply wp_bind, wp_getWorld. apply wp_bind.
      assert (Hfm : forall st,
        wp (match vault_getAbstractFileByPath host filePath w' with
            | Some (AFile file) =>
                writeFrontmatter host file (claim_url result)
                                 (orEmpty (claim_expiresAt result))
                                 (claim_ttlDays result)
            | _ => ret tt
            end) st
           (fun r s' evs => r = Ok tt /\ this s' = this st /\ claimCalls evs = [])).
      { intro st.
        destruct (vault_getAbstractFileByPath host filePath w') as [[file|]|];
          try (apply wp_ret; auto).
        eapply wp_mono; [apply writeFrontmatter_steady|].
        intros r s' evs ([a ->] & Hs' & Hev). destruct a.
        repeat split; auto. now apply plain_quiet. }
      eapply wp_mono; [apply Hfm|].
      intros r s2 ev2 (-> & Hs2 & Hev2). apply wp_ret. simpl.
      split; [eauto|]. unfold notesOf. rewrite Hs2. simpl.
      split; [reflexivity|]. exists (Ok result).
      rewrite claimCalls_app, Hev2. simpl.
      split; [reflexivity|]. split; [apply get_set_same|].
      intros p Hp. now apply get_set_other. }
    apply wp_bind. eapply wp_mono; [apply Hstep|].
    intros r s1 ev1 ([k ->] & Hset1 & out & Hc1 & Hget1 & Hframe1).
    apply wp_bind. eapply wp_mono; [apply (IH s1 Hnd')|].
    + eapply Forall_impl; [|apply Forall_forall; intros x Hx; exact (conj Hx
        (proj1 (Forall_forall _ _) Hrest x Hx))].
      intros x [Hx Hgetx]. simpl in Hgetx. rewrite Hframe1; [exact Hgetx|].
      intro E. apply Hnotin. rewrite <- E. now apply in_map.
    + intros r2 s2 ev2 ([k2 ->] & Hset2 & Hcalls2 & Hframe2). apply wp_ret.
      rewrite app_nil_r, claimCalls_app, Hc1. simpl.
      split; [eauto|]. split; [congruence|]. split.
      * constructor; [|exact Hcalls2]. simpl.
        split; [reflexivity|]. split; [reflexivity|].
        rewrite Hframe2; [exact Hget1 | exact Hnotin].
      * intros p Hp. rewrite Hframe2, Hframe1; auto.
Qed.
End Claim.

(** The calls of the sweep against the code's own selection of records. *)
Lemma claimSweep_calls {W} (host : Host W) (s : State W) :
  truthy (apiKey (settings (this s))) = true ->
  NoDup (JsObj.keys (notesOf s)) ->
  Forall2 (fun entry c =>
             editToken (snd entry) = Some (cc_editToken c)
             /\ cc_slug c = slug (snd entry)
             /\ JsObj.get (notesOf (final (claimAnonymousDocuments host s))) (fst entry)
                = Some (afterClaim (snd entry) (cc_out c)))
          (toClaimOf (notesOf s))
          (claimCalls (events (claimAnonymousDocuments host s)))
  /\ forall p n,
       JsObj.get (notesOf s) p = Some n -> truthyOpt (editToken n) = false ->
       JsObj.get (notesOf (final (claimAnonymousDocuments host s))) p = Some n.
Proof.
  intros Hkey Hnd.
  assert (Hwp : wp (claimAnonymousDocuments host) s (fun r s' evs =>
    Forall2 (fun entry c =>
               editToken (snd entry) = Some (cc_editToken c)
               /\ cc_slug c = slug (snd entry)
               /\ JsObj.get (notesOf s') (fst entry)
                  = Some (afterClaim (snd entry) (cc_out c)))
            (toClaimOf (notesOf s)) (claimCalls evs)
    /\ forall p n,
         JsObj.get (notesOf s) p = Some n -> truthyOpt (editToken n) = false ->
         JsObj.get (notesOf s') p = Some n)).
  { unfold claimAnonymousDocuments. apply wp_bind, wp_getThis.
    rewrite Hkey. simpl negb. cbv iota. fold (notesOf s).
    destruct (toClaimOf (notesOf s)) as [|e0 l0] eqn:Etc.
    { apply wp_ret. split; [constructor | auto]. }
    rewrite <- Etc. simpl Nat.eqb. cbv iota.
    replace (Nat.eqb (length (toClaimOf (notesOf s))) 0) with false
      by (rewrite Etc; reflexivity).
    apply wp_bind. eapply wp_mono.
    { apply claimLoop_spec.
      - unfold toClaimOf, JsObj.entries. now apply NoDup_keys_filter.
      - apply Forall_forall. intros [p n] Hin. simpl.
        apply filter_In in Hin. destruct Hin as [Hin _]. now apply get_first. }
    intros r s1 ev1 ([k ->] & Hset & Hcalls & Hframe).
    assert (Hgoal1 : Forall2 (fun entry c =>
               editToken (snd entry) = Some (cc_editToken c)
               /\ cc_slug c = slug (snd entry)
               /\ JsObj.get (notesOf s1) (fst entry)
                  = Some (afterClaim (snd entry) (cc_out c)))
            (toClaimOf (notesOf s)) (claimCalls ev1)).
    { assert (Htok : Forall (fun entry => truthyOpt (editToken (snd entry)) = true)
                            (toClaimOf (notesOf s))).
      { apply Forall_forall. intros x Hx. apply filter_In in Hx. apply Hx. }
      eapply Forall2_refine; [exact Htok | exact Hcalls |].
      intros x c Ht (Hc1 & Hc2 & Hc3). simpl in Ht.
      split; [|split; [exact Hc1 | exact Hc3]].
      rewrite Hc2. destruct (editToken (snd x)); [reflexivity | discriminate]. }
    assert (Hgoal2 : forall p n,
         JsObj.get (notesOf s) p = Some n -> truthyOpt (editToken n) = false ->
         JsObj.get (notesOf s1) p = Some n).
    { intros p n Hget Hfalsy. rewrite Hframe; [exact Hget|].
      intro Hin. apply in_map_iff in Hin. destruct Hin as ([p' n'] & Hp & Hin).
      simpl in Hp. subst p'. apply filter_In in Hin. destruct Hin as [Hin Htruthy].
      simpl in Htruthy. apply get_first in Hin; [|exact Hnd].
      rewrite Hin in Hget. inversion Hget; subst. congruence. }
    destruct (Nat.ltb 0 k).
    - apply wp_bind. eapply wp_mono; [apply saveSettings_spec|].
      intros [[]|e] s2 ev2 (Hs2 & data & ->).
      + apply wp_emit. unfold notesOf in *. rewrite Hs2.
        rewrite !claimCalls_app. simpl. rewrite app_nil_r. auto.
      + unfold notesOf in *. rewrite Hs2.
        rewrite !claimCalls_app. simpl. rewrite app_nil_r. auto.
    - apply wp_ret. rewrite app_nil_r. auto. }
  apply wp_run in Hwp. exact Hwp.
Qed.

Lemma toClaimOf_withToken (R : jsstring * PublishedNote -> ClaimCall -> Prop)
  (R' : jsstring * PublishedNote * jsstring -> ClaimCall -> Prop)
  (notes : list (jsstring * PublishedNote)) :
  forall calls,
    Forall2 (fun entry c => editToken (snd entry) = Some (cc_editToken c) /\ R entry c)
            (toClaimOf notes) calls ->
    (forall entry c, R entry c -> R' (entry, cc_editToken c) c) ->
    Forall2 R' (withToken notes) calls.
Proof.
  induction notes as [|[p n] rest IH]; intros calls H Himp.
  - inversion H. constructor.
  - unfold toClaimOf, JsObj.entries in *. simpl in H. simpl.
    destruct (editToken n) as [[|a t]|] eqn:Et; simpl in H; try (now apply IH).
    inversion H as [|e c l l' (Htok & Hr) Hrest']; subst.
    simpl in Htok. rewrite Et in Htok. injection Htok as Htok.
    constructor; [|now apply IH].
    rewrite Htok. now apply (Himp (p, n) c).
Qed.

Lemma withToken_in (notes : list (jsstring * PublishedNote)) p n token :
  In (p, n) notes -> editToken n = Some token -> token <> [] ->
  In (p, n, token) (withToken notes).
Proof.
  induction notes as [|[q m] rest IH]; simpl; [tauto|].
  intros [Heq | Hin] Htok Hne.
  - inversion Heq; subst. rewrite Htok. destruct token; [congruence | now left].
  - specialize (IH Hin Htok Hne).
    destruct (editToken m) as [[|a t]|]; auto. now right.
Qed.

Lemma get_in {V} (o : JsObj.t V) k v : JsObj.get o k = Some v -> In (k, v) o.
Proof.
  induction o as [|[k' v'] o IH]; simpl; [discriminate|].
  destruct (eqs k' k) eqn:E.
  - intro H. inversion H; subst. apply eqs_eq in E. subst. now left.
  - intro H. right. now apply IH.
Qed.

Lemma Forall2_in_l {A B} (R : A -> B -> Prop) (l : list A) (l' : list B) (a : A) :
  Forall2 R l l' -> In a l -> exists b, In b l' /\ R a b.
Proof.
  induction 1 as [|x y l l' Hxy _ IH]; simpl; [tauto|].
  intros [-> | Hin]; [exists y; auto|].
  destruct (IH Hin) as (b & Hb & Hr). exists b. auto.
Qed.

(** C5: with a credential configured, the sweep makes exactly one claim
    call for each record whose edit token is present and not empty, in the
    order of the mapping and whatever the outcomes of the calls before, with
    the slug and the token of that record. A record whose call succeeds
    becomes the server's slug and url with the publication time kept and the
    edit token dropped; a record whose call fails is exactly what it was;
    records without an edit token, or with an empty one, are not touched. *)
Theorem claim_sweep_per_record {W} (host : Host W) (s : State W) :
  truthy (apiKey (settings (this s))) = true ->
  NoDup (JsObj.keys (notesOf s)) ->
  Forall2 (fun task c =>
             cc_slug c = slug (snd (fst task))
             /\ cc_editToken c = snd task
             /\ JsObj.get (notesOf (final (claimAnonymousDocuments host s)))
                          (fst (fst task))
                = Some (afterClaim (snd (fst task)) (cc_out c)))
          (withToken (JsObj.entries (notesOf s)))
          (claimCalls (events (claimAnonymousDocuments host s)))
  /\ (forall p n token,
        JsObj.get (notesOf s) p = Some n ->
        editToken n = Some token -> token <> [] ->
        exists c,
          In c (claimCalls (events (claimAnonymousDocuments host s)))
          /\ cc_slug c = slug n /\ cc_editToken c = token
          /\ JsObj.get (notesOf (final (claimAnonymousDocuments host s))) p
             = Some (afterClaim n (cc_out c)))
  /\ (forall p n,
        JsObj.get (notesOf s) p = Some n ->
        editToken n = None \/ editToken n = Some [] ->
        JsObj.get (notesOf (final (claimAnonymousDocuments host s))) p = Some n).
Proof.
  intros Hkey Hnd.
  destruct (claimSweep_calls host s Hkey Hnd) as [Hcalls Hrest].
  assert (Htasks :
    Forall2 (fun task c =>
               cc_slug c = slug (snd (fst task))
               /\ cc_editToken c = snd task
               /\ JsObj.get (notesOf (final (claimAnonymousDocuments host s)))
                            (fst (fst task))
                  = Some (afterClaim (snd (fst task)) (cc_out c)))
            (withToken (JsObj.entries (notesOf s)))
            (claimCalls (events (claimAnonymousDocuments host s)))).
  { apply (@toClaimOf_withToken
             (fun entry c =>
                cc_slug c = slug (snd entry)
                /\ JsObj.get (notesOf (final (claimAnonymousDocuments host s))) (fst entry)
                   = Some (afterClaim (snd entry) (cc_out c))));
      [exact Hcalls|].
    intros entry c (Hs & Hg). simpl. auto. }
  split; [exact Htasks|]. split.
  - intros p n token Hget Htok Hne.
    assert (Hin : In (p, n, token) (withToken (JsObj.entries (notesOf s)))).
    { apply withToken_in; [now apply get_in | exact Htok | exact Hne]. }
    destruct (@Forall2_in_l _ _ _ _ _ _ Htasks Hin) as (c & Hc & H1 & H2 & H3).
    exists c. auto.
  - intros p n Hget Hnone. apply (Hrest p n Hget).
    destruct Hnone as [-> | ->]; reflexivity.
Qed.

(** ** Applying the pipeline to its own output *)



(** ** Overlapping status checks *)

Import ProCheck.

Lemma scan_snoc (l : list Ev) (e : Ev) : scan (l ++ [e]) = scanStep (scan l) e.
Proof. unfold scan. now rewrite fold_left_app. Qed.

Lemma history_app (t : nat) (a b : list Ev) :
  history t (a ++ b) = history t a ++ history t b.
Proof. apply filter_app. Qed.

Lemma upd_same {A} (f : nat -> A) (t : nat) (v : A) : upd f t v t = v.
Proof. unfold upd. now rewrite Nat.eqb_refl. Qed.

Lemma upd_other {A} (f : nat -> A) (t u : nat) (v : A) : u <> t -> upd f t v u = f u.
Proof. unfold upd. intro H. apply Nat.eqb_neq in H. now rewrite H. Qed.

Lemma init_inv (apiKey : jsstring) : CheckInv apiKey (init apiKey).
Proof.
  constructor; simpl; try reflexivity; try discriminate.
Qed.

Lemma in_snoc_other {A} (x y : A) (l : list A) : In x (l ++ [y]) -> x <> y -> In x l.
Proof.
  intros H Hne. apply in_app_or in H. destruct H as [H | [H | []]]; [exact H|].
  now elim Hne.
Qed.

(** The head of the waiting loop keeps the invariant, entered by an
    invocation whose history is its [Invoke] alone. *)
Lemma loopHead_inv (apiKey : jsstring) (t : nat) (s : Sys) :
  key s = apiKey ->
  (forall u, place s u = Calling -> proCheckInFlight s = Some u) ->
  (forall u, place s u = Settled -> proCheckInFlight s = Some u) ->
  scan (log s) = Some (outstanding s) ->
  (forall u, u <> t -> historyAt u (place s u) (history u (log s))) ->
  history t (log s) = [Invoke t] ->
  place s t <> Calling -> place s t <> Settled ->
  observesOwnCall s ->
  CheckInv apiKey (loopHead t s).
Proof.
  intros Hkey Hcalling Hsettled Hscan Hhist Ht Hnc Hns Hobs.
  unfold loopHead. destruct (proCheckInFlight s) as [p|] eqn:Efl.
  - constructor; simpl.
    + exact Hkey.
    + intros u Hu. destruct (Nat.eq_dec u t) as [-> | Hne].
      * rewrite upd_same in Hu. discriminate.
      * rewrite upd_other in Hu by exact Hne. now apply Hcalling.
    + intros u Hu. destruct (Nat.eq_dec u t) as [-> | Hne].
      * rewrite upd_same in Hu. discriminate.
      * rewrite upd_other in Hu by exact Hne. now apply Hsettled.
    + rewrite Hscan. f_equal. unfold outstanding. simpl. rewrite Efl.
      destruct (Nat.eq_dec p t) as [-> | Hne].
      * rewrite upd_same. destruct (place s t); try reflexivity. now elim Hnc.
      * now rewrite upd_other by exact Hne.
    + intros u. destruct (Nat.eq_dec u t) as [-> | Hne].
      * rewrite upd_same. exact Ht.
      * rewrite upd_other by exact Hne. now apply Hhist.
    + intros u result Hu Hin. simpl in Hu, Hin.
      destruct (Nat.eq_dec u t) as [-> | Hne].
      * rewrite upd_same in Hu. discriminate.
      * rewrite upd_other in Hu by exact Hne. now apply (Hobs u result).
  - assert (Hnone : forall u, place s u <> Calling /\ place s u <> Settled).
    { intro u. split; intro Hu; [apply Hcalling in Hu | apply Hsettled in Hu];
        discriminate. }
    constructor; simpl.
    + exact Hkey.
    + intros u Hu. destruct (Nat.eq_dec u t) as [-> | Hne]; [reflexivity|].
      rewrite upd_other in Hu by exact Hne. now elim (proj1 (Hnone u)).
    + intros u Hu. destruct (Nat.eq_dec u t) as [-> | Hne].
      * rewrite upd_same in Hu. discriminate.
      * rewrite upd_other in Hu by exact Hne. now elim (proj2 (Hnone u)).
    + rewrite scan_snoc, Hscan. unfold outstanding. simpl. rewrite Efl, upd_same.
      reflexivity.
    + intros u. rewrite history_app. simpl.
      destruct (Nat.eq_dec u t) as [-> | Hne].
      * rewrite upd_same, Nat.eqb_refl, Ht. reflexivity.
      * rewrite upd_other by exact Hne.
        assert (E : Nat.eqb t u = false) by (apply Nat.eqb_neq; congruence).
        rewrite E, app_nil_r. now apply Hhist.
    + intros u result Hu Hin. simpl in Hu, Hin.
      destruct (Nat.eq_dec u t) as [-> | Hne].
      * rewrite upd_same in Hu. discriminate.
      * rewrite upd_other in Hu by exact Hne. now elim (proj2 (Hnone u)).
Qed.

Lemma fire_inv (apiKey : jsstring) (a : Action) (s s' : Sys) :
  truthy apiKey = true -> CheckInv apiKey s -> fire a s = Some s' -> CheckInv apiKey s'.
Proof.
  intros Htruthy [Hkey Hcalling Hsettled Hscan Hhist Hobs] Hfire.
  destruct a as [t | t | t out | t]; simpl in Hfire.
  - (* invoke *)
    destruct (place s t) eqn:Ept; try discriminate.
    rewrite Hkey, Htruthy in Hfire. simpl in Hfire. inversion Hfire; subst s'.
    pose proof (Hhist t) as Hht. rewrite Ept in Hht. simpl in Hht.
    apply loopHead_inv; simpl; auto.
    + rewrite scan_snoc, Hscan.
      change (outstanding (withLog s [Invoke t])) with (outstanding s).
      destruct (outstanding s); reflexivity.
    + intros u Hne. rewrite history_app. simpl.
      assert (E : Nat.eqb t u = false) by (apply Nat.eqb_neq; congruence).
      rewrite E, app_nil_r. apply Hhist.
    + rewrite history_app, Hht. simpl. now rewrite Nat.eqb_refl.
    + rewrite Ept. discriminate.
    + rewrite Ept. discriminate.
    + intros u result Hu Hin. simpl in Hu, Hin. apply (Hobs u result Hu).
      apply in_snoc_other in Hin; [exact Hin | discriminate].
  - (* resume *)
    destruct (place s t) eqn:Ept; try discriminate.
    destruct (settledPromise s promise); try discriminate.
    inversion Hfire; subst s'.
    pose proof (Hhist t) as Hht. rewrite Ept in Hht. simpl in Hht.
    apply loopHead_inv; auto; rewrite Ept; discriminate.
  - (* respond *)
    destruct (place s t) eqn:Ept; try discriminate.
    inversion Hfire; subst s'.
    pose proof (Hcalling t Ept) as Hfl.
    constructor; simpl.
    + exact Hkey.
    + intros u Hu. destruct (Nat.eq_dec u t) as [-> | Hne].
      * rewrite upd_same in Hu. discriminate.
      * rewrite upd_other in Hu by exact Hne. now apply Hcalling.
    + intros u Hu. destruct (Nat.eq_dec u t) as [-> | Hne]; [exact Hfl|].
      rewrite upd_other in Hu by exact Hne. now apply Hsettled.
    + rewrite scan_snoc, Hscan. unfold outstanding. simpl.
      rewrite Hfl, Ept, upd_same. simpl. now rewrite Nat.eqb_refl.
    + intros u. rewrite history_app. simpl.
      destruct (Nat.eq_dec u t) as [-> | Hne].
      * rewrite upd_same, Nat.eqb_refl. pose proof (Hhist t) as Hht.
        rewrite Ept in Hht. simpl in Hht. rewrite Hht. simpl. now exists out.
      * rewrite upd_other by exact Hne.
        assert (E : Nat.eqb t u = false) by (apply Nat.eqb_neq; congruence).
        rewrite E, app_nil_r. apply Hhist.
    + intros u result Hu Hin. simpl in Hu, Hin.
      destruct (Nat.eq_dec u t) as [-> | Hne].
      * apply in_app_or in Hin. destruct Hin as [Hin | [Hin | []]].
        -- assert (Hh : In (CallEnd t (Ok result)) (history t (log s))).
           { apply filter_In. split; [exact Hin|]. simpl. apply Nat.eqb_refl. }
           pose proof (Hhist t) as Hht. rewrite Ept in Hht. simpl in Hht.
           rewrite Hht in Hh. destruct Hh as [Hh | [Hh | []]]; discriminate.
        -- inversion Hin; subst. reflexivity.
      * rewrite upd_other in Hu by exact Hne. apply Hsettled in Hu. congruence.
  - (* finish *)
    destruct (place s t) eqn:Ept; try discriminate.
    inversion Hfire; subst s'.
    pose proof (Hsettled t Ept) as Hfl.
    constructor; simpl.
    + exact Hkey.
    + intros u Hu. destruct (Nat.eq_dec u t) as [-> | Hne].
      * rewrite upd_same in Hu. discriminate.
      * rewrite upd_other in Hu by exact Hne. apply Hcalling in Hu. congruence.
    + intros u Hu. destruct (Nat.eq_dec u t) as [-> | Hne].
      * rewrite upd_same in Hu. discriminate.
      * rewrite upd_other in Hu by exact Hne. apply Hsettled in Hu. congruence.
    + rewrite scan_snoc, Hscan. unfold outstanding. simpl. rewrite Hfl, Ept.
      reflexivity.
    + intros u. rewrite history_app. simpl.
      destruct (Nat.eq_dec u t) as [-> | Hne].
      * rewrite upd_same, Nat.eqb_refl. pose proof (Hhist t) as Hht.
        rewrite Ept in Hht. simpl in Hht. destruct Hht as [out ->]. simpl.
        now exists out.
      * rewrite upd_other by exact Hne.
        assert (E : Nat.eqb t u = false) by (apply Nat.eqb_neq; congruence).
        rewrite E, app_nil_r. apply Hhist.
    + intros u result Hu Hin. simpl in Hu, Hin.
      destruct (Nat.eq_dec u t) as [-> | Hne].
      * rewrite upd_same in Hu. discriminate.
      * rewrite upd_other in Hu by exact Hne. apply Hsettled in Hu. congruence.
Qed.

Lemma runSchedule_inv (apiKey : jsstring) (sched : list Action) (s s' : Sys) :
  truthy apiKey = true -> CheckInv apiKey s -> runSchedule sched s = Some s' ->
  CheckInv apiKey s'.
Proof.
  intro Htruthy. revert s. induction sched as [|a sched IH]; simpl; intros s Hinv Hrun.
  - inversion Hrun; now subst.
  - destruct (fire a s) as [s1|] eqn:Efire; [|discriminate].
    apply (IH s1); [|exact Hrun]. now apply (fire_inv a Htruthy Hinv).
Qed.


(** ** The statements on concrete runs *)

Lemma retry_once_when_not_found_witness :
  (JsObj.get (notesOf Samples.retryState) (path Samples.fileA) = Some Samples.noteA
   /\ publishCalls (events (publishFile Demo.host Samples.fileA Samples.retryState))
      = [Runs.updateCall Samples.notFound; Runs.createCall Samples.freshResponse]
   /\ call_out (Runs.updateCall Samples.notFound) = Throw Samples.notFound)
  /\ (call_slug (Runs.updateCall Samples.notFound) = Some (slug Samples.noteA)
      /\ if isNotFound Samples.notFound
         then exists retry,
                [Runs.createCall Samples.freshResponse] = [retry]
                /\ call_authenticated retry
                   = call_authenticated (Runs.updateCall Samples.notFound)
                /\ call_slug retry = None /\ call_editToken retry = None
                /\ forall res, call_out retry = Ok res ->
                     exists now,
                       JsObj.get (notesOf (final (publishFile Demo.host Samples.fileA
                                                    Samples.retryState)))
                                 (path Samples.fileA)
                       = Some (recordOf res now)
         else [Runs.createCall Samples.freshResponse] = []
              /\ In (str "JotBird: " ++ errorText Samples.notFound)
                    (notices (events (publishFile Demo.host Samples.fileA
                                        Samples.retryState)))
              /\ notesOf (final (publishFile Demo.host Samples.fileA Samples.retryState))
                 = notesOf Samples.retryState).
Proof.
  assert (H1 : JsObj.get (notesOf Samples.retryState) (path Samples.fileA)
               = Some Samples.noteA) by (vm_compute; reflexivity).
  assert (H2 : publishCalls (events (publishFile Demo.host Samples.fileA
                                       Samples.retryState))
               = [Runs.updateCall Samples.notFound;
                  Runs.createCall Samples.freshResponse])
    by (vm_compute; reflexivity).
  assert (H3 : call_out (Runs.updateCall Samples.notFound) = Throw Samples.notFound)
    by reflexivity.
  split; [auto|].
  exact (retry_once_when_not_found Demo.host Samples.fileA Samples.retryState H1 H2 H3).
Defined.

Lemma failed_publish_keeps_records_witness :
  (lastCall (publishCalls (events (publishFile Demo.host Samples.fileA Samples.failState)))
   = Some (Runs.updateCall Samples.rateLimited)
   /\ call_out (Runs.updateCall Samples.rateLimited) = Throw Samples.rateLimited)
  /\ notesOf (final (publishFile Demo.host Samples.fileA Samples.failState))
     = notesOf Samples.failState.
Proof.
  assert (H1 : lastCall (publishCalls (events (publishFile Demo.host Samples.fileA
                                                 Samples.failState)))
               = Some (Runs.updateCall Samples.rateLimited))
    by (vm_compute; reflexivity).
  assert (H2 : call_out (Runs.updateCall Samples.rateLimited) = Throw Samples.rateLimited)
    by reflexivity.
  split; [auto|].
  exact (failed_publish_keeps_records Demo.host Samples.fileA Samples.failState H1 H2).
Defined.


Lemma notes_keys_distinct : NoDup (JsObj.keys Samples.notes).
Proof.
  repeat constructor; simpl; intro H;
    repeat (destruct H as [H | H]; [vm_compute in H; discriminate H|]); exact H.
Qed.

Lemma claim_sweep_per_record_witness :
  (truthy (apiKey (settings (this Runs.claimState))) = true
   /\ NoDup (JsObj.keys (notesOf Runs.claimState)))
  /\ (Forall2 (fun task c =>
                 cc_slug c = slug (snd (fst task))
                 /\ cc_editToken c = snd task
                 /\ JsObj.get (notesOf (final (claimAnonymousDocuments Demo.host
                                                 Runs.claimState))) (fst (fst task))
                    = Some (afterClaim (snd (fst task)) (cc_out c)))
              (withToken (JsObj.entries (notesOf Runs.claimState)))
              (claimCalls (events (claimAnonymousDocuments Demo.host Runs.claimState)))
      /\ (forall p n token,
            JsObj.get (notesOf Runs.claimState) p = Some n ->
            editToken n = Some token -> token <> [] ->
            exists c,
              In c (claimCalls (events (claimAnonymousDocuments Demo.host
                                          Runs.claimState)))
              /\ cc_slug c = slug n /\ cc_editToken c = token
              /\ JsObj.get (notesOf (final (claimAnonymousDocuments Demo.host
                                              Runs.claimState))) p
                 = Some (afterClaim n (cc_out c)))
      /\ (forall p n,
            JsObj.get (notesOf Runs.claimState) p = Some n ->
            editToken n = None \/ editToken n = Some [] ->
            JsObj.get (notesOf (final (claimAnonymousDocuments Demo.host
                                         Runs.claimState))) p
            = Some n)).
Proof.
  assert (H1 : truthy (apiKey (settings (this Runs.claimState))) = true) by reflexivity.
  assert (H2 : NoDup (JsObj.keys (notesOf Runs.claimState))) by exact notes_keys_distinct.
  split; [auto|].
  exact (claim_sweep_per_record Demo.host Runs.claimState H1 H2).
Defined.

(** The run of that state: the first record, whose claim failed, is
    untouched; the second carries the server's slug and url and no edit
    token; two calls were made. *)
Example claim_sweep_run :
  notesOf (final (claimAnonymousDocuments Demo.host Runs.claimState))
  = [(str "notes/a.md", Samples.noteA);
     (str "notes/b.md",
      mkNote (str "doc-b2") (str "https://share.jotbird.com/doc-b2") None
             (str "2026-01-20T00:00:00.000Z"));
     (str "notes/c.md", Samples.noteC)]
  /\ length (claimCalls (events (claimAnonymousDocuments Demo.host Runs.claimState))) = 2.
Proof. split; vm_compute; reflexivity. Qed.

Lemma proState_saves_ok :
  savesOk (events (publishFile Demo.host Samples.fileNew Samples.proState)).
Proof.
  intros data e H. vm_compute in H.
  repeat (destruct H as [H | H]; [discriminate H|]). exact H.
Qed.

Lemma mirrored_header_values_witness :
  (lastCall (publishCalls (events (publishFile Demo.host Samples.fileNew Samples.proState)))
   = Some (Runs.createCall Samples.proResponse)
   /\ call_out (Runs.createCall Samples.proResponse) = Ok Samples.proResponse
   /\ storeFrontmatter (settings (this Samples.proState)) = true
   /\ savesOk (events (publishFile Demo.host Samples.fileNew Samples.proState)))
  /\ exists fn later,
       headerWrites (events (publishFile Demo.host Samples.fileNew Samples.proState))
       = (Samples.fileNew, fn) :: later
       /\ forall fm,
            headerString (fn fm) "jotbird_link" = Some (res_url Samples.proResponse)
            /\ headerString (fn fm) "jotbird_expires"
               = Some (mirroredExpiration (res_expiresAt Samples.proResponse)
                                          (res_ttlDays Samples.proResponse)).
Proof.
  assert (H1 : lastCall (publishCalls (events (publishFile Demo.host Samples.fileNew
                                                 Samples.proState)))
               = Some (Runs.createCall Samples.proResponse))
    by (vm_compute; reflexivity).
  assert (H2 : call_out (Runs.createCall Samples.proResponse) = Ok Samples.proResponse)
    by reflexivity.
  assert (H3 : storeFrontmatter (settings (this Samples.proState)) = true)
    by reflexivity.
  split; [repeat split; auto; exact proState_saves_ok|].
  exact (mirrored_header_values Demo.host Samples.fileNew Samples.proState H1 H2 H3
           proState_saves_ok).
Defined.


(** That publish and a second one after it: one sweep
    in all, the second publish writing its own header only. *)
Example sweep_runs_once_over_two_publishes :
  sweeps (events (perform Demo.host Runs.twoPublishes Samples.proState)) = 1
  /\ map (fun w => path (fst w))
         (headerWrites (events (perform Demo.host Runs.twoPublishes Samples.proState)))
     = [str "notes/new.md"; str "notes/a.md"; str "notes/b.md"; str "notes/c.md";
        str "notes/a.md"].
Proof. split; vm_compute; reflexivity. Qed.


(** That rename moves the record of "notes/b.md" to the
    end of the mapping under its new path; deleting "notes/a.md" drops its
    record. *)
Example rename_and_delete_runs :
  notesOf (final (onRename Demo.host (AFile Runs.renamedB) (str "notes/b.md")
                    Runs.claimState))
  = [(str "notes/a.md", Samples.noteA); (str "notes/c.md", Samples.noteC);
     (str "archive/b.md", Samples.noteB)]
  /\ notesOf (final (onDelete Demo.host (AFile Samples.fileA) Runs.claimState))
     = [(str "notes/b.md", Samples.noteB); (str "notes/c.md", Samples.noteC)].
Proof. split; vm_compute; reflexivity. Qed.


(** The log of that schedule: the second invocation starts its call
    only after the call of the first has ended. *)
Example overlapping_log :
  log Runs.overlappingEnd
  = [Invoke 1; CallStart 1; Invoke 2; CallEnd 1 (Samples.listed false); Return 1;
     CallStart 2; CallEnd 2 (Samples.listed true); Return 2]
  /\ sysIsPro Runs.overlappingEnd = true.
Proof. split; vm_compute; reflexivity. Qed.

(** ** The plugin on scenarios of the test suite *)

Example test_prepends_filename_heading :
  sentNotes (events (publishFile Demo.host (Demo.mdFile "notes/My Vacation.md" "My Vacation")
                       (oneDocument (Demo.mdFile "notes/My Vacation.md" "My Vacation")
                          (str "Just some content without a heading")
                          [Ok Samples.freshResponse])))
  = [(str "# My Vacation" ++ [LF; LF] ++ str "Just some content without a heading",
      str "My Vacation", None)].
Proof. vm_compute. reflexivity. Qed.

Example test_frontmatter_title_heading :
  sentNotes (events (publishFile Demo.host (Demo.mdFile "notes/draft-1.md" "draft-1")
                       (oneDocument (Demo.mdFile "notes/draft-1.md" "draft-1")
                          (str "---" ++ [LF] ++ str "title: My Document Title" ++ [LF]
                           ++ str "---" ++ [LF] ++ str "Some content")
                          [Ok Samples.freshResponse])))
  = [(str "# My Document Title" ++ [LF; LF] ++ str "Some content",
      str "My Document Title", None)].
Proof. vm_compute. reflexivity. Qed.

Example test_existing_heading_kept :
  sentNotes (events (publishFile Demo.host (Demo.mdFile "notes/hello.md" "hello")
                       (oneDocument (Demo.mdFile "notes/hello.md" "hello")
                          (str "# My Custom Title" ++ [LF; LF] ++ str "Content here")
                          [Ok Samples.freshResponse])))
  = [(str "# My Custom Title" ++ [LF; LF] ++ str "Content here",
      str "My Custom Title", None)].
Proof. vm_compute. reflexivity. Qed.

Example test_header_after_publish :
  map (fun w => (headerString (snd w []) "jotbird_link",
                 headerString (snd w []) "jotbird_expires"))
      (headerWrites (events (publishFile Demo.host (Demo.mdFile "notes/hello.md" "hello")
                               (oneDocument (Demo.mdFile "notes/hello.md" "hello")
                                  (str "# Hello") [Ok Samples.freshResponse]))))
  = [(Some (str "https://share.jotbird.com/new-slug"), Some (str "2026-05-10"))].
Proof. vm_compute. reflexivity. Qed.

Example test_no_retry_on_other_errors :
  publishCalls (events (publishFile Demo.host Samples.fileA Samples.failState))
  = [Runs.updateCall Samples.rateLimited]
  /\ notices (events (publishFile Demo.host Samples.fileA Samples.failState))
     = [str "JotBird: Updating..."; str "JotBird: Publish: Rate limit exceeded"].
Proof. split; vm_compute; reflexivity. Qed.

Example test_tag_after_heading_text :
  Markdown.stripTags (str "## Plans #tag") = str "## Plans ".
Proof. vm_compute. reflexivity. Qed.

(** * Further properties *)

(** ** What a match consumes *)

Lemma ahead_refl (x : MState) : ahead x x.
Proof. exists 0. simpl. repeat split; lia. Qed.

Lemma ahead_trans (x y z : MState) : ahead x y -> ahead y z -> ahead x z.
Proof.
  intros (n & Hn & Hb & Hi & Ha) (m & Hm & Hb' & Hi' & Ha').
  exists (n + m). rewrite Ha in Hm, Hb', Ha'. rewrite length_skipn in Hm.
  repeat split.
  - lia.
  - rewrite Hb', Hb, app_assoc, <- rev_app_distr. f_equal. f_equal.
    rewrite <- (firstn_skipn n (firstn (n + m) (after x))).
    rewrite firstn_firstn, skipn_firstn_comm.
    replace (Nat.min n (n + m)) with n by lia.
    replace (n + m - n) with m by lia. reflexivity.
  - lia.
  - rewrite Ha', skipn_skipn. f_equal. lia.
Qed.

Lemma ahead_caps (x z : MState) cs cs' :
  ahead x z ->
  ahead (mkM (before x) (idx x) (after x) cs) (mkM (before z) (idx z) (after z) cs').
Proof. intros (n & H). exists n. exact H. Qed.

Lemma advance_ahead (x y : MState) : advance x = Some y -> ahead x y.
Proof.
  unfold advance. destruct x as [bef i aft cs]. simpl.
  destruct aft as [|c aft]; [discriminate|]. intro H. inversion H; subst.
  exists 1. simpl. repeat split; lia.
Qed.

Lemma eat_ahead (s : jsstring) (x y : MState) : eat s x = Some y -> ahead x y.
Proof.
  revert x. induction s as [|c s IH]; intros x H; simpl in H.
  - inversion H. apply ahead_refl.
  - destruct (after x) as [|d rest] eqn:E; [discriminate|].
    destruct (eqc c d); [|discriminate].
    destruct (advance x) as [x1|] eqn:Ea; [|discriminate].
    eapply ahead_trans; [apply advance_ahead; exact Ea | now apply IH].
Qed.

Lemma run_ahead (ml : bool) (r : regex) :
  forall x k y, run ml r x k = Some y -> exists z, ahead x z /\ k z = Some y.
Proof.
  induction r as [ | p | a IHa b IHb | a IHa b IHb | greedy min max a IHa
                   | n a IHa | n | a IHa | | ]; intros x k y H.
  - exists x. split; [apply ahead_refl | exact H].
  - simpl in H. destruct (after x) as [|c rest] eqn:E; [discriminate|].
    destruct (p c); [|discriminate].
    destruct (advance x) as [x1|] eqn:Ea; [|discriminate].
    exists x1. split; [now apply advance_ahead | exact H].
  - simpl in H. apply IHa in H. destruct H as (z1 & H1 & H).
    apply IHb in H. destruct H as (z2 & H2 & H).
    exists z2. split; [eapply ahead_trans; eassumption | exact H].
  - simpl in H. unfold orElse in H.
    destruct (run ml a x k) eqn:E.
    + inversion H; subst. now apply IHa.
    + now apply IHb.
  - simpl in H. revert H. generalize (min + length (after x)). intro fuel.
    revert min max x. induction fuel as [|fuel IHf]; intros min max x H.
    + exists x. split; [apply ahead_refl | exact H].
    + assert (Hd : forall y0 : MState,
                (if (Nat.eqb min 0 && Nat.eqb (idx y0) (idx x))%bool then None
                 else (fix rep (fuel : nat) (min : nat) (max : option nat) (x : MState)
                         {struct fuel} : option MState :=
                         match fuel with
                         | O => k x
                         | S fuel' =>
                             match max with
                             | Some O => k x
                             | _ =>
                                 let d := fun y : MState =>
                                   if (Nat.eqb min 0 && Nat.eqb (idx y) (idx x))%bool then None
                                   else rep fuel' (pred min) (predMax max) y in
                                 let xr := mkM (before x) (idx x) (after x)
                                               (clearCaps (groupsOf a) (caps x)) in
                                 if negb (Nat.eqb min 0) then run ml a xr d
                                 else if greedy
                                      then orElse (run ml a xr d) (fun _ => k x)
                                      else orElse (k x) (fun _ => run ml a xr d)
                             end
                         end) fuel (pred min) (predMax max) y0) = Some y ->
                ahead x y0 -> exists z, ahead x z /\ k z = Some y).
      { intros y0 Hy0 Hah.
        destruct (Nat.eqb min 0 && Nat.eqb (idx y0) (idx x))%bool; [discriminate|].
        apply IHf in Hy0. destruct Hy0 as (z & Hz & Hk).
        exists z. split; [eapply ahead_trans; eassumption | exact Hk]. }
      assert (Hrun : forall d' : MState -> option MState,
                (forall y0, d' y0 = Some y -> ahead x y0 -> exists z, ahead x z /\ k z = Some y) ->
                run ml a (mkM (before x) (idx x) (after x)
                              (clearCaps (groupsOf a) (caps x))) d' = Some y ->
                exists z, ahead x z /\ k z = Some y).
      { intros d' Hd' Hr. apply IHa in Hr. destruct Hr as (z1 & Hz1 & Hr).
        apply Hd' in Hr; [exact Hr|].
        destruct Hz1 as (n1 & Hz1). exists n1. exact Hz1. }
      assert (Hk : k x = Some y -> exists z, ahead x z /\ k z = Some y).
      { intro Hx. exists x. split; [apply ahead_refl | exact Hx]. }
      cbn beta iota zeta in H.
      destruct max as [[|m]|].
      * now apply Hk.
      * cbn beta iota zeta in H.
        destruct (negb (Nat.eqb min 0)).
        -- eapply Hrun; [|exact H]. exact Hd.
        -- destruct greedy; unfold orElse in H.
           ++ match type of H with
              | match ?e with _ => _ end = _ => destruct e eqn:E
              end.
              ** inversion H; subst. eapply Hrun; [|exact E]. exact Hd.
              ** now apply Hk.
           ++ destruct (k x) eqn:E.
              ** inversion H; subst. now apply Hk.
              ** eapply Hrun; [|exact H]. exact Hd.
      * cbn beta iota zeta in H.
        destruct (negb (Nat.eqb min 0)).
        -- eapply Hrun; [|exact H]. exact Hd.
        -- destruct greedy; unfold orElse in H.
           ++ match type of H with
              | match ?e with _ => _ end = _ => destruct e eqn:E
              end.
              ** inversion H; subst. eapply Hrun; [|exact E]. exact Hd.
              ** now apply Hk.
           ++ destruct (k x) eqn:E.
              ** inversion H; subst. now apply Hk.
              ** eapply Hrun; [|exact H]. exact Hd.
  - simpl in H. apply IHa in H. destruct H as (z1 & Hz1 & H).
    eexists. split; [|exact H]. destruct Hz1 as (n1 & Hz1). exists n1. exact Hz1.
  - simpl in H. destruct (capture n (caps x)).
    + destruct (eat j x) as [x1|] eqn:E; [|discriminate].
      exists x1. split; [eapply eat_ahead; exact E | exact H].
    + exists x. split; [apply ahead_refl | exact H].
  - simpl in H. destruct (run ml a x (fun y0 => Some y0)); [discriminate|].
    exists x. split; [apply ahead_refl | exact H].
  - simpl in H. exists x. split; [apply ahead_refl|].
    destruct (before x); [exact H|]. destruct (ml && isLineTerminator c)%bool; [exact H | discriminate].
  - simpl in H. exists x. split; [apply ahead_refl|].
    destruct (after x); [exact H|]. destruct (ml && isLineTerminator c)%bool; [exact H | discriminate].
Qed.

Lemma ahead_in (c : char) (x z : MState) : ahead x z -> In c (after z) -> In c (after x).
Proof.
  intros (n & _ & _ & _ & Ha) H. rewrite Ha in H.
  rewrite <- (firstn_skipn n (after x)). apply in_or_app. now right.
Qed.

Lemma run_needs (ml : bool) (c : char) (r : regex) :
  needs c r -> forall x k y, run ml r x k = Some y -> In c (after x).
Proof.
  induction r as [ | p | a IHa b IHb | a IHa b IHb | greedy min max a IHa
                   | n a IHa | n | a IHa | | ]; simpl needs; intros Hn x k y H;
    try contradiction.
  - simpl in H. destruct (after x) as [|d rest] eqn:E; [discriminate|].
    destruct (p d) eqn:Ep; [|discriminate]. left. now apply Hn.
  - simpl in H. destruct Hn as [Hn|Hn].
    + eapply IHa; eassumption.
    + apply run_ahead in H. destruct H as (z & Hz & H).
      eapply ahead_in; [exact Hz|]. eapply IHb; eassumption.
  - simpl in H. unfold orElse in H. destruct Hn as [Ha Hb].
    destruct (run ml a x k) eqn:E.
    + eapply IHa; eassumption.
    + eapply IHb; eassumption.
  - destruct Hn as (Hmin & Hmax & Hn). simpl in H.
    destruct min as [|min]; [lia|]. cbn [Nat.add] in H. cbn beta iota zeta in H.
    destruct max as [[|m]|]; [congruence| |];
      cbn [Nat.eqb negb] in H; cbn beta iota zeta in H;
      apply IHa in H; auto.
  - simpl in H. eapply IHa; eassumption.
Qed.

Lemma matchAt_needs (ml : bool) (c : char) (r : regex) bef i aft :
  needs c r -> ~ In c aft -> matchAt ml r bef i aft = None.
Proof.
  intros Hn Hc. unfold matchAt.
  destruct (run ml r (mkM bef i aft []) (fun y => Some y)) eqn:E; [|reflexivity].
  exfalso. apply Hc. eapply (run_needs ml c r Hn) in E. exact E.
Qed.

Lemma matchesFrom_needs (ml : bool) (c : char) (r : regex) :
  needs c r -> forall aft bef i skip, ~ In c aft -> matchesFrom ml r bef i aft skip = [].
Proof.
  intro Hn. induction aft as [|d aft IH]; intros bef i skip Hc.
  - destruct skip; simpl; [|reflexivity].
    rewrite (matchAt_needs ml c r bef i [] Hn Hc). reflexivity.
  - assert (Hc' : ~ In c aft) by (intro; apply Hc; now right).
    destruct skip; simpl.
    + rewrite (matchAt_needs ml c r bef i (d :: aft) Hn Hc). now apply IH.
    + now apply IH.
Qed.

Lemma replaceAll_needs (ml : bool) (c : char) (r : regex) f s :
  needs c r -> ~ In c s -> replaceAll ml r f s = s.
Proof.
  intros Hn Hc. unfold replaceAll, matchAll.
  rewrite (matchesFrom_needs ml c r Hn s [] 0 0 Hc). reflexivity.
Qed.

Lemma execFrom_needs (ml : bool) (c : char) (r : regex) :
  needs c r -> forall aft bef i, ~ In c aft -> execFrom ml r bef i aft = None.
Proof.
  intro Hn. induction aft as [|d aft IH]; intros bef i Hc; simpl;
    rewrite (matchAt_needs ml c r bef i _ Hn Hc); [reflexivity|].
  apply IH. intro; apply Hc; now right.
Qed.

(** The text of a match is the part of the subject it covers. *)
Lemma matchAt_text (ml : bool) (r : regex) bef i aft m :
  matchAt ml r bef i aft = Some m ->
  m_index m = i /\ exists n, n <= length aft /\ m_text m = firstn n aft.
Proof.
  unfold matchAt. destruct (run ml r (mkM bef i aft []) (fun y => Some y)) eqn:E;
    [|discriminate].
  intro H. inversion H; subst. simpl. split; [reflexivity|].
  apply run_ahead in E. destruct E as (z & (n & Hn & Hb & Hi & Ha) & Hz).
  inversion Hz; subst. simpl in *. exists n. split; [exact Hn|].
  unfold between. simpl. rewrite Hi, Hb.
  replace (i + n - i) with n by lia.
  rewrite firstn_app, length_rev, length_firstn.
  replace (n - Nat.min n (length aft)) with 0 by lia.
  rewrite firstn_O, app_nil_r.
  rewrite firstn_all2 by (rewrite length_rev, length_firstn; lia).
  apply rev_involutive.
Qed.

(** A pattern that opens with [^] and has no [m] flag matches at the start
    of the subject or not at all. *)
Lemma matchAt_bol (r : regex) bef i aft :
  bef <> [] -> matchAt false (Seq Bol r) bef i aft = None.
Proof.
  intro H. unfold matchAt. simpl. destruct bef; [now elim H | reflexivity].
Qed.

Lemma execFrom_bol (r : regex) : forall aft bef i,
  bef <> [] -> execFrom false (Seq Bol r) bef i aft = None.
Proof.
  induction aft as [|c aft IH]; intros bef i H; simpl;
    rewrite (matchAt_bol r i _ H); [reflexivity|].
  apply IH. discriminate.
Qed.

Lemma exec_bol (r : regex) (s : jsstring) :
  exec false (Seq Bol r) s = matchAt false (Seq Bol r) [] 0 s.
Proof.
  unfold exec. destruct s as [|c s]; simpl.
  - destruct (matchAt false (Seq Bol r) [] 0 []); reflexivity.
  - destruct (matchAt false (Seq Bol r) [] 0 (c :: s)); [reflexivity|].
    apply execFrom_bol. discriminate.
Qed.

Lemma run_lits (ml : bool) (p : jsstring) (x : MState) (k : MState -> option MState) :
  run ml (lits p) x k
  = if startsWith (after x) p then k (jump (length p) x) else None.
Proof.
  revert x k. induction p as [|c p IH]; intros x k.
  - simpl. destruct (after x); reflexivity.
  - assert (Hone : forall (x : MState) (k : MState -> option MState),
              run ml (Chr (eqc c)) x k
              = match after x with
                | [] => None
                | d :: _ => if eqc c d
                            then match advance x with Some y => k y | None => None end
                            else None
                end).
    { intros x0 k0. simpl. destruct (after x0); reflexivity. }
    destruct p as [|c' p'].
    + simpl lits. rewrite Hone. destruct x as [bef i aft cs]. simpl.
      destruct aft as [|d aft]; [reflexivity|]. simpl.
      destruct (eqc c d); [|reflexivity]. simpl. destruct aft; reflexivity.
    + change (lits (c :: c' :: p')) with (Seq (Chr (eqc c)) (lits (c' :: p'))).
      change (run ml (Seq (Chr (eqc c)) (lits (c' :: p'))) x k)
        with (run ml (Chr (eqc c)) x (fun y => run ml (lits (c' :: p')) y k)).
      rewrite Hone. destruct x as [bef i aft cs].
      destruct aft as [|d aft]; [reflexivity|].
      change (startsWith (after (mkM bef i (d :: aft) cs)) (c :: c' :: p'))
        with (eqc c d && startsWith aft (c' :: p'))%bool.
      cbn [after advance before idx caps].
      destruct (eqc c d); [|reflexivity].
      rewrite IH. reflexivity.
Qed.

Lemma sliceFrom_firstn (s : jsstring) (n : nat) :
  n <= length s -> sliceFrom s (zlen (firstn n s)) = skipn n s.
Proof.
  intro H. unfold sliceFrom, slice, zlen. rewrite length_firstn.
  replace (Nat.min n (length s)) with n by lia.
  destruct (Z.ltb_spec (Z.of_nat n) 0); [lia|].
  destruct (Z.ltb_spec (Z.of_nat (length s)) 0); [lia|].
  rewrite !Z.min_l by lia. rewrite Nat2Z.id.
  apply firstn_all2. rewrite length_skipn. lia.
Qed.

Lemma stripFrontmatter_unmarked (md : jsstring) :
  startsWith md (str "---") = false -> stripFrontmatter md = md.
Proof.
  intro H. unfold stripFrontmatter.
  change frontmatterRe
    with (Seq Bol (Seq (lits (str "---"))
                       (seq [opt cr; lf; lazyStar anyChar; opt cr; lf; lit "---";
                             opt cr; opt lf]))).
  rewrite exec_bol. unfold matchAt.
  change (run false (Seq Bol (Seq (lits (str "---")) ?r)) ?x ?k)
    with (run false (lits (str "---")) x (fun y => run false r y k)).
  cbn [run before]. rewrite run_lits. simpl after. rewrite H. reflexivity.
Qed.

Lemma stripFrontmatter_suffix (md : jsstring) :
  exists header, md = header ++ stripFrontmatter md.
Proof.
  unfold stripFrontmatter.
  change frontmatterRe
    with (Seq Bol (seq [lit "---"; opt cr; lf; lazyStar anyChar; opt cr; lf; lit "---";
                             opt cr; opt lf])).
  rewrite exec_bol.
  destruct (matchAt false _ [] 0 md) as [m|] eqn:E.
  - apply matchAt_text in E. destruct E as (_ & n & Hn & ->).
    rewrite sliceFrom_firstn by exact Hn.
    exists (firstn n md). symmetry. apply firstn_skipn.
  - now exists [].
Qed.

Lemma eqc_is (c d : char) : eqc c d = true -> d = c.
Proof. intro H. symmetry. now apply eqc_eq. Qed.

Ltac solve_char :=
  let d := fresh "d" in let H := fresh "H" in
  intros d H; symmetry; apply N.eqb_eq; exact H.

Lemma needs_commentRe : needs percent commentRe.
Proof. cbn. left. left. solve_char. Qed.

Lemma needs_aliasedLinkRe : needs bracket aliasedLinkRe.
Proof. cbn. left. left. solve_char. Qed.

Lemma needs_plainLinkRe : needs bracket plainLinkRe.
Proof. cbn. left. left. solve_char. Qed.

Lemma needs_wikiImageRegex : needs bracket wikiImageRegex.
Proof. cbn. left. right. left. solve_char. Qed.

Lemma needs_mdImageRegex : needs bracket mdImageRegex.
Proof. cbn. left. right. solve_char. Qed.

Lemma needs_tagRe : needs hash tagRe.
Proof. cbn. right. left. solve_char. Qed.

Lemma needs_h1Re : needs hash h1Re.
Proof. cbn. right. left. solve_char. Qed.

Lemma stripComments_unmarked (md : jsstring) : ~ In percent md -> stripComments md = md.
Proof. intro H. exact (@replaceAll_needs false _ _ _ _ needs_commentRe H). Qed.

Lemma convertWikiLinks_unmarked (md : jsstring) :
  ~ In bracket md -> convertWikiLinks md = md.
Proof.
  intro H. unfold convertWikiLinks.
  rewrite (@replaceAll_needs false _ _ (group 2) _ needs_aliasedLinkRe H).
  exact (@replaceAll_needs false _ _ (group 1) _ needs_plainLinkRe H).
Qed.

Lemma imageRefs_unmarked (md : jsstring) :
  ~ In bracket md -> wikiImageRefs md = [] /\ mdImageRefs md = [].
Proof.
  intro H. unfold wikiImageRefs, mdImageRefs, matchAll.
  rewrite (@matchesFrom_needs false _ _ needs_wikiImageRegex md [] 0 0 H).
  rewrite (@matchesFrom_needs false _ _ needs_mdImageRegex md [] 0 0 H). now split.
Qed.

Lemma hasTagStart_skipn (n : nat) (s : jsstring) :
  hasTagStart (skipn n s) = true -> hasTagStart s = true.
Proof.
  revert s. induction n as [|n IH]; intros s H; [exact H|].
  destruct s as [|a s]; [exact H|]. simpl in H. apply IH in H.
  cbn [hasTagStart]. rewrite H. apply orb_true_r.
Qed.

Lemma run_chr (ml : bool) (p : char -> bool) x k y :
  run ml (Chr p) x k = Some y ->
  exists c rest x1,
    after x = c :: rest /\ p c = true /\ advance x = Some x1 /\ k x1 = Some y.
Proof.
  simpl. destruct (after x) as [|c rest]; [discriminate|].
  destruct (p c) eqn:Ep; [|discriminate].
  destruct (advance x) as [x1|]; [|discriminate].
  intro H. exists c, rest, x1. auto.
Qed.

Lemma run_negAhead (ml : bool) (a : regex) x k y :
  run ml (NegAhead a) x k = Some y -> k x = Some y.
Proof. simpl. destruct (run ml a x (fun y0 => Some y0)); [discriminate | trivial]. Qed.

(** A repetition with a mandatory first round starts with a character of
    its class. *)
Lemma run_rep_first (ml greedy : bool) (min : nat) (max : option nat)
  (p : char -> bool) x k y :
  0 < min -> max <> Some 0 ->
  run ml (Rep greedy min max (Chr p)) x k = Some y ->
  exists c rest, after x = c :: rest /\ p c = true.
Proof.
  intros Hmin Hmax H. simpl in H.
  destruct min as [|min]; [lia|]. cbn [Nat.add Nat.eqb negb] in H.
  destruct max as [[|m]|]; [congruence| |]; cbn [after] in H;
    destruct (after x) as [|c rest]; try discriminate;
    destruct (p c) eqn:E; try discriminate; now exists c, rest.
Qed.

Lemma run_tagRe (x : MState) (k : MState -> option MState) (y : MState) :
  run true tagRe x k = Some y -> hasTagStart (after x) = true.
Proof.
  intro H.
  change tagRe with (Seq (Grp 1 (Alt Bol space))
                      (Seq (Chr (eqc hash))
                        (Seq (NegAhead (Alt (chr "#") space))
                             (Grp 2 (Rep true 1 None (Chr tagChar)))))) in H.
  change (run true (Seq ?a ?b) x k) with (run true a x (fun y => run true b y k)) in H.
  apply run_ahead in H. destruct H as (z & (n & _ & _ & _ & Hz) & H).
  apply (hasTagStart_skipn n). rewrite <- Hz. clear Hz.
  change (run true (Seq ?a ?b) z k) with (run true a z (fun y => run true b y k)) in H.
  apply run_chr in H. destruct H as (a & t & z1 & Ea & Eh & Ez1 & H).
  apply eqc_is in Eh. subst a.
  change (run true (Seq ?a ?b) z1 k) with (run true a z1 (fun y => run true b y k)) in H.
  apply run_negAhead in H.
  change (run true (Grp ?n ?a) z1 k)
    with (run true a z1 (fun y => k (mkM (before y) (idx y) (after y)
                                         ((n, between z1 y) :: clearCaps [n] (caps y))))) in H.
  apply run_rep_first in H; [|lia|discriminate].
  destruct H as (b & t' & Eb & Htag).
  unfold advance in Ez1. rewrite Ea in Ez1. inversion Ez1; subst z1. simpl in Eb. subst t.
  rewrite Ea. cbn [hasTagStart]. rewrite Htag. reflexivity.
Qed.

Lemma matchesFrom_tagRe : forall aft bef i skip,
  hasTagStart aft = false -> matchesFrom true tagRe bef i aft skip = [].
Proof.
  assert (Hat : forall aft bef i, hasTagStart aft = false ->
                 matchAt true tagRe bef i aft = None).
  { intros aft bef i H. unfold matchAt.
    destruct (run true tagRe (mkM bef i aft []) (fun y => Some y)) eqn:E; [|reflexivity].
    apply run_tagRe in E. simpl in E. congruence. }
  induction aft as [|d aft IH]; intros bef i skip H.
  - destruct skip; simpl; [|reflexivity]. now rewrite Hat.
  - assert (H' : hasTagStart aft = false).
    { cbn [hasTagStart] in H. now apply orb_false_iff in H. }
    destruct skip; simpl.
    + rewrite Hat by exact H. now apply IH.
    + now apply IH.
Qed.

Lemma stripTags_untagged (md : jsstring) :
  hasTagStart md = false -> Markdown.stripTags md = md.
Proof.
  intro H. unfold Markdown.stripTags, replaceAll, matchAll.
  now rewrite matchesFrom_tagRe.
Qed.

Lemma hasTagStart_hash (s : jsstring) : ~ In hash s -> hasTagStart s = false.
Proof.
  induction s as [|a s IH]; intro H; [reflexivity|].
  cbn [hasTagStart]. rewrite IH by (intro; apply H; now right).
  destruct (eqc a hash) eqn:E; [|reflexivity].
  apply eqc_eq in E. exfalso. apply H. now left.
Qed.

(** X1: [stripFrontmatter] only ever removes text from the front: what it
    returns is the rest of the input after some header; and a text that does
    not begin with the marker [---] is returned as it is. *)
Theorem frontmatter_strip_keeps_body (md : jsstring) :
  (exists header, md = header ++ stripFrontmatter md)
  /\ (startsWith md (str "---") = false -> stripFrontmatter md = md).
Proof. split; [apply stripFrontmatter_suffix | apply stripFrontmatter_unmarked]. Qed.

(** X2: [stripTags] leaves a text unchanged in which no [#] is directly
    followed by a tag character (a letter, a digit, [_], [/] or [-]); so
    headings, whose [#] are followed by [#] or a space, are kept. *)
Theorem untagged_text_is_kept (md : jsstring) :
  hasTagStart md = false -> Markdown.stripTags md = md.
Proof. apply stripTags_untagged. Qed.

(** X3: a text that does not begin with [---], holds no [%] and no [[],
    and (when tags are stripped) no tag, goes through [processMarkdown]
    unchanged but for the white space trimmed at both ends, and neither the
    vault nor the service is touched. *)
Theorem plain_prose_is_only_trimmed {W} (host : Host W) (content : jsstring)
  (sourceFile : TFile) (apiKey : jsstring) (shouldStripTags : bool) (s : State W) :
  startsWith content (str "---") = false ->
  ~ In percent content -> ~ In bracket content ->
  (shouldStripTags = true -> hasTagStart content = false) ->
  processMarkdown host content sourceFile apiKey shouldStripTags s
  = (Ok (trim content), s, []).
Proof.
  intros Hfm Hpc Hbr Htag.
  pose proof (processMarkdown_no_images host content sourceFile apiKey shouldStripTags s)
    as H. cbv zeta in H.
  rewrite stripFrontmatter_unmarked in H by exact Hfm.
  rewrite stripComments_unmarked in H by exact Hpc.
  destruct (@imageRefs_unmarked content Hbr) as [Hw Hm].
  rewrite (H Hw Hm). rewrite convertWikiLinks_unmarked by exact Hbr.
  destruct shouldStripTags; [|reflexivity].
  now rewrite stripTags_untagged by auto.
Qed.

(** X4: for a content that does not begin with [---] and holds no [#],
    [extractTitle] is the base name of the file. *)
Theorem title_falls_back_to_file_name (content : jsstring) (file : TFile) :
  startsWith content (str "---") = false -> ~ In hash content ->
  extractTitle content file = basename file.
Proof.
  intros Hfm Hh. unfold extractTitle.
  change frontmatterBlockRe
    with (Seq Bol (Seq (lits (str "---"))
                       (seq [opt cr; lf; lazyStar anyChar; opt cr; lf; lit "---"]))).
  rewrite exec_bol. unfold matchAt at 1.
  change (run false (Seq Bol (Seq (lits (str "---")) ?r)) ?x ?k)
    with (run false (lits (str "---")) x (fun y => run false r y k)).
  cbn [run before]. rewrite run_lits. simpl after. rewrite Hfm.
  rewrite stripFrontmatter_unmarked by exact Hfm.
  unfold exec. now rewrite (@execFrom_needs true _ _ needs_h1Re content [] 0 Hh).
Qed.

Lemma uploadsDone_app (a b : list Event) :
  uploadsDone (a ++ b) = uploadsDone a ++ uploadsDone b.
Proof.
  induction a as [|e a IH]; simpl; [reflexivity|].
  destruct e; simpl; try exact IH.
  destruct out; simpl; [now rewrite IH | exact IH].
Qed.

Section Images.
Context {W : Type} (host : Host W).
Implicit Types (s : State W).

Lemma resolveAndUploadImage_url fileName apiKey sourceFile s :
  wp (resolveAndUploadImage host fileName apiKey sourceFile) s (fun r s' evs =>
    this s' = this s
    /\ exists url, r = Ok url
         /\ match url with
            | Some u => uploadsDone evs = [mkUpload u]
            | None => uploadsDone evs = []
            end).
Proof.
  unfold resolveAndUploadImage. apply wp_bind, wp_getWorld.
  destruct (resolved (vault_getFiles host (world s)) fileName) as [f|].
  2:{ apply wp_ret. split; [reflexivity|]. now exists None. }
  apply wp_tryCatch, wp_bind, wp_query. intros [data|e] w' _.
  2:{ apply wp_ret. split; [reflexivity|]. now exists None. }
  destruct (getMimeType (extension f)) as [mimeType|].
  2:{ apply wp_ret. split; [reflexivity|]. now exists None. }
  apply wp_bind, wp_call. intros [[u]|e] w'' _.
  - apply wp_ret. split; [reflexivity|]. now exists (Some u).
  - apply wp_ret. split; [reflexivity|]. now exists None.
Qed.

Lemma uploadAll_none nameOf wrap apiKey sourceFile refs s :
  wp (uploadAll host nameOf wrap apiKey sourceFile refs) s (fun r s' evs =>
    this s' = this s
    /\ exists reps, r = Ok reps /\ (uploadsDone evs = [] -> reps = [])).
Proof.
  revert s. induction refs as [|m refs IH]; intro s; simpl.
  - apply wp_ret. split; [reflexivity|]. now exists [].
  - apply wp_bind. eapply wp_mono; [apply resolveAndUploadImage_url|].
    intros r s1 ev1 (Hs1 & url & -> & Hurl).
    apply wp_bind. eapply wp_mono; [apply IH|].
    intros r2 s2 ev2 (Hs2 & reps & -> & Hreps). apply wp_ret.
    split; [congruence|]. eexists. split; [reflexivity|].
    rewrite app_nil_r, uploadsDone_app. intro Hnone.
    apply app_eq_nil in Hnone. destruct Hnone as [H1 H2].
    destruct url as [u|]; [rewrite H1 in Hurl; discriminate|].
    simpl. now apply Hreps.
Qed.
End Images.

(** X5: [processMarkdown] always resolves and leaves the plugin object as it
    is, whatever the vault and the upload do; and unless an upload succeeded,
    its result is the one of the text passes alone, as if there were no
    image pass: a reference that cannot be resolved, read or uploaded is
    left to the later passes, which treat it as any other text (the
    wiki-link pass turns an unresolved [![[missing.png]]] into
    [!missing.png]). *)
Theorem image_pass_acts_only_through_uploads {W} (host : Host W) (content : jsstring)
  (sourceFile : TFile) (apiKey : jsstring) (shouldStripTags : bool) (s : State W) :
  (exists md, outcome (processMarkdown host content sourceFile apiKey shouldStripTags s)
              = Ok md)
  /\ this (final (processMarkdown host content sourceFile apiKey shouldStripTags s))
     = this s
  /\ (uploadsDone (events (processMarkdown host content sourceFile apiKey
                             shouldStripTags s)) = [] ->
      outcome (processMarkdown host content sourceFile apiKey shouldStripTags s)
      = Ok (textPasses shouldStripTags content)).
Proof.
  assert (H : wp (processMarkdown host content sourceFile apiKey shouldStripTags) s
                (fun r s' evs =>
                   (exists md, r = Ok md) /\ this s' = this s
                   /\ (uploadsDone evs = [] ->
                       r = Ok (textPasses shouldStripTags content)))).
  { unfold processMarkdown, processImages. apply wp_bind, wp_bind.
    eapply wp_mono; [apply uploadAll_none|].
    intros r s1 ev1 (Hs1 & wiki & -> & Hwiki).
    apply wp_bind. eapply wp_mono; [apply uploadAll_none|].
    intros r2 s2 ev2 (Hs2 & std & -> & Hstd).
    apply wp_ret, wp_ret. split; [eauto|]. split; [congruence|].
    rewrite !app_nil_r, uploadsDone_app. intro Hnone.
    apply app_eq_nil in Hnone. destruct Hnone as [H1 H2].
    rewrite (Hwiki H1), (Hstd H2). reflexivity. }
  apply wp_run in H. exact H.
Qed.

Section ObjOrder.
Variable V : Type.
Implicit Types (o : JsObj.t V) (k : jsstring) (v : V).

Lemma delete_filter o k :
  JsObj.delete o k = filter (fun kv => negb (eqs (fst kv) k)) o.
Proof.
  induction o as [|[k' v'] o IH]; simpl; [reflexivity|].
  destruct (eqs k' k); simpl; now rewrite IH.
Qed.

Lemma set_absent o k v : JsObj.get o k = None -> JsObj.set o k v = o ++ [(k, v)].
Proof.
  induction o as [|[k' v'] o IH]; simpl; [reflexivity|].
  destruct (eqs k' k); [discriminate|]. intro H. now rewrite IH.
Qed.

Lemma get_app_absent o o' k :
  JsObj.get o k = None -> JsObj.get (o ++ o') k = JsObj.get o' k.
Proof.
  induction o as [|[k' v'] o IH]; simpl; [reflexivity|].
  destruct (eqs k' k); [discriminate | exact IH].
Qed.

Lemma filter_filter (A : Type) (f g : A -> bool) (l : list A) :
  filter f (filter g l) = filter (fun x => (g x && f x)%bool) l.
Proof.
  induction l as [|x l IH]; simpl; [reflexivity|].
  destruct (g x); simpl; [destruct (f x)|]; now rewrite IH.
Qed.
End ObjOrder.

Lemma eqs_sym (a b : jsstring) : eqs a b = eqs b a.
Proof.
  destruct (eqs a b) eqn:E.
  - apply eqs_eq in E. subst. symmetry. apply eqs_refl.
  - symmetry. apply eqs_neq. intro H. subst. rewrite eqs_refl in E. discriminate.
Qed.

Lemma writer_shape (u expiresAt : jsstring) (ttlDays : option Z) (fm : Frontmatter) :
  frontmatterWriter u expiresAt ttlDays fm
  = foreign fm
    ++ [(str "jotbird_link", VString u);
        (str "jotbird_expires",
         VString (if falsyNumber ttlDays then str "never" else slice expiresAt 0 10))].
Proof.
  unfold frontmatterWriter. cbv zeta.
  set (v := VString (if falsyNumber ttlDays then str "never" else slice expiresAt 0 10)).
  set (base := JsObj.delete (JsObj.delete fm (str "jotbird_link")) (str "jotbird_expires")).
  assert (Hl : JsObj.get base (str "jotbird_link") = None).
  { unfold base. rewrite get_delete_other by discriminate. apply get_delete_same. }
  assert (He : JsObj.get base (str "jotbird_expires") = None).
  { unfold base. apply get_delete_same. }
  rewrite (@set_absent _ _ _ (VString u) Hl).
  rewrite set_absent.
  2:{ rewrite get_app_absent by exact He. reflexivity. }
  rewrite <- app_assoc. simpl app.
  rewrite !delete_filter. rewrite !filter_app. simpl.
  f_equal. unfold base. rewrite !delete_filter, !filter_filter.
  unfold foreign. apply filter_ext. intros [k x]. simpl.
  unfold isOwnKey, ownKeys. cbn [existsb]. now rewrite orb_false_r, !negb_orb.
Qed.

Lemma cleaner_shape (fm : Frontmatter) : frontmatterCleaner fm = foreign fm.
Proof.
  unfold frontmatterCleaner. rewrite !delete_filter, !filter_filter.
  unfold foreign. apply filter_ext. intros [k x]. simpl.
  unfold isOwnKey, ownKeys. cbn [existsb]. now rewrite orb_false_r, !negb_orb.
Qed.

Lemma get_foreign (fm : Frontmatter) (k : jsstring) :
  JsObj.get (foreign fm) k = if isOwnKey k then None else JsObj.get fm k.
Proof.
  unfold foreign. induction fm as [|[k' v'] fm IH]; cbn [filter fst JsObj.get].
  - now destruct (isOwnKey k).
  - destruct (eqs k' k) eqn:E.
    + apply eqs_eq in E. subst k'. destruct (isOwnKey k) eqn:Eo; cbn [negb JsObj.get].
      * exact IH.
      * now rewrite eqs_refl.
    + destruct (isOwnKey k'); cbn [negb JsObj.get]; [exact IH|]. rewrite E. exact IH.
Qed.

Lemma foreign_idempotent (fm : Frontmatter) : foreign (foreign fm) = foreign fm.
Proof.
  unfold foreign. rewrite filter_filter. apply filter_ext.
  intro kv. now rewrite andb_diag.
Qed.

(** X6: whatever a header held, after the publish callback it holds the
    entries that are not the plugin's, in their order and unchanged, and then
    the link and the expiration, in this order; the legacy properties are
    gone. *)
Theorem header_write_order (u expiresAt : jsstring) (ttlDays : option Z)
  (fm : Frontmatter) :
  JsObj.keys (frontmatterWriter u expiresAt ttlDays fm)
  = filter (fun k => negb (isOwnKey k)) (JsObj.keys fm)
    ++ [str "jotbird_link"; str "jotbird_expires"]
  /\ forall k, isOwnKey k = false ->
       JsObj.get (frontmatterWriter u expiresAt ttlDays fm) k = JsObj.get fm k.
Proof.
  rewrite writer_shape. split.
  - unfold JsObj.keys. rewrite map_app. simpl. f_equal.
    unfold foreign. induction fm as [|[k v] fm IH]; simpl; [reflexivity|].
    destruct (isOwnKey k); simpl; now rewrite IH.
  - intros k Hk. pose proof (get_foreign fm k) as Hf. rewrite Hk in Hf.
    rewrite <- Hf. clear Hf.
    assert (Hlast : JsObj.get
                      [(str "jotbird_link", VString u);
                       (str "jotbird_expires",
                        VString (if falsyNumber ttlDays then str "never"
                                 else slice expiresAt 0 10))] k = None).
    { unfold isOwnKey, ownKeys in Hk. cbn [existsb] in Hk.
      apply orb_false_iff in Hk. destruct Hk as [H1 Hk].
      apply orb_false_iff in Hk. destruct Hk as [H2 _].
      cbn [JsObj.get]. rewrite (eqs_sym _ k), H1, (eqs_sym _ k), H2. reflexivity. }
    induction (foreign fm) as [|[k' v'] o IH]; [exact Hlast|].
    cbn [app JsObj.get]. destruct (eqs k' k); [reflexivity | exact IH].
Qed.

(** X7: the callback of [clearFrontmatter] removes the plugin's properties
    and nothing else, and it undoes what the publish callback added. *)
Theorem header_clear_undoes_write (u expiresAt : jsstring) (ttlDays : option Z)
  (fm : Frontmatter) :
  frontmatterCleaner (frontmatterWriter u expiresAt ttlDays fm) = frontmatterCleaner fm
  /\ JsObj.keys (frontmatterCleaner fm)
     = filter (fun k => negb (isOwnKey k)) (JsObj.keys fm)
  /\ forall k, JsObj.get (frontmatterCleaner fm) k
               = if isOwnKey k then None else JsObj.get fm k.
Proof.
  rewrite !cleaner_shape, writer_shape. split; [|split].
  - unfold foreign at 1. rewrite filter_app. cbn [filter fst].
    replace (isOwnKey (str "jotbird_link")) with true by reflexivity.
    replace (isOwnKey (str "jotbird_expires")) with true by reflexivity.
    cbn [negb]. rewrite app_nil_r. apply foreign_idempotent.
  - unfold foreign, JsObj.keys. induction fm as [|[k v] fm IH]; simpl; [reflexivity|].
    destruct (isOwnKey k); simpl; now rewrite IH.
  - apply get_foreign.
Qed.

Section Unpublish.
Context {W : Type} (host : Host W) (fac : Facilities W).
Implicit Types (s : State W).

Lemma clearFrontmatter_spec file s :
  wp (clearFrontmatter host file) s (fun r s' evs =>
    r = Ok tt /\ this s' = this s /\
    if storeFrontmatter (settings (this s))
    then exists out, evs = [EProcessFrontMatter file frontmatterCleaner out]
    else evs = []).
Proof.
  unfold clearFrontmatter. apply wp_bind, wp_getThis.
  destruct (storeFrontmatter (settings (this s))); simpl.
  2:{ apply wp_ret. auto. }
  apply wp_tryCatch, wp_call. intros [[]|e] w' _.
  - simpl. eauto.
  - apply wp_ret. simpl. eauto.
Qed.

Lemma remoteDelete_spec published s :
  wp (remoteDelete fac published) s (fun r s' evs => this s' = this s /\ evs = []).
Proof.
  unfold remoteDelete. apply wp_bind, wp_getThis.
  destruct (truthy (apiKey (settings (this s)))); apply wp_query; intros r w' _; auto.
Qed.
End Unpublish.

(** X8: [unpublishNote] removes a record only after the service has deleted
    the document. Without a record it only tells so; when the user does not
    confirm, nothing happens; when the remote delete fails, the failure is
    shown and the plugin object stays as it was; when it succeeds, the record
    is removed, the data is saved and, the save having succeeded, the
    plugin's properties are cleared from the header (if mirroring is on)
    and the user is told. *)
Theorem unpublish_follows_remote_delete {W} (host : Host W) (fac : Facilities W)
  (file : TFile) (s : State W) :
  (JsObj.get (notesOf s) (path file) = None ->
   unpublishNote host fac file s
   = (Ok tt, s, [ENotice (str "JotBird: This note is not published.")]))
  /\ (forall n w1,
        JsObj.get (notesOf s) (path file) = Some n ->
        confirmModal fac (unpublishQuestion file n) (world s) = (false, w1) ->
        unpublishNote host fac file s = (Ok tt, mkState (this s) w1, []))
  /\ (forall n w1 e s2,
        JsObj.get (notesOf s) (path file) = Some n ->
        confirmModal fac (unpublishQuestion file n) (world s) = (true, w1) ->
        remoteDelete fac n (mkState (this s) w1) = (Throw e, s2, []) ->
        unpublishNote host fac file s
        = (Ok tt, s2, [ENotice (str "JotBird: " ++ errorText e)])
        /\ this s2 = this s)
  /\ (forall n w1 r s2,
        JsObj.get (notesOf s) (path file) = Some n ->
        confirmModal fac (unpublishQuestion file n) (world s) = (true, w1) ->
        remoteDelete fac n (mkState (this s) w1) = (Ok r, s2, []) ->
        outcome (unpublishNote host fac file s) = Ok tt
        /\ this (final (unpublishNote host fac file s)) = deleteNote (path file) (this s)
        /\ exists data out rest,
             events (unpublishNote host fac file s) = ESaveData data out :: rest
             /\ d_publishedNotes data = JsObj.delete (notesOf s) (path file)
             /\ match out with
                | Throw e => rest = [ENotice (str "JotBird: " ++ errorText e)]
                | Ok _ =>
                    if storeFrontmatter (settings (this s))
                    then exists o,
                      rest = [EProcessFrontMatter file frontmatterCleaner o;
                              ENotice (str "JotBird: Note unpublished.")]
                    else rest = [ENotice (str "JotBird: Note unpublished.")]
                end).
Proof.
  unfold notesOf. split; [|split; [|split]].
  - intro Hget. unfold unpublishNote, bind, getThis. simpl. now rewrite Hget.
  - intros n w1 Hget Hno. unfold unpublishNote, bind, getThis, query. simpl.
    rewrite Hget. simpl. now rewrite Hno.
  - intros n w1 e s2 Hget Hyes Hdel.
    assert (Hs2 : this s2 = this s).
    { pose proof (remoteDelete_spec fac n (mkState (this s) w1)) as H.
      unfold wp in H. rewrite Hdel in H. apply H. }
    split; [|exact Hs2].
    unfold unpublishNote, bind at 1, getThis, query. simpl.
    rewrite Hget. unfold bind at 1. simpl. rewrite Hyes. simpl.
    unfold unpublishConfirmed, tryCatch, bind at 1. rewrite Hdel.
    reflexivity.
  - intros n w1 r s2 Hget Hyes Hdel.
    assert (Hs2 : this s2 = this s).
    { pose proof (remoteDelete_spec fac n (mkState (this s) w1)) as H.
      unfold wp in H. rewrite Hdel in H. apply H. }
    assert (H : wp (unpublishNote host fac file) s (fun r0 s' evs =>
      r0 = Ok tt /\ this s' = deleteNote (path file) (this s)
      /\ exists data out rest,
           evs = ESaveData data out :: rest
           /\ d_publishedNotes data = JsObj.delete (publishedNotes (this s)) (path file)
           /\ match out with
              | Throw e => rest = [ENotice (str "JotBird: " ++ errorText e)]
              | Ok _ =>
                  if storeFrontmatter (settings (this s))
                  then exists o,
                    rest = [EProcessFrontMatter file frontmatterCleaner o;
                            ENotice (str "JotBird: Note unpublished.")]
                  else rest = [ENotice (str "JotBird: Note unpublished.")]
              end)).
    { unfold unpublishNote. apply wp_bind, wp_getThis. rewrite Hget.
      apply wp_bind, wp_query. intros r0 w' Hq. rewrite Hyes in Hq.
      inversion Hq; subst r0 w'. clear Hq.
      unfold unpublishConfirmed. apply wp_tryCatch, wp_bind.
      unfold wp at 1. rewrite Hdel.
      apply wp_bind, wp_modifyThis. apply wp_bind.
      unfold saveSettings. apply wp_bind, wp_getThis. apply wp_call.
      intros [[]|e] w' _.
      - apply wp_bind. eapply wp_mono; [apply clearFrontmatter_spec|].
        intros r1 s3 ev3 (-> & Hs3 & Hev3). apply wp_emit.
        simpl in *. rewrite Hs2 in *. split; [reflexivity|]. split; [exact Hs3|].
        eexists _, (Ok tt), _. split; [reflexivity|]. split; [reflexivity|].
        destruct (storeFrontmatter (settings (this s))).
        + destruct Hev3 as [o ->]. now exists o.
        + now subst.
      - apply wp_emit. simpl. rewrite Hs2. split; [reflexivity|]. split; [reflexivity|].
        eexists _, (Throw e), _. split; [reflexivity|]. split; reflexivity. }
    apply wp_run in H. exact H.
Qed.

Lemma sentTexts_app (a b : list Event) : sentTexts (a ++ b) = sentTexts a ++ sentTexts b.
Proof.
  induction a as [|e a IH]; simpl; [reflexivity|]. destruct e; simpl; now rewrite ?IH.
Qed.

Lemma sentIdentities_app (a b : list Event) :
  sentIdentities (a ++ b) = sentIdentities a ++ sentIdentities b.
Proof.
  induction a as [|e a IH]; simpl; [reflexivity|]. destruct e; simpl; now rewrite ?IH.
Qed.

Lemma plain_unsent (evs : list Event) :
  Forall plain evs -> sentTexts evs = [] /\ sentIdentities evs = [].
Proof.
  induction 1 as [|e evs He _ IH]; simpl; [auto|].
  destruct e; simpl in He; try contradiction; exact IH.
Qed.

Lemma startsWithH1_prefixed (t : jsstring) :
  test false startsWithH1Re (str "# " ++ t) = true.
Proof. reflexivity. Qed.

Lemma test_startsWithH1 (md : jsstring) :
  test false startsWithH1Re md = startsWith md (str "# ").
Proof.
  unfold test.
  change startsWithH1Re with (Seq Bol (lits (str "# "))).
  rewrite exec_bol. unfold matchAt.
  change (run false (Seq Bol ?r) ?x ?k) with (run false Bol x (fun y => run false r y k)).
  cbn [run before]. rewrite run_lits. simpl after.
  destruct (startsWith md (str "# ")); reflexivity.
Qed.

Section Sent.
Context {W : Type} (host : Host W).
Implicit Types (s : State W).

Lemma prepare_heading file s :
  wp (prepare host file) s (fun r s' evs =>
    this s' = this s /\ Forall silent evs
    /\ match r with
       | Ok (title, markdown) =>
           startsWith markdown (str "# ") = true
           /\ forall content w', vault_read host file (world s) = (Ok content, w') ->
                title = extractTitle content file
       | Throw _ =>
           forall content w', vault_read host file (world s) <> (Ok content, w')
       end).
Proof.
  unfold prepare. apply wp_bind, wp_getThis. apply wp_bind, wp_query.
  intros [content|e] w' Hread.
  2:{ simpl. repeat split; auto. intros content w'' Hread'.
      rewrite Hread in Hread'. discriminate. }
  apply wp_bind. eapply wp_mono; [apply processMarkdown_steady|].
  intros r s1 ev1 ([md ->] & Hs1 & Hev1). apply wp_ret.
  rewrite !app_nil_r. split; [exact Hs1|]. split; [exact Hev1|]. split.
  - rewrite test_startsWithH1. destruct (startsWith md (str "# ")) eqn:E; cbn [negb].
    + exact E.
    + apply startsWith_prefix. eexists. reflexivity.
  - intros content' w'' Hread'. rewrite Hread in Hread'. now inversion Hread'.
Qed.

Lemma remotePublish_sent hasApiKey markdown title slug_ token s :
  wp (remotePublish host hasApiKey markdown title slug_ token) s (fun r s' evs =>
    this s' = this s /\ sentTexts evs = [(markdown, title)]
    /\ sentIdentities evs
       = [(hasApiKey, if hasApiKey then apiKey (settings (this s))
                      else deviceFingerprint (this s))]).
Proof.
  unfold remotePublish. apply wp_bind, wp_getThis.
  destruct hasApiKey; apply wp_call; intros r w' _; simpl; repeat split.
Qed.

Lemma publishWithRetry_sent hasApiKey existing markdown title s :
  wp (publishWithRetry host hasApiKey existing markdown title) s (fun r s' evs =>
    this s' = this s
    /\ Forall (eq (markdown, title)) (sentTexts evs)
    /\ Forall (eq (hasApiKey, if hasApiKey then apiKey (settings (this s))
                              else deviceFingerprint (this s)))
              (sentIdentities evs)).
Proof.
  unfold publishWithRetry. apply wp_tryCatch, wp_bind.
  eapply wp_mono; [apply remotePublish_sent|].
  intros [res|e] s1 ev1 (Hs1 & Ht1 & Hi1).
  - apply wp_ret. rewrite app_nil_r, Ht1, Hi1. repeat split; auto.
  - assert (Hthrow : forall A (e0 : JsError),
              wp (throw (A:=A) e0) s1 (fun r2 s2 ev2 =>
                this s2 = this s
                /\ Forall (eq (markdown, title)) (sentTexts (ev1 ++ ev2))
                /\ Forall (eq (hasApiKey, if hasApiKey then apiKey (settings (this s))
                                          else deviceFingerprint (this s)))
                          (sentIdentities (ev1 ++ ev2)))).
    { intros A e0. apply wp_throw. rewrite app_nil_r, Ht1, Hi1. repeat split; auto. }
    destruct existing as [n|]; [|apply Hthrow].
    destruct (isNotFound e); [|apply Hthrow].
    apply wp_bind. eapply wp_mono; [apply remotePublish_sent|].
    intros r2 s2 ev2 (Hs2 & Ht2 & Hi2).
    assert (Hall : this s2 = this s
              /\ Forall (eq (markdown, title)) (sentTexts (ev1 ++ ev2))
              /\ Forall (eq (hasApiKey, if hasApiKey then apiKey (settings (this s))
                                        else deviceFingerprint (this s)))
                        (sentIdentities (ev1 ++ ev2))).
    { rewrite sentTexts_app, sentIdentities_app, Ht1, Ht2, Hi1, Hi2, Hs1.
      repeat split; [congruence | |]; repeat constructor. }
    destruct r2 as [res|e2]; [apply wp_ret; now rewrite app_nil_r | exact Hall].
Qed.

Lemma unsent_of_calls (evs : list Event) :
  publishCalls evs = [] -> sentTexts evs = [] /\ sentIdentities evs = [].
Proof.
  induction evs as [|e evs IH]; [auto|].
  destruct e; simpl; intro H; try discriminate; auto.
Qed.

Lemma publishFile_sent file s :
  wp (publishFile host file) s (fun r s' evs =>
    exists markdown title,
      startsWith markdown (str "# ") = true
      /\ (forall content w', vault_read host file (world s) = (Ok content, w') ->
            title = extractTitle content file)
      /\ Forall (eq (markdown, title)) (sentTexts evs)
      /\ Forall (eq (truthy (apiKey (settings (this s))),
                     if truthy (apiKey (settings (this s)))
                     then apiKey (settings (this s))
                     else deviceFingerprint (this s)))
                (sentIdentities evs)).
Proof.
  unfold publishFile. apply wp_bind, wp_getThis. apply wp_bind, wp_emit.
  apply wp_tryCatch. unfold publishBody. apply wp_bind.
  eapply wp_mono; [apply prepare_heading|].
  intros [[title markdown]|e] s1 prep (Hs1 & Hprep & Hhead);
    destruct (unsent_of_calls prep (proj1 (silent_quiet Hprep))) as [Hp1 Hp2].
  2:{ apply wp_emit. exists (str "# "), []. split; [reflexivity|]. split.
      - intros content w' Hread. now elim (Hhead content w').
      - simpl. rewrite !sentTexts_app, !sentIdentities_app, Hp1, Hp2. simpl. auto. }
  destruct Hhead as [Hhead Htitle].
  apply wp_bind. eapply wp_mono; [apply publishWithRetry_sent|].
  intros [[res retried]|e] s2 calls (Hs2 & Ht & Hi); rewrite Hs1 in Hi.
  2:{ apply wp_emit. exists markdown, title. split; [exact Hhead|].
      split; [exact Htitle|]. simpl.
      rewrite !sentTexts_app, !sentIdentities_app, Hp1, Hp2. simpl.
      rewrite !app_nil_r. auto. }
  eapply wp_mono; [apply recordPublished_spec|].
  intros r3 s3 rec Hrec.
  destruct (unsent_of_calls rec (proj1 (recorded_calls Hrec))) as [Hu1 Hu2].
  destruct r3 as [[]|e]; [|apply wp_emit];
    exists markdown, title; (split; [exact Hhead|]); (split; [exact Htitle|]); simpl;
    rewrite !sentTexts_app, !sentIdentities_app, Hp1, Hp2, Hu1, Hu2; simpl;
    rewrite ?app_nil_r; auto.
Qed.
End Sent.

(** X9: every publish call of a run of [publishFile] carries one and the same
    text and title: a text that begins with a level-1 heading, and the title
    [extractTitle] gives for the content read from the vault; a retry sends
    them again unchanged. Every call carries the credential when one is
    configured and the device fingerprint otherwise. *)
Theorem published_text_has_heading {W} (host : Host W) (file : TFile) (s : State W) :
  exists markdown title,
    startsWith markdown (str "# ") = true
    /\ (forall content w', vault_read host file (world s) = (Ok content, w') ->
          title = extractTitle content file)
    /\ Forall (eq (markdown, title)) (sentTexts (events (publishFile host file s)))
    /\ Forall (eq (truthy (apiKey (settings (this s))),
                   if truthy (apiKey (settings (this s)))
                   then apiKey (settings (this s))
                   else deviceFingerprint (this s)))
              (sentIdentities (events (publishFile host file s))).
Proof.
  pose proof (publishFile_sent host file s) as H. apply wp_run in H. exact H.
Qed.

Lemma PublishRun_frame file p p' evs :
  PublishRun file p p' evs ->
  settings p' = settings p
  /\ forall q, q <> path file ->
       JsObj.get (publishedNotes p') q = JsObj.get (publishedNotes p) q.
Proof.
  intros [start prep e Hprep | start prep calls e Hprep Hcalls Hrun
          | start prep calls res retried now p'' rec extra Hprep Hcalls Hrun Hrec Hextra];
    [auto | auto |].
  destruct Hrec as (Hn & Hs & _). split; [exact Hs|].
  intros q Hq. rewrite Hn. apply get_set_other. congruence.
Qed.

(** X10: [publishFile] always resolves, whatever fails on the way; it leaves
    the settings as they were, and the record of every other path. *)
Theorem publish_touches_one_record {W} (host : Host W) (file : TFile) (s : State W) :
  outcome (publishFile host file s) = Ok tt
  /\ settings (this (final (publishFile host file s))) = settings (this s)
  /\ forall p, p <> path file ->
       JsObj.get (notesOf (final (publishFile host file s))) p = JsObj.get (notesOf s) p.
Proof.
  pose proof (publishFile_run host file s) as H. apply wp_run in H.
  destruct H as [Hr H]. split; [exact Hr|]. exact (PublishRun_frame H).
Qed.

Lemma saves_app (a b : list Event) : saves (a ++ b) = saves a ++ saves b.
Proof.
  induction a as [|e a IH]; simpl; [reflexivity|]. destruct e; simpl; now rewrite ?IH.
Qed.

Section Sweep.
Context {W : Type} (host : Host W).
Implicit Types (s : State W).

Lemma refreshLoop_targets excludePath entries s :
  stableVault host ->
  storeFrontmatter (settings (this s)) = true ->
  wp (refreshLoop host excludePath entries) s (fun r s' evs =>
    r = Ok (length (sweepTargets host (world s) excludePath entries))
    /\ this s' = this s
    /\ (forall p, vault_getAbstractFileByPath host p (world s')
                  = vault_getAbstractFileByPath host p (world s))
    /\ headerWrites evs
       = map (fun t => (fst t, frontmatterWriter (snd t) [] (Some 0%Z)))
             (sweepTargets host (world s) excludePath entries)
    /\ notices evs = []).
Proof.
  intros Hstable. revert s.
  induction entries as [|[filePath note] rest IH]; intros s Hstore; simpl.
  - apply wp_ret. auto.
  - destruct (eqs filePath excludePath); [now apply IH|].
    apply wp_bind, wp_getWorld.
    destruct (vault_getAbstractFileByPath host filePath (world s)) as [[file|]|];
      try now apply IH.
    apply wp_bind, wp_tryCatch, wp_bind.
    unfold writeFrontmatter. apply wp_bind, wp_getThis. rewrite Hstore. simpl negb.
    cbv iota. apply wp_tryCatch.
    apply wp_call. intros out w' Hcall.
    assert (Hw' : forall p, vault_getAbstractFileByPath host p w'
                            = vault_getAbstractFileByPath host p (world s)).
    { intro p. rewrite <- (Hstable file (frontmatterWriter (url note) [] (Some 0%Z))
                             (world s) p). now rewrite Hcall. }
    assert (Hrest : forall s1 : State W, this s1 = this s -> world s1 = w' ->
              forall ev0, headerWrites ev0
                          = [(file, frontmatterWriter (url note) [] (Some 0%Z))] ->
                          notices ev0 = [] ->
              wp (more <- refreshLoop host excludePath rest ;; ret (1 + more)) s1
                 (fun r s' evs =>
                    r = Ok (S (length (sweepTargets host (world s) excludePath rest)))
                    /\ this s' = this s
                    /\ (forall p, vault_getAbstractFileByPath host p (world s')
                                  = vault_getAbstractFileByPath host p (world s))
                    /\ headerWrites (ev0 ++ evs)
                       = (file, frontmatterWriter (url note) [] (Some 0%Z))
                         :: map (fun t => (fst t, frontmatterWriter (snd t) [] (Some 0%Z)))
                                (sweepTargets host (world s) excludePath rest)
                    /\ notices (ev0 ++ evs) = [])).
    { intros s1 Hs1 Hw1 ev0 Hev0 Hn0. apply wp_bind.
      eapply wp_mono; [apply IH; now rewrite Hs1|].
      intros r2 s2 ev2 (-> & Hs2 & Hw2 & Hh2 & Hn2). apply wp_ret.
      assert (Hsame : sweepTargets host (world s1) excludePath rest
                      = sweepTargets host (world s) excludePath rest).
      { clear - Hw1 Hw'. rewrite Hw1. induction rest as [|[fp nt] rest IH]; simpl;
          [reflexivity|]. rewrite Hw', IH. reflexivity. }
      rewrite Hsame in *. rewrite app_nil_r, headerWrites_app, notices_app, Hev0, Hn0,
        Hh2, Hn2. simpl.
      split; [reflexivity|]. split; [congruence|]. split; [|auto].
      intro p. rewrite Hw2, Hw1. apply Hw'. }
    destruct out as [[]|e].
    + apply wp_ret.
      eapply wp_mono;
        [apply (Hrest (mkState (this s) w') eq_refl eq_refl
                  [EProcessFrontMatter file (frontmatterWriter (url note) [] (Some 0%Z))
                                       (Ok tt)]); reflexivity|].
      intros r s' evs H. exact H.
    + apply wp_ret, wp_ret.
      eapply wp_mono;
        [apply (Hrest (mkState (this s) w') eq_refl eq_refl
                  [EProcessFrontMatter file (frontmatterWriter (url note) [] (Some 0%Z))
                                       (Throw e)]); reflexivity|].
      intros r s' evs H. exact H.
Qed.
End Sweep.

(** X11: with mirroring on, a sweep hands to the file manager, in the order of
    the mapping, exactly the recorded documents other than the excluded one
    that exist in the vault, each once and each with the url of its own record
    and the permanent expiration; the notice that follows counts these
    documents, whether or not the writes succeeded, and there is no notice
    when there is none. *)
Theorem sweep_covers_every_other_document {W} (host : Host W) (excludePath : jsstring)
  (s : State W) :
  stableVault host ->
  storeFrontmatter (settings (this s)) = true ->
  headerWrites (events (refreshProExpiration host excludePath s))
  = map (fun t => (fst t, frontmatterWriter (snd t) [] (Some 0%Z)))
        (sweepTargets host (world s) excludePath (JsObj.entries (notesOf s)))
  /\ notices (events (refreshProExpiration host excludePath s))
     = match length (sweepTargets host (world s) excludePath (JsObj.entries (notesOf s)))
       with
       | 0 => []
       | S n => [sweepNotice (S n)]
       end.
Proof.
  intros Hstable Hstore.
  assert (H : wp (refreshProExpiration host excludePath) s (fun r s' evs =>
    headerWrites evs
    = map (fun t => (fst t, frontmatterWriter (snd t) [] (Some 0%Z)))
          (sweepTargets host (world s) excludePath (JsObj.entries (notesOf s)))
    /\ notices evs
       = match length (sweepTargets host (world s) excludePath
                         (JsObj.entries (notesOf s))) with
         | 0 => []
         | S n => [sweepNotice (S n)]
         end)).
  { unfold refreshProExpiration. apply wp_bind, wp_emit. apply wp_bind, wp_getThis.
    rewrite Hstore. simpl negb. cbv iota. apply wp_bind.
    eapply wp_mono; [apply refreshLoop_targets; assumption|].
    intros r s1 ev1 (-> & Hs1 & _ & Hh & Hn). simpl world in *.
    fold (notesOf s) in *.
    destruct (length (sweepTargets host (world s) excludePath
                        (JsObj.entries (notesOf s)))) as [|n].
    - apply wp_ret. simpl. rewrite app_nil_r. auto.
    - apply wp_emit. simpl. rewrite headerWrites_app, notices_app, Hh, Hn. simpl.
      rewrite app_nil_r. auto. }
  apply wp_run in H. exact H.
Qed.

Section ClaimCount.
Context {W : Type} (host : Host W).
Implicit Types (s : State W).

Lemma claimLoop_count toClaim s :
  wp (claimLoop host toClaim) s (fun r s' evs =>
    r = Ok (length (filter succeeded (claimCalls evs)))
    /\ saves evs = [] /\ notices evs = []).
Proof.
  revert s. induction toClaim as [|[filePath note] rest IH]; intro s; simpl.
  - apply wp_ret. auto.
  - apply wp_bind, wp_tryCatch, wp_bind, wp_getThis. apply wp_bind, wp_call.
    intros [result|e] w' _.
    + apply wp_bind, wp_modifyThis. apply wp_bind, wp_getWorld. apply wp_bind.
      match goal with
      | |- wp ?m ?st _ =>
          assert (Hhdr : wp m st (fun r s' evs =>
                    r = Ok tt /\ claimCalls evs = [] /\ saves evs = []
                    /\ notices evs = []))
      end.
      { simpl world.
        destruct (vault_getAbstractFileByPath host filePath w') as [[file|]|];
          try (apply wp_ret; auto).
        eapply wp_mono; [apply writeFrontmatter_spec|].
        intros r1 s1 ev1 (-> & _ & Hev1).
        match type of Hev1 with
        | if ?b then _ else _ => destruct b
        end; [destruct Hev1 as [o ->] | subst]; auto. }
      eapply wp_mono; [apply Hhdr|]. clear Hhdr.
      intros r1 s1 ev1 (-> & Hc1 & Hs1 & Hn1). apply wp_ret.
      apply wp_bind. eapply wp_mono; [apply IH|].
      intros r2 s2 ev2 (-> & Hs2 & Hn2). apply wp_ret.
      rewrite !app_nil_r. simpl.
      rewrite !claimCalls_app, !saves_app, !notices_app, Hc1, Hs1, Hn1, Hs2, Hn2.
      simpl. auto.
    + apply wp_ret. apply wp_bind. eapply wp_mono; [apply IH|].
      intros r2 s2 ev2 (-> & Hs2 & Hn2). apply wp_ret.
      rewrite !app_nil_r. simpl. auto.
Qed.
End ClaimCount.

(** X12: the claim sweep saves the plugin data exactly once when at least one
    claim succeeded, and not at all otherwise; the data saved holds the
    records as the sweep leaves them; the notice that follows a successful
    save reports the number of claims that succeeded. A sweep in which every
    claim fails, or that has nothing to claim, or no credential, saves
    nothing and says nothing. *)
Theorem claim_sweep_saves_once {W} (host : Host W) (s : State W) :
  match length (filter succeeded
                  (claimCalls (events (claimAnonymousDocuments host s)))) with
  | 0 => saves (events (claimAnonymousDocuments host s)) = []
         /\ notices (events (claimAnonymousDocuments host s)) = []
         /\ outcome (claimAnonymousDocuments host s) = Ok tt
  | S n =>
      exists data out,
        saves (events (claimAnonymousDocuments host s)) = [(data, out)]
        /\ d_publishedNotes data = notesOf (final (claimAnonymousDocuments host s))
        /\ match out with
           | Ok _ => notices (events (claimAnonymousDocuments host s))
                     = [claimNotice (S n)]
                     /\ outcome (claimAnonymousDocuments host s) = Ok tt
           | Throw e => notices (events (claimAnonymousDocuments host s)) = []
                        /\ outcome (claimAnonymousDocuments host s) = Throw e
           end
  end.
Proof.
  assert (H : wp (claimAnonymousDocuments host) s (fun r s' evs =>
    match length (filter succeeded (claimCalls evs)) with
    | 0 => saves evs = [] /\ notices evs = [] /\ r = Ok tt
    | S n =>
        exists data out,
          saves evs = [(data, out)]
          /\ d_publishedNotes data = notesOf s'
          /\ match out with
             | Ok _ => notices evs = [claimNotice (S n)] /\ r = Ok tt
             | Throw e => notices evs = [] /\ r = Throw e
             end
    end)).
  { unfold claimAnonymousDocuments. apply wp_bind, wp_getThis.
    destruct (truthy (apiKey (settings (this s)))); simpl negb; cbv iota.
    2:{ apply wp_ret. simpl. auto. }
    destruct (Nat.eqb (length (toClaimOf (publishedNotes (this s)))) 0).
    { apply wp_ret. simpl. auto. }
    apply wp_bind. eapply wp_mono; [apply claimLoop_count|].
    intros r s1 ev1 (-> & Hs1 & Hn1).
    destruct (length (filter succeeded (claimCalls ev1))) as [|n] eqn:Ek.
    - apply wp_ret. simpl. rewrite !app_nil_r, Ek. auto.
    - simpl Nat.ltb. cbv iota. apply wp_bind.
      unfold saveSettings. apply wp_bind, wp_getThis. apply wp_call.
      intros [[]|e] w' _.
      + apply wp_emit. simpl app. rewrite !claimCalls_app. simpl claimCalls.
        rewrite !app_nil_r, Ek.
        eexists _, (Ok tt). rewrite !saves_app, !notices_app, Hs1, Hn1.
        split; [reflexivity|]. split; [reflexivity|]. split; reflexivity.
      + simpl app. rewrite !claimCalls_app. simpl claimCalls. rewrite !app_nil_r, Ek.
        eexists _, (Throw e). rewrite !saves_app, !notices_app, Hs1, Hn1.
        split; [reflexivity|]. split; [reflexivity|]. split; reflexivity. }
  apply wp_run in H. exact H.
Qed.

(** X13: what [saveSettings] writes is what [loadSettings] restores: the
    settings, the records, the device fingerprint and the one-shot flag come
    back as they were saved, no fingerprint is drawn, and the tier state,
    which is not persisted, is left as it is. With nothing stored the
    settings are the defaults, there are no records, the flag is unset and
    a fresh fingerprint is drawn; a stored fingerprint that is empty is
    replaced by a fresh one as well. *)
Theorem saved_data_is_restored {W} (host : Host W) (fac : Facilities W)
  (s s0 : State W) :
  (forall data r w1,
     events (saveSettings host s) = [ESaveData data r] ->
     loadData fac (world s0) = (Ok (Some (storedOf data)), w1) ->
     truthy (deviceFingerprint (this s)) = true ->
     loadSettings fac s0
     = (Ok tt,
        mkState (mkPlugin (settings (this s)) (publishedNotes (this s))
                          (deviceFingerprint (this s)) (isPro (this s0))
                          (proRefreshDone (this s)))
                w1,
        []))
  /\ (forall stored w1 id w2,
        loadData fac (world s0) = (Ok stored, w1) ->
        match stored with
        | None => True
        | Some d => sd_settings d = None /\ sd_publishedNotes d = None
                    /\ truthyOpt (sd_deviceFingerprint d) = false
                    /\ sd_proRefreshDone d = None
        end ->
        randomUUID fac w1 = (id, w2) ->
        loadSettings fac s0
        = (Ok tt, mkState (mkPlugin DEFAULT_SETTINGS [] id (isPro (this s0)) false) w2, []))
  /\ (forall e w1,
        loadData fac (world s0) = (Throw e, w1) ->
        loadSettings fac s0 = (Throw e, mkState (this s0) w1, [])).
Proof.
  split; [|split].
  - intros data r w1 Hsave Hload Hfp.
    assert (Hdata : data = mkData (settings (this s)) (publishedNotes (this s))
                                  (deviceFingerprint (this s)) (proRefreshDone (this s))).
    { unfold saveSettings, bind, getThis, call, events in Hsave. simpl in Hsave.
      destruct (saveData host _ (world s)) as [r' w']. simpl in Hsave.
      now inversion Hsave. }
    subst data. unfold loadSettings, bind, query. rewrite Hload. simpl.
    rewrite Hfp. simpl. destruct (settings (this s)). reflexivity.
  - intros stored w1 id w2 Hload Hempty Hid.
    unfold loadSettings, bind, query. rewrite Hload. simpl.
    destruct stored as [[st notes fp flag]|]; simpl in *.
    + destruct Hempty as (-> & -> & Hfp & ->). rewrite Hfp. simpl.
      rewrite Hid. reflexivity.
    + rewrite Hid. reflexivity.
  - intros e w1 Hload. unfold loadSettings, bind, query. rewrite Hload. reflexivity.
Qed.

Section Disconnect.
Context {W : Type} (host : Host W).
Implicit Types (s : State W).

Lemma disconnect_spec s :
  wp (disconnect host) s (fun r s' evs =>
    this s' = setProRefreshDone false (setIsPro false (setApiKey [] (this s)))
    /\ exists out, evs = [ESaveData (mkData (settings (this s')) (publishedNotes (this s'))
                                            (deviceFingerprint (this s'))
                                            (proRefreshDone (this s'))) out]).
Proof.
  unfold disconnect. apply wp_bind, wp_modifyThis. apply wp_bind, wp_modifyThis.
  apply wp_bind, wp_modifyThis. unfold saveSettings. apply wp_bind, wp_getThis.
  apply wp_call. intros r w' _. simpl. eauto.
Qed.
End Disconnect.

(** X14: after Disconnect, whether or not the save succeeded, the plugin
    holds no credential, the tier state and the one-shot flag are reset, and
    the records and the device fingerprint are kept; the data handed to
    storage is this state. A publish that follows makes only anonymous
    calls, under the device fingerprint; a status check and a claim sweep
    make no call at all. *)
Theorem disconnect_drops_the_credential {W} (host : Host W) (file : TFile)
  (s : State W) :
  let s1 := final (disconnect host s) in
  this s1 = mkPlugin (mkSettings [] (stripTags (settings (this s)))
                                 (autoCopyLink (settings (this s)))
                                 (storeFrontmatter (settings (this s))))
                     (publishedNotes (this s)) (deviceFingerprint (this s)) false false
  /\ (exists out,
        events (disconnect host s)
        = [ESaveData (mkData (settings (this s1)) (publishedNotes (this s1))
                             (deviceFingerprint (this s1)) false) out])
  /\ Forall (eq (false, deviceFingerprint (this s)))
            (sentIdentities (events (publishFile host file s1)))
  /\ checkProStatus host s1 = (Ok tt, s1, [])
  /\ claimAnonymousDocuments host s1 = (Ok tt, s1, []).
Proof.
  intro s1. pose proof (disconnect_spec host s) as H. apply wp_run in H.
  fold s1 in H. destruct H as [Hs1 [out Hev]].
  assert (Hthis : this s1
                  = mkPlugin (mkSettings [] (stripTags (settings (this s)))
                                         (autoCopyLink (settings (this s)))
                                         (storeFrontmatter (settings (this s))))
                             (publishedNotes (this s)) (deviceFingerprint (this s))
                             false false) by exact Hs1.
  split; [exact Hthis|]. split; [|split; [|split]].
  - exists out. rewrite Hev. rewrite Hthis. reflexivity.
  - pose proof (publishFile_sent host file s1) as H. apply wp_run in H.
    destruct H as (md & title & _ & _ & _ & H). rewrite Hthis in H. exact H.
  - unfold checkProStatus, bind, getThis. simpl. rewrite Hthis. reflexivity.
  - unfold claimAnonymousDocuments, bind, getThis. simpl. rewrite Hthis. reflexivity.
Qed.

Section ApiFacts.
Context {W : Type} (requestUrl : Api.RequestUrlParam -> W -> Result Api.Response * W).

Lemma guarded_request (params : Api.RequestUrlParam) (context : jsstring) (w : W) :
  Api.andThen (Api.apiRequest requestUrl params)
    (fun sj =>
       Api.andThen (Api.settled (Api.assertOk (fst sj) (snd sj) context))
                   (fun _ => Api.settled (Ok (snd sj)))) w
  = match requestUrl (Api.mkParam (Api.rq_url params) (Api.rq_method params)
                                  (Api.rq_contentType params) (Api.rq_body params)
                                  (Api.rq_headers params) (Some false)) w with
    | (Throw e, w') => (Throw e, w')
    | (Ok r, w') =>
        (if Nat.leb 400 (Api.status r)
         then Throw (ErrorObj (context ++ str ": " ++ errorTextOf r))
         else Ok (replyBody r), w')
    end.
Proof.
  unfold Api.andThen, Api.apiRequest, Api.andThen, Api.settled, Api.assertOk.
  destruct (requestUrl _ w) as [[r|e] w']; [|reflexivity].
  cbn [fst snd]. unfold replyBody, errorTextOf.
  destruct (Api.json r) as [[| | | | |fields]|];
    destruct (Nat.leb 400 (Api.status r)); reflexivity.
Qed.

Lemma endpoint_request (f : Api.Io W Api.Json) (context : jsstring) :
  Endpoint requestUrl f context ->
  exists params, Api.rq_throw params = Some false /\
    forall w,
      f w = match requestUrl params w with
            | (Throw e, w') => (Throw e, w')
            | (Ok r, w') =>
                (if Nat.leb 400 (Api.status r)
                 then Throw (ErrorObj (context ++ str ": " ++ errorTextOf r))
                 else Ok (replyBody r), w')
            end.
Proof.
  intros [key markdown title slug_ | key | key slug_ | key slug_ token
          | fingerprint markdown title slug_ token | slug_ token fingerprint];
    eexists; (split; [|intro w; apply guarded_request]); reflexivity.
Qed.
End ApiFacts.

Lemma ciStartsWith_lacks (c : char) (p s : jsstring) :
  match s with [] => True | d :: _ => eqc (lowerAscii d) (lowerAscii c) = false end ->
  ciStartsWith s (c :: p) = false.
Proof. destruct s as [|d s]; simpl; [reflexivity|]. now intros ->. Qed.

Lemma ciIncludes_lacks (c : char) (p s : jsstring) :
  lacks c s -> ciIncludes s (c :: p) = false.
Proof.
  induction 1 as [|d s Hd _ IH].
  - reflexivity.
  - cbn [ciIncludes]. rewrite IH, orb_false_r. cbn [ciStartsWith]. now rewrite Hd.
Qed.

Lemma ciIncludes_skip (c : char) (p a s : jsstring) :
  lacks c a -> ciIncludes (a ++ s) (c :: p) = ciIncludes s (c :: p).
Proof.
  induction 1 as [|d a Hd _ IH]; [reflexivity|].
  cbn [app ciIncludes]. rewrite IH. cbn [ciStartsWith]. now rewrite Hd.
Qed.

Lemma lacks_digits (c : char) (n : nat) :
  (forall d, inRange 48 57 d = true -> eqc (lowerAscii d) (lowerAscii c) = false) ->
  lacks c (numToString n).
Proof.
  intro Hc. unfold numToString, lacks.
  assert (Hu : forall u, Forall (fun d => inRange 48 57 d = true)
                                (str (String.append (NilEmpty.string_of_uint u) ""))
                          ).
  { induction u; simpl; constructor; try reflexivity; exact IHu. }
  assert (Hu' : forall u, Forall (fun d => inRange 48 57 d = true)
                                 (str (NilEmpty.string_of_uint u))).
  { induction u; simpl; constructor; try reflexivity; assumption. }
  assert (Hz : Forall (fun d => inRange 48 57 d = true)
                      (str (NilZero.string_of_uint (Nat.to_uint n)))).
  { unfold NilZero.string_of_uint. destruct (Nat.to_uint n); try apply Hu'.
    repeat constructor. }
  eapply Forall_impl; [|exact Hz]. exact Hc.
Qed.

Lemma generic_message_not_found (n : nat) :
  isNotFound (ErrorObj (str "Publish: " ++ Api.requestFailed n)) = false.
Proof.
  unfold isNotFound, notFoundRe, cilit. rewrite test_cilits.
  apply ciIncludes_lacks. unfold lacks, Api.requestFailed.
  apply Forall_app. split; [repeat constructor|].
  apply Forall_app. split; [repeat constructor|].
  apply lacks_digits. intros d Hd. unfold inRange in Hd.
  apply andb_true_iff in Hd. destruct Hd as [H1 H2].
  apply N.leb_le in H1, H2. unfold lowerAscii, isUpper, inRange.
  destruct (N.leb_spec 65 d); [|simpl].
  - destruct (N.leb_spec d 90); simpl; apply N.eqb_neq; lia.
  - apply N.eqb_neq. simpl. lia.
Qed.

Lemma publish_context_skipped (msg : jsstring) :
  isNotFound (ErrorObj (str "Publish: " ++ msg)) = ciIncludes msg (str "not found").
Proof.
  unfold isNotFound, notFoundRe, cilit. rewrite test_cilits.
  apply ciIncludes_skip. repeat constructor.
Qed.

(** X15: every function of [api.ts] that returns the body makes one request,
    with [throw: false]. When the transport fails, the failure is passed on.
    A reply with a status below 400 resolves with the body (for a body that
    is not JSON, with an object that holds its text as [error]); a reply from
    400 on throws an [Error] whose message is the context of the function,
    a colon and the error text of the reply. *)
Theorem replies_from_400_are_thrown {W}
  (requestUrl : Api.RequestUrlParam -> W -> Result Api.Response * W)
  (f : Api.Io W Api.Json) (context : jsstring) :
  Endpoint requestUrl f context ->
  exists params, Api.rq_throw params = Some false /\
    forall w,
      f w = match requestUrl params w with
            | (Throw e, w') => (Throw e, w')
            | (Ok r, w') =>
                (if Nat.leb 400 (Api.status r)
                 then Throw (ErrorObj (context ++ str ": " ++ errorTextOf r))
                 else Ok (replyBody r), w')
            end.
Proof. apply endpoint_request. Qed.

(** X16: when one of the two publish functions throws, either the transport
    failed, or the service replied with a status from 400 on, and then the
    test that decides on the retry in [publishFile] holds exactly when the
    error text of the reply contains "not found" in any letter case; a reply
    without an error text (the generic message is used) never passes it,
    whatever its status. *)
Theorem retry_follows_the_error_text {W}
  (requestUrl : Api.RequestUrlParam -> W -> Result Api.Response * W)
  (f : Api.Io W Api.Json) (w w' : W) (e : JsError) :
  Endpoint requestUrl f (str "Publish") ->
  f w = (Throw e, w') ->
  (exists params, requestUrl params w = (Throw e, w'))
  \/ (exists params r,
        requestUrl params w = (Ok r, w')
        /\ 400 <= Api.status r
        /\ e = ErrorObj (str "Publish: " ++ errorTextOf r)
        /\ isNotFound e = ciIncludes (errorTextOf r) (str "not found")
        /\ (errorTextOf r = Api.requestFailed (Api.status r) -> isNotFound e = false)).
Proof.
  intros Hep Hf. destruct (endpoint_request Hep) as (params & _ & Hreq).
  rewrite Hreq in Hf. destruct (requestUrl params w) as [[r|e0] w0] eqn:E.
  - right. exists params, r.
    destruct (Nat.leb 400 (Api.status r)) eqn:El; [|discriminate].
    inversion Hf; subst. split; [exact E|]. split; [now apply Nat.leb_le|].
    split; [reflexivity|]. split; [apply publish_context_skipped|].
    intros ->. apply generic_message_not_found.
  - left. exists params. inversion Hf; subst. exact E.
Qed.

(** ** What a run of [publishFile] saves *)

Section Emits.
Context {W : Type} (P : Event -> Prop).

Lemma emits_ret A (a : A) : emits P (ret (W:=W) a).
Proof. intro s. apply wp_ret. constructor. Qed.

Lemma emits_throw A (e : JsError) : emits P (throw (W:=W) (A:=A) e).
Proof. intro s. apply wp_throw. constructor. Qed.

Lemma emits_emit (e : Event) : P e -> emits P (emit (W:=W) e).
Proof. intros H s. apply wp_emit. now constructor. Qed.

Lemma emits_getThis : emits P (getThis (W:=W)).
Proof. intro s. apply wp_getThis. constructor. Qed.

Lemma emits_getWorld : emits P (getWorld (W:=W)).
Proof. intro s. apply wp_getWorld. constructor. Qed.

Lemma emits_modifyThis (f : Plugin -> Plugin) : emits P (modifyThis (W:=W) f).
Proof. intro s. apply wp_modifyThis. constructor. Qed.

Lemma emits_call A (op : W -> Result A * W) (ev : Result A -> Event) :
  (forall r, P (ev r)) -> emits P (call op ev).
Proof. intros H s. apply wp_call. intros r w' _. constructor; [apply H | constructor]. Qed.

Lemma emits_query A (op : W -> Result A * W) : emits P (query op).
Proof. intro s. apply wp_query. intros r w' _. constructor. Qed.

Lemma emits_bind A B (m : Comp.M W A) (f : A -> Comp.M W B) :
  emits P m -> (forall a, emits P (f a)) -> emits P (bind m f).
Proof.
  intros Hm Hf s. apply wp_bind. eapply wp_mono; [apply Hm|].
  intros [a|e] s1 ev1 H1; [|exact H1].
  eapply wp_mono; [apply Hf|]. intros r2 s2 ev2 H2. apply Forall_app. now split.
Qed.

Lemma emits_tryCatch A (m : Comp.M W A) (h : JsError -> Comp.M W A) :
  emits P m -> (forall e, emits P (h e)) -> emits P (tryCatch m h).
Proof.
  intros Hm Hh s. apply wp_tryCatch. eapply wp_mono; [apply Hm|].
  intros [a|e] s1 ev1 H1; [exact H1|].
  eapply wp_mono; [apply Hh|]. intros r2 s2 ev2 H2. apply Forall_app. now split.
Qed.
End Emits.

(** Goals [emits P m] for code without loops. *)
Ltac emits_step :=
  first
    [ apply emits_ret | apply emits_throw | apply emits_getThis | apply emits_getWorld
    | apply emits_modifyThis | apply emits_query
    | apply emits_emit; exact I
    | apply emits_call; intro; exact I
    | apply emits_bind; [|intro]
    | apply emits_tryCatch; [|intro]
    | match goal with
      | |- emits _ (if ?b then _ else _) => destruct b
      | |- emits _ (match ?x with _ => _ end) => destruct x
      end ].

Ltac emits_auto := repeat emits_step.

Lemma saves_none (evs : list Event) : Forall notSave evs -> saves evs = [].
Proof.
  induction 1 as [|e evs He _ IH]; [reflexivity|].
  destruct e; simpl in *; try contradiction; exact IH.
Qed.

Section NoSave.
Context {W : Type} (host : Host W).

Lemma writeFrontmatter_notSave file u expiresAt ttlDays :
  emits notSave (writeFrontmatter host file u expiresAt ttlDays).
Proof. unfold writeFrontmatter. emits_auto. Qed.

Lemma refreshLoop_notSave excludePath entries :
  emits notSave (refreshLoop host excludePath entries).
Proof.
  induction entries as [|[filePath note] rest IH]; simpl; [apply emits_ret|].
  destruct (eqs filePath excludePath); [exact IH|].
  apply emits_bind; [apply emits_getWorld|]. intro w.
  destruct (vault_getAbstractFileByPath host filePath w) as [[file|]|]; try exact IH.
  apply emits_bind.
  - apply emits_tryCatch; [|intro; apply emits_ret].
    apply emits_bind; [apply writeFrontmatter_notSave | intro; apply emits_ret].
  - intro one. apply emits_bind; [exact IH | intro; apply emits_ret].
Qed.

Lemma refreshProExpiration_notSave excludePath :
  emits notSave (refreshProExpiration host excludePath).
Proof.
  unfold refreshProExpiration.
  apply emits_bind; [apply emits_emit; exact I|]. intros _.
  apply emits_bind; [apply emits_getThis|]. intro p.
  destruct (negb (storeFrontmatter (settings p))); [apply emits_ret|].
  apply emits_bind; [apply refreshLoop_notSave|]. intro n.
  unfold notice. emits_auto.
Qed.

Lemma uploadAll_notSave nameOf wrap apiKey sourceFile refs :
  emits notSave (uploadAll host nameOf wrap apiKey sourceFile refs).
Proof.
  induction refs as [|m refs IH]; simpl; [apply emits_ret|].
  apply emits_bind; [unfold resolveAndUploadImage; emits_auto|]. intro url.
  apply emits_bind; [exact IH | intro; apply emits_ret].
Qed.

Lemma prepare_notSave file : emits notSave (prepare host file).
Proof.
  unfold prepare, processMarkdown, processImages.
  apply emits_bind; [apply emits_getThis|]. intro p.
  apply emits_bind; [apply emits_query|]. intro content.
  apply emits_bind; [|intro; apply emits_ret].
  apply emits_bind; [|intro; apply emits_ret].
  apply emits_bind; [apply uploadAll_notSave|]. intro wiki.
  apply emits_bind; [apply uploadAll_notSave|]. intro std. apply emits_ret.
Qed.

Lemma publishWithRetry_notSave hasApiKey existing markdown title :
  emits notSave (publishWithRetry host hasApiKey existing markdown title).
Proof. unfold publishWithRetry, remotePublish. emits_auto. Qed.

Lemma recordPublished_saves file hasApiKey existing result retried (s : State W) :
  wp (recordPublished host file hasApiKey existing result retried) s (fun r s' evs =>
    exists out,
      saves evs
      = [(dataOf (setNote (path file)
                    (recordOf result (toISOString_now host (world s))) (this s)), out)]).
Proof.
  unfold recordPublished. apply wp_bind, wp_getWorld.
  apply wp_bind, wp_modifyThis. apply wp_bind.
  unfold saveSettings. apply wp_bind, wp_getThis. apply wp_call.
  intros [[]|e] w' _; [|simpl; now exists (Throw e)].
  match goal with
  | |- wp ?m ?st _ => assert (Hrest : emits notSave m)
  end.
  { apply emits_bind; [apply writeFrontmatter_notSave|]. intros _.
    apply emits_bind; [apply emits_getThis|]. intro p1.
    apply emits_bind.
    { destruct (falsyNumber (res_ttlDays result) && negb (proRefreshDone p1))%bool;
        [|apply emits_ret].
      apply emits_bind; [apply emits_modifyThis|]. intros _.
      apply refreshProExpiration_notSave. }
    intros _. unfold notice. emits_auto. }
  eapply wp_mono; [apply Hrest|]. intros r s' evs Hev. simpl in Hev.
  exists (Ok tt). simpl. now rewrite (saves_none Hev).
Qed.

Lemma wp_and A (m : Comp.M W A) (s : State W)
  (Q1 Q2 : Result A -> State W -> list Event -> Prop) :
  wp m s Q1 -> wp m s Q2 -> wp m s (fun r s' evs => Q1 r s' evs /\ Q2 r s' evs).
Proof. unfold wp. destruct (m s) as [[r s'] evs]. auto. Qed.

Lemma RetryRun_last hasApiKey existing r cs :
  RetryRun hasApiKey existing r cs ->
  exists c, lastCall cs = Some c
            /\ match r with
               | Ok rr => call_out c = Ok (fst rr)
               | Throw e => call_out c = Throw e
               end.
Proof. intros [res | e H | e res H1 H2 | e e2 H1 H2]; eexists; split; reflexivity. Qed.

Lemma onlyPublish_saves (evs : list Event) : onlyPublish evs -> saves evs = [].
Proof.
  unfold onlyPublish. induction evs as [|e evs IH]; [reflexivity|].
  assert (Hle : length (publishCalls evs) <= length evs).
  { clear. induction evs as [|e evs IH]; simpl; [lia|]. destruct e; simpl; lia. }
  destruct e; simpl; intro H; try lia; apply IH; lia.
Qed.

Lemma publishFile_saves file (s : State W) :
  wp (publishFile host file) s (fun r s' evs =>
    match lastCall (publishCalls evs) with
    | Some c =>
        match call_out c with
        | Ok res =>
            exists now out,
              saves evs
              = [(dataOf (setNote (path file) (recordOf res now) (this s)), out)]
        | Throw _ => saves evs = []
        end
    | None => saves evs = []
    end).
Proof.
  unfold publishFile. apply wp_bind, wp_getThis. apply wp_bind, wp_emit.
  apply wp_tryCatch. unfold publishBody. apply wp_bind.
  eapply wp_mono; [apply wp_and; [apply prepare_spec | apply prepare_notSave]|].
  intros [[title markdown]|e] s1 prep ((Hs1 & Hprep) & Hp2);
    destruct (silent_quiet Hprep) as (Hpc & _); pose proof (saves_none Hp2) as Hps.
  2:{ apply wp_emit. simpl. rewrite !publishCalls_app, !saves_app, Hpc, Hps. reflexivity. }
  apply wp_bind.
  eapply wp_mono; [apply wp_and; [apply publishWithRetry_spec
                                 | apply publishWithRetry_notSave]|].
  intros [[res retried]|e] s2 calls ((Hs2 & Hrun & Hcalls) & Hc2);
    pose proof (saves_none Hc2) as Hcs;
    destruct (RetryRun_last Hrun) as (c & Hlast & Hout).
  2:{ apply wp_emit. simpl. rewrite !publishCalls_app, !saves_app, Hpc, Hps, Hcs.
      simpl. rewrite app_nil_r, Hlast, Hout. reflexivity. }
  eapply wp_mono; [apply wp_and; [apply recordPublished_spec
                                 | apply recordPublished_saves]|].
  intros r3 s3 rec (Hrec & out & Hsv).
  destruct (recorded_calls Hrec) as [Hrc _]. rewrite Hs2, Hs1 in Hsv. simpl in Hsv.
  assert (Hgoal : match lastCall (publishCalls ([] ++ prep ++ calls ++ rec)) with
                  | Some c0 =>
                      match call_out c0 with
                      | Ok res0 =>
                          exists now out0,
                            saves ([] ++ prep ++ calls ++ rec)
                            = [(dataOf (setNote (path file) (recordOf res0 now) (this s)),
                                out0)]
                      | Throw _ => saves ([] ++ prep ++ calls ++ rec) = []
                      end
                  | None => saves ([] ++ prep ++ calls ++ rec) = []
                  end).
  { simpl. rewrite !publishCalls_app, !saves_app, Hpc, Hps, Hcs, Hrc. simpl.
    rewrite app_nil_r, Hlast, Hout. simpl. eexists _, out. exact Hsv. }
  destruct r3 as [[]|e].
  - simpl in *. exact Hgoal.
  - apply wp_emit. simpl in *.
    replace (prep ++ (calls ++ rec) ++ [ENotice (str "JotBird: " ++ errorText e)])
      with ((prep ++ calls ++ rec) ++ [ENotice (str "JotBird: " ++ errorText e)])
      by now rewrite <- !app_assoc.
    rewrite publishCalls_app, saves_app. simpl. rewrite !app_nil_r. exact Hgoal.
Qed.
End NoSave.

(** X17: a run of [publishFile] saves the plugin data exactly once when its
    last publish call succeeded, and never otherwise. The data saved is the
    plugin object as it was before the run with the record of the published
    path replaced by the new one: the save happens before the tier sweep, so
    the one-shot flag it holds is still the old one. *)
Theorem publish_saves_the_new_record {W} (host : Host W) (file : TFile) (s : State W) :
  match lastCall (publishCalls (events (publishFile host file s))) with
  | Some c =>
      match call_out c with
      | Ok res =>
          exists now out,
            saves (events (publishFile host file s))
            = [(dataOf (setNote (path file) (recordOf res now) (this s)), out)]
      | Throw _ => saves (events (publishFile host file s)) = []
      end
  | None => saves (events (publishFile host file s)) = []
  end.
Proof.
  pose proof (publishFile_saves host file s) as H. apply wp_run in H. exact H.
Qed.

(** ** The status checks go on *)

Lemma tierAfter_snoc (l : list Ev) (e : Ev) :
  tierAfter (l ++ [e])
  = match e with
    | CallEnd _ (Ok result) => tierOf result
    | _ => tierAfter l
    end.
Proof. unfold tierAfter. rewrite fold_left_app. reflexivity. Qed.

Lemma live_init (apiKey : jsstring) : LiveInv (init apiKey).
Proof. constructor; simpl; try reflexivity; discriminate. Qed.

Lemma live_loopHead (t : nat) (s : Sys) :
  LiveInv s -> (place s t = NotCalled \/ exists p, place s t = Waiting p) ->
  LiveInv (loopHead t s).
Proof.
  intros [Htier Hflight Hwait Hcall Hset] Ht. unfold loopHead.
  destruct (proCheckInFlight s) as [p|] eqn:Efl.
  - assert (Hpt : p <> t).
    { intro. subst p. destruct (Hflight t eq_refl) as [H | [H _]];
        destruct Ht as [Ht | [q Ht]]; congruence. }
    constructor; simpl.
    + exact Htier.
    + intros q Hq. inversion Hq; subst q. rewrite upd_other by exact Hpt.
      now apply Hflight.
    + intros u q. unfold upd at 1. destruct (Nat.eqb_spec u t).
      * intro H. inversion H; subst q. rewrite upd_other by exact Hpt.
        destruct (Hflight p eq_refl) as [H1 | [_ H1]]; auto.
      * intro H. destruct (Hwait u q H) as [H1 | H1]; [now left|].
        right. rewrite upd_other; [exact H1|]. intro. subst q.
        destruct Ht as [Ht | [q' Ht]]; congruence.
    + intros u. unfold upd. destruct (Nat.eqb_spec u t); [discriminate|].
      apply Hcall.
    + intros u. unfold upd. destruct (Nat.eqb_spec u t); [discriminate|].
      apply Hset.
  - constructor; simpl.
    + rewrite tierAfter_snoc. exact Htier.
    + intros q Hq. inversion Hq; subst q. left. apply upd_same.
    + intros u q. unfold upd at 1. destruct (Nat.eqb_spec u t); [discriminate|].
      intro H. destruct (Hwait u q H) as [H1 | H1]; [now left|].
      apply Hcall in H1. congruence.
    + intros u. unfold upd. destruct (Nat.eqb_spec u t); [now subst|].
      intro H. apply Hcall in H. congruence.
    + intros u. unfold upd. destruct (Nat.eqb_spec u t); [discriminate|].
      intro H. apply Hset in H. congruence.
Qed.

Lemma live_fire (a : Action) (s s' : Sys) :
  LiveInv s -> fire a s = Some s' -> LiveInv s'.
Proof.
  intros Hinv Hfire. destruct a as [t | t | t out | t]; simpl in Hfire.
  - destruct (place s t) eqn:Ept; try discriminate.
    destruct (negb (truthy (key s))).
    + inversion Hfire; subst s'. clear Hfire.
      destruct Hinv as [Htier Hflight Hwait Hcall Hset]. constructor; simpl.
      * change (log s ++ [Invoke t; Return t]) with (log s ++ [Invoke t] ++ [Return t]).
        rewrite app_assoc, !tierAfter_snoc. exact Htier.
      * intros p Hp. rewrite upd_other; [now apply Hflight|].
        intro. subst p. destruct (Hflight t Hp) as [H | [H _]]; congruence.
      * intros u p. unfold upd at 1. destruct (Nat.eqb_spec u t); [discriminate|].
        intro H. destruct (Hwait u p H) as [H1 | H1]; [now left|].
        right. rewrite upd_other; [exact H1|]. intro; subst p; congruence.
      * intros u. unfold upd. destruct (Nat.eqb_spec u t); [discriminate|]. apply Hcall.
      * intros u. unfold upd. destruct (Nat.eqb_spec u t); [discriminate|]. apply Hset.
    + inversion Hfire; subst s'. apply live_loopHead.
      * destruct Hinv as [Htier Hflight Hwait Hcall Hset]. constructor; simpl; auto.
        rewrite tierAfter_snoc. exact Htier.
      * left. exact Ept.
  - destruct (place s t) eqn:Ept; try discriminate.
    destruct (settledPromise s promise); [|discriminate].
    inversion Hfire; subst s'. apply live_loopHead; [exact Hinv|]. right. eauto.
  - destruct (place s t) eqn:Ept; try discriminate.
    inversion Hfire; subst s'. clear Hfire.
    destruct Hinv as [Htier Hflight Hwait Hcall Hset]. constructor; simpl.
    + rewrite tierAfter_snoc. destruct out as [result|e]; [reflexivity | exact Htier].
    + intros p Hp. pose proof (Hcall t Ept) as Hfl. rewrite Hfl in Hp.
      inversion Hp; subst p. right. now rewrite !upd_same.
    + intros u p. unfold upd at 1. destruct (Nat.eqb_spec u t); [discriminate|].
      intro H. unfold upd. destruct (Nat.eqb_spec p t); [now left|].
      destruct (Hwait u p H) as [H1 | H1]; [now left | now right].
    + intros u. unfold upd. destruct (Nat.eqb_spec u t); [discriminate|]. apply Hcall.
    + intros u. unfold upd. destruct (Nat.eqb_spec u t); [subst; auto|]. apply Hset.
  - destruct (place s t) eqn:Ept; try discriminate.
    inversion Hfire; subst s'. clear Hfire.
    destruct Hinv as [Htier Hflight Hwait Hcall Hset]. constructor; simpl.
    + rewrite tierAfter_snoc. exact Htier.
    + discriminate.
    + intros u p. unfold upd at 1. destruct (Nat.eqb_spec u t); [discriminate|].
      intro H. destruct (Hwait u p H) as [H1 | H1]; [now left|].
      right. rewrite upd_other; [exact H1|]. intro; subst p; congruence.
    + intros u. unfold upd. destruct (Nat.eqb_spec u t); [discriminate|].
      intro H. apply Hcall in H. apply Hset in Ept. congruence.
    + intros u. unfold upd. destruct (Nat.eqb_spec u t); [discriminate|].
      intro H. apply Hset in H. apply Hset in Ept. congruence.
Qed.

Lemma live_run (sched : list Action) (s s' : Sys) :
  LiveInv s -> runSchedule sched s = Some s' -> LiveInv s'.
Proof.
  revert s. induction sched as [|a sched IH]; simpl; intros s Hinv Hrun.
  - inversion Hrun; now subst.
  - destruct (fire a s) as [s1|] eqn:Efire; [|discriminate].
    apply (IH s1); [|exact Hrun]. eapply live_fire; eassumption.
Qed.

(** X18: whatever the order in which overlapping status checks run, the
    tier state is at every moment the one reported by the last remote call
    that succeeded so far (and unset while none has): a call that fails
    never changes it. *)
Theorem tier_follows_last_success (apiKey : jsstring) (sched : list Action) (s : Sys) :
  runSchedule sched (init apiKey) = Some s ->
  sysIsPro s = tierAfter (log s).
Proof. intro Hrun. exact (live_tier (live_run sched (live_init apiKey) Hrun)). Qed.


(** ** The texts a pattern consumes *)

Lemma aheadBy_refl (x : MState) : aheadBy 0 x x.
Proof. unfold aheadBy. simpl. repeat split; lia. Qed.

Lemma aheadBy_trans (n m : nat) (x y z : MState) :
  aheadBy n x y -> aheadBy m y z -> aheadBy (n + m) x z.
Proof.
  intros (Hn & Hb & Hi & Ha) (Hm & Hb' & Hi' & Ha').
  rewrite Ha in Hm, Hb', Ha'. rewrite length_skipn in Hm.
  repeat split.
  - lia.
  - rewrite Hb', Hb, app_assoc, <- rev_app_distr. f_equal. f_equal.
    rewrite <- (firstn_skipn n (firstn (n + m) (after x))).
    rewrite firstn_firstn, skipn_firstn_comm.
    replace (Nat.min n (n + m)) with n by lia.
    replace (n + m - n) with m by lia. reflexivity.
  - lia.
  - rewrite Ha', skipn_skipn. f_equal. lia.
Qed.

Lemma aheadBy_text (n m : nat) (x y : MState) :
  aheadBy n x y ->
  firstn (n + m) (after x) = firstn n (after x) ++ firstn m (after y).
Proof.
  intros (Hn & _ & _ & Ha). rewrite Ha.
  rewrite <- (firstn_skipn n (firstn (n + m) (after x))).
  rewrite firstn_firstn, skipn_firstn_comm.
  replace (Nat.min n (n + m)) with n by lia.
  replace (n + m - n) with m by lia. reflexivity.
Qed.

Lemma aheadBy_caps (n : nat) (x z : MState) cs cs' :
  aheadBy n x z ->
  aheadBy n (mkM (before x) (idx x) (after x) cs) (mkM (before z) (idx z) (after z) cs').
Proof. trivial. Qed.

Lemma advance_aheadBy (x y : MState) :
  advance x = Some y -> aheadBy 1 x y /\ exists c, firstn 1 (after x) = [c] /\ hd_error (after x) = Some c.
Proof.
  unfold advance. destruct x as [bef i aft cs]. simpl.
  destruct aft as [|c aft]; [discriminate|]. intro H. inversion H; subst.
  split; [|now exists c]. unfold aheadBy. simpl. repeat split; lia.
Qed.

Lemma eat_aheadBy (s : jsstring) (x y : MState) :
  eat s x = Some y -> exists n, aheadBy n x y.
Proof.
  revert x. induction s as [|c s IH]; intros x H; simpl in H.
  - inversion H. exists 0. apply aheadBy_refl.
  - destruct (after x) as [|d rest] eqn:E; [discriminate|].
    destruct (eqc c d); [|discriminate].
    destruct (advance x) as [x1|] eqn:Ea; [|discriminate].
    apply advance_aheadBy in Ea. destruct Ea as [Ea _].
    apply IH in H. destruct H as [n H]. exists (1 + n).
    eapply aheadBy_trans; eassumption.
Qed.

(** The matcher is sound for [Lang]: when it succeeds, the continuation
    was entered at a position further on, and the text in between is one the
    pattern can consume. *)
Lemma run_sound (ml : bool) (r : regex) :
  forall x k y, run ml r x k = Some y ->
  exists n z, aheadBy n x z /\ Lang r (firstn n (after x)) /\ k z = Some y.
Proof.
  induction r as [ | p | a IHa b IHb | a IHa b IHb | greedy min max a IHa
                   | n a IHa | n | a IHa | | ]; intros x k y H.
  - exists 0, x. split; [apply aheadBy_refl|]. split; [constructor | exact H].
  - simpl in H. destruct (after x) as [|c rest] eqn:E; [discriminate|].
    destruct (p c) eqn:Ep; [|discriminate].
    destruct (advance x) as [x1|] eqn:Ea; [|discriminate].
    exists 1, x1. split; [now apply advance_aheadBy|]. split; [|exact H].
    simpl. now constructor.
  - simpl in H. apply IHa in H. destruct H as (n1 & z1 & H1 & L1 & H).
    apply IHb in H. destruct H as (n2 & z2 & H2 & L2 & H).
    exists (n1 + n2), z2. split; [eapply aheadBy_trans; eassumption|].
    split; [|exact H]. rewrite (aheadBy_text n2 H1). now constructor.
  - simpl in H. unfold orElse in H.
    destruct (run ml a x k) eqn:E.
    + inversion H; subst. apply IHa in E. destruct E as (n1 & z1 & H1 & L1 & E).
      exists n1, z1. split; [exact H1|]. split; [now apply L_alt_l | exact E].
    + apply IHb in H. destruct H as (n1 & z1 & H1 & L1 & H).
      exists n1, z1. split; [exact H1|]. split; [now apply L_alt_r | exact H].
  - simpl in H. revert H.
    assert (Hfuel : min + length (after x) <= min + length (after x)) by lia.
    revert Hfuel. generalize (min + length (after x)) at 2 3. intro fuel.
    revert min max x. induction fuel as [|fuel IHf]; intros min max x Hfuel H.
    + exists 0, x. split; [apply aheadBy_refl|]. split; [|exact H].
      replace min with 0 by lia. constructor.
    + assert (Hk : forall (min : nat) (max : option nat),
                (min = 0 \/ max = Some 0) -> k x = Some y ->
                exists n z, aheadBy n x z
                            /\ Lang (Rep greedy min max a) (firstn n (after x))
                            /\ k z = Some y).
      { intros min0 max0 Hm Hx. exists 0, x. split; [apply aheadBy_refl|].
        split; [|exact Hx]. destruct Hm as [-> | ->]; constructor. }
      cbn beta iota zeta in H.
      destruct (match max with Some 0 => true | _ => false end) eqn:Emax.
      { destruct max as [[|m]|]; try discriminate. apply Hk; auto. }
      assert (Hmax : max <> Some 0) by (intros ->; discriminate).
      match type of H with
      | context [run ?ml0 ?a0 ?xr ?d] =>
          assert (Hrun : run ml0 a0 xr d = Some y ->
                    exists n z, aheadBy n x z
                                /\ Lang (Rep greedy min max a) (firstn n (after x))
                                /\ k z = Some y)
      end.
      { intro Hr. apply IHa in Hr. destruct Hr as (n1 & z1 & H1 & L1 & Hr).
        cbn [after] in L1.
        destruct (Nat.eqb min 0 && Nat.eqb (idx z1) (idx x))%bool eqn:Ez;
          [discriminate|].
        apply IHf in Hr.
        - destruct Hr as (n2 & z2 & H2 & L2 & Hr).
          exists (n1 + n2), z2.
          split; [eapply aheadBy_trans; [exact H1 | exact H2]|].
          split; [|exact Hr].
          rewrite (aheadBy_text n2 (x:=x) (y:=z1)); [now apply L_rep_more | exact H1].
        - destruct H1 as (Hn1 & _ & Hi1 & Ha1). cbn [idx after] in *.
          rewrite Ha1, length_skipn.
          apply andb_false_iff in Ez. destruct Ez as [Ez | Ez];
            apply Nat.eqb_neq in Ez; lia. }
      destruct max as [[|m]|]; [congruence| |];
        (destruct (negb (Nat.eqb min 0)) eqn:Emin; [now apply Hrun|];
         apply negb_false_iff, Nat.eqb_eq in Emin;
         destruct greedy; unfold orElse in H;
         [ match type of H with
           | match ?e with _ => _ end = _ => destruct e eqn:E
           end;
           [ inversion H; subst; now apply Hrun | apply Hk; auto ]
         | destruct (k x) eqn:E;
           [ inversion H; subst; apply Hk; auto | now apply Hrun ] ]).
  - simpl in H. apply IHa in H. destruct H as (n1 & z1 & H1 & L1 & H).
    eexists n1, _. split; [|split; [|exact H]].
    + exact H1.
    + now constructor.
  - simpl in H. destruct (capture n (caps x)).
    + destruct (eat j x) as [x1|] eqn:E; [|discriminate].
      destruct (eat_aheadBy _ _ E) as [m Hm].
      exists m, x1. split; [exact Hm|]. split; [constructor | exact H].
    + exists 0, x. split; [apply aheadBy_refl|]. split; [constructor | exact H].
  - simpl in H. destruct (run ml a x (fun y0 => Some y0)); [discriminate|].
    exists 0, x. split; [apply aheadBy_refl|]. split; [constructor | exact H].
  - simpl in H. exists 0, x. split; [apply aheadBy_refl|]. split; [constructor|].
    destruct (before x); [exact H|].
    destruct (ml && isLineTerminator c)%bool; [exact H | discriminate].
  - simpl in H. exists 0, x. split; [apply aheadBy_refl|]. split; [constructor|].
    destruct (after x); [exact H|].
    destruct (ml && isLineTerminator c)%bool; [exact H | discriminate].
Qed.

(** ** The image filter *)

Lemma execFrom_position (ml : bool) (r : regex) : forall aft bef i m,
  execFrom ml r bef i aft = Some m ->
  exists pre suf, aft = pre ++ suf
                  /\ matchAt ml r (rev pre ++ bef) (i + length pre) suf = Some m.
Proof.
  induction aft as [|c aft IH]; intros bef i m H; simpl in H.
  - destruct (matchAt ml r bef i []) eqn:E; [|discriminate].
    exists [], []. simpl. rewrite Nat.add_0_r. split; [reflexivity | congruence].
  - destruct (matchAt ml r bef i (c :: aft)) eqn:E.
    + exists [], (c :: aft). simpl. rewrite Nat.add_0_r. split; [reflexivity | congruence].
    + apply IH in H. destruct H as (pre & suf & -> & H).
      exists (c :: pre), suf. split; [reflexivity|]. simpl.
      rewrite <- app_assoc. simpl. replace (i + S (length pre)) with (S i + length pre) by lia.
      exact H.
Qed.

Lemma execFrom_reach (ml : bool) (r : regex) : forall pre suf bef i,
  matchAt ml r (rev pre ++ bef) (i + length pre) suf <> None ->
  execFrom ml r bef i (pre ++ suf) <> None.
Proof.
  induction pre as [|c pre IH]; intros suf bef i H; simpl in *.
  - rewrite Nat.add_0_r in H. destruct suf as [|d suf]; simpl;
      destruct (matchAt ml r bef i _); congruence.
  - destruct (matchAt ml r bef i (c :: pre ++ suf)); [discriminate|].
    apply IH. rewrite <- app_assoc in H. simpl in H.
    replace (S i + length pre) with (i + S (length pre)) by lia. exact H.
Qed.

Lemma Lang_cilits (p w : jsstring) :
  Lang (cilits p) w -> map lowerAscii w = map lowerAscii p.
Proof.
  revert w. induction p as [|c p IH]; intros w H.
  - inversion H. reflexivity.
  - destruct p as [|c' p'].
    + simpl in H. inversion H as [ |q d Hq| | | | | | | | | | | ]; subst.
      apply eqc_eq in Hq. simpl. now rewrite Hq.
    + change (cilits (c :: c' :: p')) with (Seq (ciChar c) (cilits (c' :: p'))) in H.
      inversion H as [ | |a b s t Ha Hb| | | | | | | | | | ]; subst.
      inversion Ha as [ |q d Hq| | | | | | | | | | | ]; subst.
      apply eqc_eq in Hq. apply IH in Hb. simpl. simpl in Hb. now rewrite Hq, Hb.
Qed.

Lemma Lang_opt (a : regex) (w : jsstring) :
  Lang (opt a) w -> w = [] \/ Lang a w.
Proof.
  unfold opt. intro H.
  inversion H as [ | | | | |g mx b|g mn b|g mn mx b s t Hmx Hs Ht| | | | | ]; subst.
  - now left.
  - right. simpl in Ht.
    inversion Ht as [ | | | | |g mx b|g mn b|g mn mx b s' t' Hmx' Hs' Ht'| | | | | ];
      subst; rewrite ?app_nil_r; try assumption.
    now elim Hmx'.
Qed.

(** The alternatives of [imageExtensions]. *)
Lemma imageExtensions_shape :
  imageExtensions
  = Seq (Chr (eqc 46))
        (Seq (Alt (cilits (str "png"))
                  (Alt (Seq (cilits (str "jp")) (Seq (opt (cilits (str "e")))
                                                     (cilits (str "g"))))
                       (Alt (cilits (str "gif"))
                            (Alt (cilits (str "webp")) (cilits (str "svg"))))))
             Eol).
Proof. reflexivity. Qed.

Lemma Lang_imageTypes (w : jsstring) :
  Lang (Alt (cilits (str "png"))
            (Alt (Seq (cilits (str "jp")) (Seq (opt (cilits (str "e")))
                                               (cilits (str "g"))))
                 (Alt (cilits (str "gif"))
                      (Alt (cilits (str "webp")) (cilits (str "svg")))))) w ->
  In (map lowerAscii w) imageTypes.
Proof.
  intro H.
  inversion H as [ | | |a b s Hl|a b s Hr| | | | | | | | ]; subst; clear H.
  { apply (@Lang_cilits (str "png")) in Hl. rewrite Hl. vm_compute. auto. }
  inversion Hr as [ | | |a b s Hl|a b s Hr'| | | | | | | | ]; subst; clear Hr.
  { inversion Hl as [ | |a b s t Ha Hb| | | | | | | | | | ]; subst.
    inversion Hb as [ | |a b s' t' Ha' Hb'| | | | | | | | | | ]; subst.
    apply (@Lang_cilits (str "jp")) in Ha. apply (@Lang_cilits (str "g")) in Hb'.
    apply (@Lang_opt (cilits (str "e"))) in Ha'.
    rewrite !map_app, Ha, Hb'.
    destruct Ha' as [-> | He].
    + vm_compute. auto.
    + apply (@Lang_cilits (str "e")) in He. rewrite He. vm_compute. auto 6. }
  inversion Hr' as [ | | |a b s Hl|a b s Hr| | | | | | | | ]; subst; clear Hr'.
  { apply (@Lang_cilits (str "gif")) in Hl. rewrite Hl. vm_compute. auto 6. }
  inversion Hr as [ | | |a b s Hl|a b s Hr'| | | | | | | | ]; subst; clear Hr.
  { apply (@Lang_cilits (str "webp")) in Hl. rewrite Hl. vm_compute. auto 6. }
  apply (@Lang_cilits (str "svg")) in Hr'. rewrite Hr'. vm_compute. auto 8.
Qed.

Lemma imageExtensions_sound (name : jsstring) :
  test false imageExtensions name = true ->
  exists stem ext, name = stem ++ str "." ++ ext /\ In (map lowerAscii ext) imageTypes.
Proof.
  unfold test, exec. destruct (execFrom false imageExtensions [] 0 name) as [m|] eqn:E;
    [|discriminate]. intros _.
  apply execFrom_position in E. destruct E as (pre & suf & -> & E).
  unfold matchAt in E.
  match type of E with
  | match ?r with _ => _ end = _ => destruct r as [y|] eqn:Er; [|discriminate]
  end.
  clear E. rewrite imageExtensions_shape in Er.
  change (run false (Seq ?a ?b) ?x ?k) with (run false a x (fun z => run false b z k)) in Er.
  apply run_sound in Er. destruct Er as (n1 & z1 & H1 & L1 & Er).
  change (run false (Seq ?a ?b) ?x ?k) with (run false a x (fun z => run false b z k)) in Er.
  apply run_sound in Er. destruct Er as (n2 & z2 & H2 & L2 & Er).
  assert (Hend : after z2 = []).
  { simpl in Er. destruct (after z2); [reflexivity | discriminate]. }
  destruct H1 as (Hn1 & _ & _ & Ha1). destruct H2 as (Hn2 & _ & _ & Ha2).
  cbn [after] in *.
  rewrite Hend in Ha2.
  assert (Hall : firstn n2 (after z1) = after z1).
  { rewrite <- (firstn_skipn n2 (after z1)) at 2. rewrite <- Ha2. now rewrite app_nil_r. }
  rewrite Hall, Ha1 in L2.
  inversion L1 as [ |q d Hq Hp Hd| | | | | | | | | | | ].
  apply eqc_eq in Hq. subst d.
  exists pre, (skipn n1 suf). split.
  - rewrite <- (firstn_skipn n1 suf) at 1. rewrite <- Hd. reflexivity.
  - now apply Lang_imageTypes.
Qed.

Lemma jump_spec : forall n x, n <= length (after x) ->
  after (jump n x) = skipn n (after x) /\ idx (jump n x) = idx x + n.
Proof.
  induction n as [|n IH]; intros [bef i aft cs] H; simpl in *.
  - split; [reflexivity | lia].
  - destruct aft as [|c aft]; simpl in H; [lia|].
    unfold advance. simpl.
    destruct (IH (mkM (c :: bef) (S i) aft cs)) as (Ha & Hi); [simpl; lia|].
    simpl in Ha, Hi. split; [exact Ha | lia].
Qed.

Lemma run_cilits_hit (ml : bool) (p w rest : jsstring) (x : MState)
  (K : MState -> option MState) :
  after x = w ++ rest -> map lowerAscii w = map lowerAscii p ->
  exists z, run ml (cilits p) x K = K z /\ after z = rest /\ idx z = idx x + length p.
Proof.
  intros Ha Hw. rewrite run_cilits.
  assert (Hs : ciStartsWith (after x) p = true).
  { apply ciStartsWith_prefix. now exists w, rest. }
  rewrite Hs. exists (jump (length p) x).
  assert (Hl : length w = length p).
  { rewrite <- (length_map lowerAscii w), Hw. apply length_map. }
  destruct (@jump_spec (length p) x) as (Hj & Hi).
  { rewrite Ha, length_app. lia. }
  repeat split; [|exact Hi].
  rewrite Hj, Ha, <- Hl, skipn_app, skipn_all, Nat.sub_diag. reflexivity.
Qed.

Lemma run_alt_l (ml : bool) (a b : regex) x K :
  run ml a x K <> None -> run ml (Alt a b) x K <> None.
Proof. simpl. destruct (run ml a x K); simpl; congruence. Qed.

Lemma run_alt_r (ml : bool) (a b : regex) x K :
  run ml b x K <> None -> run ml (Alt a b) x K <> None.
Proof. simpl. destruct (run ml a x K); simpl; congruence. Qed.

Lemma run_opt_skip (ml : bool) (a : regex) x K :
  K x <> None -> run ml (opt a) x K <> None.
Proof.
  intro H. unfold opt. simpl. destruct (length (after x)); [exact H|].
  change (negb (0 =? 0)) with false. cbv iota.
  match goal with |- orElse ?m _ <> None => destruct m end; simpl; congruence.
Qed.

Lemma run_opt_take (ml : bool) (p w rest : jsstring) x K :
  after x = w ++ rest -> map lowerAscii w = map lowerAscii p -> p <> [] ->
  (forall z, after z = rest -> K z <> None) ->
  run ml (opt (cilits p)) x K <> None.
Proof.
  intros Ha Hw Hp HK. unfold opt. simpl.
  destruct (length (after x)) as [|fuel] eqn:El.
  { exfalso. rewrite Ha, length_app in El.
    assert (length w = length p).
    { rewrite <- (length_map lowerAscii w), Hw. apply length_map. }
    destruct p; [congruence | simpl in *; lia]. }
  change (negb (0 =? 0)) with false. change (0 =? 0) with true.
  cbn [andb pred predMax]. cbv iota.
  match goal with
  | |- orElse (run ml (cilits p) ?xr ?d) _ <> None =>
      destruct (@run_cilits_hit ml p w rest xr d Ha Hw) as (z & Hr & Hz & Hi)
  end.
  rewrite Hr. simpl in Hi.
  assert (Hne : Nat.eqb (idx z) (idx x) = false).
  { apply Nat.eqb_neq. destruct p; [congruence | simpl in Hi; lia]. }
  rewrite Hne. specialize (HK z Hz).
  destruct fuel; (destruct (K z); [simpl; congruence | congruence]).
Qed.

Lemma extensions_complete (ext : jsstring) (x1 : MState) (K : MState -> option MState) :
  after x1 = ext ->
  In (map lowerAscii ext) imageTypes ->
  (forall z, after z = [] -> K z <> None) ->
  run false (Alt (cilits (str "png"))
                 (Alt (Seq (cilits (str "jp")) (Seq (opt (cilits (str "e")))
                                                    (cilits (str "g"))))
                      (Alt (cilits (str "gif"))
                           (Alt (cilits (str "webp")) (cilits (str "svg")))))) x1 K
  <> None.
Proof.
  intros Hx Hin HK.
  assert (Hlit : forall p, map lowerAscii ext = map lowerAscii p ->
                   run false (cilits p) x1 K <> None).
  { intros p Hp.
    destruct (@run_cilits_hit false p ext [] x1 K) as (z & Hz & Haz & _);
      [now rewrite app_nil_r | exact Hp |].
    rewrite Hz. now apply HK. }
  unfold imageTypes in Hin. simpl in Hin.
  destruct Hin as [H|[H|[H|[H|[H|[H|[]]]]]]].
  - apply run_alt_l. apply Hlit. now rewrite <- H.
  - apply run_alt_r, run_alt_l.
    change (str "jpg") with (str "jp" ++ str "g") in H. symmetry in H.
    apply map_eq_app in H. destruct H as (w1 & w2 & Hext & H1 & H2).
    change (run false (Seq ?a ?b) ?x ?k) with (run false a x (fun z => run false b z k)).
    destruct (@run_cilits_hit false (str "jp") w1 w2 x1
                (fun z => run false (Seq (opt (cilits (str "e"))) (cilits (str "g"))) z K))
      as (z & Hz & Haz & _); [now rewrite Hx | now rewrite H1 |].
    rewrite Hz.
    change (run false (Seq ?a ?b) ?x ?k) with (run false a x (fun z => run false b z k)).
    apply run_opt_skip.
    destruct (@run_cilits_hit false (str "g") w2 [] z K) as (z' & Hz' & Haz' & _);
      [now rewrite app_nil_r | now rewrite H2 |].
    rewrite Hz'. now apply HK.
  - apply run_alt_r, run_alt_l.
    change (str "jpeg") with (str "jp" ++ str "e" ++ str "g") in H. symmetry in H.
    apply map_eq_app in H. destruct H as (w1 & w23 & Hext & H1 & H23).
    apply map_eq_app in H23. destruct H23 as (w2 & w3 & H23 & H2 & H3).
    change (run false (Seq ?a ?b) ?x ?k) with (run false a x (fun z => run false b z k)).
    destruct (@run_cilits_hit false (str "jp") w1 w23 x1
                (fun z => run false (Seq (opt (cilits (str "e"))) (cilits (str "g"))) z K))
      as (z & Hz & Haz & _); [now rewrite Hx | now rewrite H1 |].
    rewrite Hz.
    change (run false (Seq ?a ?b) ?x ?k) with (run false a x (fun z => run false b z k)).
    apply (@run_opt_take false (str "e") w2 w3);
      [now rewrite Haz | now rewrite H2 | discriminate |].
    intros z2 Hz2.
    destruct (@run_cilits_hit false (str "g") w3 [] z2 K) as (z' & Hz' & Haz' & _);
      [now rewrite app_nil_r | now rewrite H3 |].
    rewrite Hz'. now apply HK.
  - do 2 apply run_alt_r. apply run_alt_l. apply Hlit. now rewrite <- H.
  - do 3 apply run_alt_r. apply run_alt_l. apply Hlit. now rewrite <- H.
  - do 4 apply run_alt_r. apply Hlit. now rewrite <- H.
Qed.

Lemma run_chr_hit (ml : bool) (p : char -> bool) (c : char) (rest : jsstring)
  (x : MState) (k : MState -> option MState) :
  after x = c :: rest -> p c = true ->
  run ml (Chr p) x k = k (mkM (c :: before x) (S (idx x)) rest (caps x)).
Proof.
  intros Ha Hp. simpl. unfold advance. rewrite Ha, Hp. reflexivity.
Qed.

Lemma imageExtensions_complete (ext bef : jsstring) (i : nat) :
  In (map lowerAscii ext) imageTypes ->
  matchAt false imageExtensions bef i (str "." ++ ext) <> None.
Proof.
  intro Hin. unfold matchAt. cbv zeta.
  match goal with
  | |- match ?r with _ => _ end <> None =>
      assert (Hr : r <> None); [|destruct r; congruence]
  end.
  rewrite imageExtensions_shape.
  change (run false (Seq ?a ?b) ?x ?k) with (run false a x (fun z => run false b z k)).
  rewrite (@run_chr_hit false (eqc 46) 46%N ext) by reflexivity.
  change (run false (Seq ?a ?b) ?x ?k) with (run false a x (fun z => run false b z k)).
  apply (@extensions_complete ext); [reflexivity | exact Hin |].
  intros z Hz. simpl. rewrite Hz. discriminate.
Qed.

Lemma imageExtensions_accepts (stem ext : jsstring) :
  In (map lowerAscii ext) imageTypes ->
  test false imageExtensions (stem ++ str "." ++ ext) = true.
Proof.
  intro Hin. unfold test, exec.
  pose proof (@execFrom_reach false imageExtensions stem (str "." ++ ext) [] 0
                (@imageExtensions_complete ext _ _ Hin)) as H.
  destruct (execFrom false imageExtensions [] 0 (stem ++ str "." ++ ext));
    [reflexivity | congruence].
Qed.

Lemma imageTypes_have_mime (ext : jsstring) :
  In (map lowerAscii ext) imageTypes -> exists mime, getMimeType ext = Some mime.
Proof.
  unfold getMimeType, imageTypes. simpl.
  intros [H|[H|[H|[H|[H|[H|[]]]]]]]; rewrite <- H; eexists; reflexivity.
Qed.

(** X20: the image filter of [processImages] and the table of
    [getMimeType] agree. A name passes [imageExtensions] exactly when it
    ends in a dot followed by one of the extensions of the table, in any
    case of the letters; and [getMimeType] has a type for the extension of
    every name that passes. *)
Theorem image_filter_agrees_with_mime_table (name : jsstring) :
  (test false imageExtensions name = true <->
   exists stem ext,
     name = stem ++ str "." ++ ext /\ In (map lowerAscii ext) imageTypes)
  /\ (test false imageExtensions name = true ->
      exists stem ext mime,
        name = stem ++ str "." ++ ext /\ getMimeType ext = Some mime).
Proof.
  split; [split|].
  - apply imageExtensions_sound.
  - intros (stem & ext & -> & Hin). now apply imageExtensions_accepts.
  - intro H. apply imageExtensions_sound in H. destruct H as (stem & ext & -> & Hin).
    destruct (imageTypes_have_mime ext Hin) as (mime & Hm).
    now exists stem, ext, mime.
Qed.

(** ** What [publishFile] tells the user *)

Lemma localFailure_app (a b : list Event) :
  localFailure (a ++ b)
  = match localFailure a with Some e => Some e | None => localFailure b end.
Proof.
  induction a as [|e a IH]; [reflexivity|].
  destruct e; simpl; try exact IH.
  - destruct out; [exact IH | reflexivity].
  - destruct out; [exact IH | reflexivity].
Qed.

Lemma localFailure_none (evs : list Event) : Forall notLocal evs -> localFailure evs = None.
Proof.
  induction 1 as [|e evs He _ IH]; [reflexivity|].
  destruct e; simpl in *; try contradiction; exact IH.
Qed.

Lemma onlyPublish_notLocal (evs : list Event) : onlyPublish evs -> Forall notLocal evs.
Proof.
  unfold onlyPublish. induction evs as [|e evs IH]; [constructor|].
  assert (Hle : length (publishCalls evs) <= length evs).
  { clear. induction evs as [|e evs IH]; simpl; [lia|]. destruct e; simpl; lia. }
  destruct e; simpl; intro H; try lia; (constructor; [exact I | apply IH; lia]).
Qed.

Section Reports.
Context {W : Type} (host : Host W).

Lemma uploadAll_notLocal nameOf wrap apiKey sourceFile refs :
  emits notLocal (uploadAll host nameOf wrap apiKey sourceFile refs).
Proof.
  induction refs as [|m refs IH]; simpl; [apply emits_ret|].
  apply emits_bind; [unfold resolveAndUploadImage; emits_auto|]. intro url.
  apply emits_bind; [exact IH | intro; apply emits_ret].
Qed.

Lemma prepare_notLocal file : emits notLocal (prepare host file).
Proof.
  unfold prepare, processMarkdown, processImages.
  apply emits_bind; [apply emits_getThis|]. intro p.
  apply emits_bind; [apply emits_query|]. intro content.
  apply emits_bind; [|intro; apply emits_ret].
  apply emits_bind; [|intro; apply emits_ret].
  apply emits_bind; [apply uploadAll_notLocal|]. intro wiki.
  apply emits_bind; [apply uploadAll_notLocal|]. intro std. apply emits_ret.
Qed.

Lemma writeFrontmatter_notLocal file u expiresAt ttlDays :
  emits notLocal (writeFrontmatter host file u expiresAt ttlDays).
Proof. unfold writeFrontmatter. emits_auto. Qed.

Lemma refreshLoop_notLocal excludePath entries :
  emits notLocal (refreshLoop host excludePath entries).
Proof.
  induction entries as [|[filePath note] rest IH]; simpl; [apply emits_ret|].
  destruct (eqs filePath excludePath); [exact IH|].
  apply emits_bind; [apply emits_getWorld|]. intro w.
  destruct (vault_getAbstractFileByPath host filePath w) as [[file|]|]; try exact IH.
  apply emits_bind.
  - apply emits_tryCatch; [|intro; apply emits_ret].
    apply emits_bind; [apply writeFrontmatter_notLocal | intro; apply emits_ret].
  - intro one. apply emits_bind; [exact IH | intro; apply emits_ret].
Qed.

Lemma refreshProExpiration_notLocal excludePath :
  emits notLocal (refreshProExpiration host excludePath).
Proof.
  unfold refreshProExpiration.
  apply emits_bind; [apply emits_emit; exact I|]. intros _.
  apply emits_bind; [apply emits_getThis|]. intro p.
  destruct (negb (storeFrontmatter (settings p))); [apply emits_ret|].
  apply emits_bind; [apply refreshLoop_notLocal|]. intro n.
  unfold notice. emits_auto.
Qed.

Lemma sweepStep_reports (c : bool) (excludePath : jsstring) (s : State W) :
  wp (if c
      then bind (modifyThis (setProRefreshDone true))
                (fun _ => refreshProExpiration host excludePath)
      else ret tt) s
     (fun r s' evs =>
        r = Ok tt /\ settings (this s') = settings (this s) /\ Forall notLocal evs).
Proof.
  destruct c; [|apply wp_ret; repeat split; constructor].
  apply wp_bind, wp_modifyThis.
  eapply wp_mono; [apply wp_and; [apply refreshProExpiration_spec
                                 | apply refreshProExpiration_notLocal]|].
  intros r s' evs ((-> & Hs & _) & Hns).
  repeat split; [now rewrite Hs | exact Hns].
Qed.

Lemma recordPublished_reports file hasApiKey existing result retried (s : State W) :
  wp (recordPublished host file hasApiKey existing result retried) s (fun r s' evs =>
    match localFailure evs with
    | Some e => r = Throw e
    | None =>
        r = Ok tt
        /\ exists mid,
             evs = mid ++ [ENotice (successNotice
                                      (match existing with
                                       | Some _ => if negb retried then str "Updated"
                                                   else str "Published"
                                       | None => str "Published"
                                       end)
                                      hasApiKey (autoCopyLink (settings (this s))))]
    end).
Proof.
  unfold recordPublished. apply wp_bind, wp_getWorld.
  apply wp_bind, wp_modifyThis. apply wp_bind.
  eapply wp_mono; [apply saveSettings_spec|].
  intros [[]|e] s1 ev1 (Hs1 & data & ->); [|reflexivity].
  apply wp_bind.
  eapply wp_mono; [apply wp_and; [apply writeFrontmatter_spec
                                 | apply writeFrontmatter_notLocal]|].
  intros r2 s2 ev2 ((-> & Hs2 & _) & Hn2).
  apply wp_bind, wp_getThis. apply wp_bind.
  eapply wp_mono; [apply sweepStep_reports|].
  intros r3 s3 ev3 (-> & Hs3 & Hn3).
  apply wp_bind, wp_getThis.
  assert (Hset : settings (this s3) = settings (this s)).
  { rewrite Hs3, Hs2, Hs1. reflexivity. }
  rewrite Hset.
  pose proof (localFailure_none Hn2) as L2. pose proof (localFailure_none Hn3) as L3.
  set (verb := match existing with
               | Some _ => if negb retried then str "Updated" else str "Published"
               | None => str "Published"
               end).
  assert (Htail : forall (b : bool) msg pre, localFailure pre = None ->
            wp (bind (if b
                      then call (clipboard_writeText host (res_url result))
                                (EClipboard (res_url result))
                      else ret tt)
                     (fun _ => notice msg)) s3
               (fun r _ ev =>
                  match localFailure (pre ++ ev) with
                  | Some e => r = Throw e
                  | None => r = Ok tt /\ exists mid, pre ++ ev = mid ++ [ENotice msg]
                  end)).
  { intros b msg pre Hpre. apply wp_bind. destruct b.
    - apply wp_call. intros [[]|e] w' _.
      + apply wp_emit. rewrite localFailure_app, Hpre. simpl.
        split; [reflexivity|]. eexists (pre ++ [_]). now rewrite <- app_assoc.
      + rewrite localFailure_app, Hpre. reflexivity.
    - apply wp_ret. apply wp_emit. rewrite localFailure_app, Hpre. simpl.
      split; [reflexivity|]. now exists pre. }
  assert (Hpre : localFailure (ESaveData data (Ok tt) :: ev2 ++ ev3) = None).
  { simpl. now rewrite localFailure_app, L2, L3. }
  unfold successNotice.
  destruct hasApiKey; destruct (autoCopyLink (settings (this s))); cbn [negb];
    [ eapply wp_mono; [apply (Htail true _ _ Hpre)|]
    | eapply wp_mono; [apply (Htail false _ _ Hpre)|]
    | eapply wp_mono; [apply (Htail true _ _ Hpre)|]
    | eapply wp_mono; [apply (Htail false _ _ Hpre)|] ];
    (intros r s' evs H; simpl; simpl in H; rewrite <- !app_assoc in H; exact H).
Qed.

Lemma prepare_fails file (s : State W) :
  wp (prepare host file) s (fun r _ _ =>
    match r with
    | Throw e => exists w', vault_read host file (world s) = (Throw e, w')
    | Ok _ => True
    end).
Proof.
  unfold prepare. apply wp_bind, wp_getThis. apply wp_bind, wp_query.
  intros [content|e] w' Hread; [|simpl; eauto].
  apply wp_bind. eapply wp_mono; [apply processMarkdown_steady|].
  intros r s1 ev1 ([md ->] & _). apply wp_ret. exact I.
Qed.

Lemma RetryRun_verb hasApiKey existing res retried cs :
  RetryRun hasApiKey existing (Ok (res, retried)) cs ->
  verbOf existing cs
  = match existing with
    | Some _ => if negb retried then str "Updated" else str "Published"
    | None => str "Published"
    end.
Proof.
  intro H. inversion H; subst; unfold verbOf; destruct existing; reflexivity.
Qed.

Lemma publishFile_reports file (s : State W) :
  wp (publishFile host file) s (fun r s' evs =>
    r = Ok tt
    /\ exists middle closing,
         evs = ENotice (startNotice (JsObj.get (publishedNotes (this s)) (path file)))
               :: middle ++ [ENotice closing]
         /\ match lastCall (publishCalls evs) with
            | None =>
                exists e w',
                  vault_read host file (world s) = (Throw e, w')
                  /\ closing = str "JotBird: " ++ errorText e
            | Some c =>
                match call_out c with
                | Throw e => closing = str "JotBird: " ++ errorText e
                | Ok _ =>
                    match localFailure evs with
                    | Some e => closing = str "JotBird: " ++ errorText e
                    | None =>
                        closing
                        = successNotice
                            (verbOf (JsObj.get (publishedNotes (this s)) (path file))
                                    (publishCalls evs))
                            (truthy (apiKey (settings (this s))))
                            (autoCopyLink (settings (this s)))
                    end
                end
            end).
Proof.
  unfold publishFile. apply wp_bind, wp_getThis. apply wp_bind, wp_emit.
  apply wp_tryCatch. unfold publishBody. apply wp_bind.
  eapply wp_mono;
    [apply wp_and; [apply wp_and; [apply prepare_spec | apply prepare_notLocal]
                   | apply prepare_fails]|].
  intros [[title markdown]|e] s1 prep (((Hs1 & Hprep) & Hp2) & Hread);
    destruct (silent_quiet Hprep) as (Hpc & _); pose proof (localFailure_none Hp2) as Hpl.
  2:{ apply wp_emit. split; [reflexivity|]. exists prep, (str "JotBird: " ++ errorText e).
      split; [reflexivity|]. simpl. rewrite publishCalls_app, Hpc. simpl.
      destruct Hread as [w' Hread]. now exists e, w'. }
  apply wp_bind.
  eapply wp_mono; [apply publishWithRetry_spec|].
  intros [[res retried]|e] s2 calls (Hs2 & Hrun & Hcalls);
    pose proof (localFailure_none (onlyPublish_notLocal Hcalls)) as Hcl;
    destruct (RetryRun_last Hrun) as (c & Hlast & Hout).
  2:{ apply wp_emit. split; [reflexivity|].
      exists (prep ++ calls), (str "JotBird: " ++ errorText e).
      split; [simpl; now rewrite <- !app_assoc|].
      simpl. rewrite !publishCalls_app, Hpc. simpl. rewrite app_nil_r, Hlast, Hout.
      reflexivity. }
  eapply wp_mono; [apply wp_and; [apply recordPublished_spec
                                 | apply recordPublished_reports]|].
  intros r3 s3 rec (Hrec & Hrep).
  destruct (recorded_calls Hrec) as [Hrc _].
  rewrite Hs2, Hs1 in Hrep. simpl in Hrep.
  simpl in Hout.
  change (str "JotBird: "
          ++ match JsObj.get (publishedNotes (this s)) (path file) with
             | Some _ => str "Updating"
             | None => str "Publishing"
             end ++ str "...")
    with (startNotice (JsObj.get (publishedNotes (this s)) (path file))).
  set (ex := JsObj.get (publishedNotes (this s)) (path file)) in *.
  assert (Hcs : forall msg tail, publishCalls tail = [] ->
            publishCalls (ENotice msg :: prep ++ calls ++ tail)
            = publishCalls calls).
  { intros msg tail Ht. simpl. rewrite !publishCalls_app, Hpc, Ht. simpl.
    now rewrite app_nil_r. }
  assert (Hls : forall msg tail,
            localFailure (ENotice msg :: prep ++ calls ++ tail)
            = localFailure tail).
  { intros msg tail. simpl. now rewrite !localFailure_app, Hpl, Hcl. }
  destruct r3 as [[]|e].
  - split; [reflexivity|].
    destruct (localFailure rec) eqn:Lr; [discriminate Hrep|].
    destruct Hrep as (_ & mid & Hmid).
    exists (prep ++ calls ++ mid). eexists. split.
    + rewrite Hmid. simpl. rewrite <- !app_assoc. reflexivity.
    + cbn [app]. rewrite (Hcs _ rec Hrc), Hlast, Hout, Hls, Lr.
      now rewrite (RetryRun_verb Hrun).
  - apply wp_emit. split; [reflexivity|].
    exists (prep ++ calls ++ rec), (str "JotBird: " ++ errorText e). split.
    + simpl. rewrite <- !app_assoc. reflexivity.
    + cbn [app].
      replace ((prep ++ calls ++ rec) ++ [ENotice (str "JotBird: " ++ errorText e)])
        with (prep ++ calls ++ (rec ++ [ENotice (str "JotBird: " ++ errorText e)]))
        by now rewrite <- !app_assoc.
      rewrite Hcs by now rewrite publishCalls_app, Hrc.
      rewrite Hlast, Hout, Hls, localFailure_app.
      destruct (localFailure rec) eqn:Lr.
      * now inversion Hrep.
      * destruct Hrep as [Hrep _]. discriminate Hrep.
Qed.
End Reports.

(** X21: what [publishFile] tells the user. A run never throws. It opens
    with the notice [Updating...] when the path has a record and
    [Publishing...] when it has none, and its last event is one closing
    notice. When the last publish call failed, the closing notice carries
    the text of that failure; when no call was made, reading the document
    from the vault has failed and the notice carries the text of that
    failure; when the call succeeded but saving the data or writing
    to the clipboard failed afterwards, the text of that failure. Otherwise
    it is the success notice, which says [Updated] exactly when the path
    had a record and the first call succeeded, and [Published] after a
    retry or for a new record. *)
Theorem publish_reports_the_outcome {W} (host : Host W) (file : TFile) (s : State W) :
  outcome (publishFile host file s) = Ok tt
  /\ exists middle closing,
       events (publishFile host file s)
       = ENotice (startNotice (JsObj.get (publishedNotes (this s)) (path file)))
         :: middle ++ [ENotice closing]
       /\ match lastCall (publishCalls (events (publishFile host file s))) with
          | None =>
              exists e w',
                vault_read host file (world s) = (Throw e, w')
                /\ closing = str "JotBird: " ++ errorText e
          | Some c =>
              match call_out c with
              | Throw e => closing = str "JotBird: " ++ errorText e
              | Ok _ =>
                  match localFailure (events (publishFile host file s)) with
                  | Some e => closing = str "JotBird: " ++ errorText e
                  | None =>
                      closing
                      = successNotice
                          (verbOf (JsObj.get (publishedNotes (this s)) (path file))
                                  (publishCalls (events (publishFile host file s))))
                          (truthy (apiKey (settings (this s))))
                          (autoCopyLink (settings (this s)))
                  end
              end
          end.
Proof.
  pose proof (publishFile_reports host file s) as H. apply wp_run in H. exact H.
Qed.

(** ** The further properties on concrete inputs *)

Lemma absent_by_test (c : char) (s : jsstring) : existsb (eqc c) s = false -> ~ In c s.
Proof.
  intros H Hin. assert (Ht : existsb (eqc c) s = true).
  { apply existsb_exists. exists c. split; [exact Hin | now apply eqc_eq]. }
  congruence.
Qed.

Lemma untagged_text_is_kept_witness :
  hasTagStart (str "# Plan" ++ [LF] ++ str "## C# and F# ##") = false
  /\ Markdown.stripTags (str "# Plan" ++ [LF] ++ str "## C# and F# ##")
     = str "# Plan" ++ [LF] ++ str "## C# and F# ##".
Proof.
  assert (H : hasTagStart (str "# Plan" ++ [LF] ++ str "## C# and F# ##") = false)
    by reflexivity.
  split; [exact H|]. exact (@untagged_text_is_kept _ H).
Defined.

Lemma plain_prose_is_only_trimmed_witness :
  (startsWith (str "  A plain note, --- and all. ") (str "---") = false
   /\ ~ In percent (str "  A plain note, --- and all. ")
   /\ ~ In bracket (str "  A plain note, --- and all. ")
   /\ (true = true -> hasTagStart (str "  A plain note, --- and all. ") = false))
  /\ processMarkdown Demo.host (str "  A plain note, --- and all. ") Samples.testFile
       (str "key") true Samples.emptyState
     = (Ok (str "A plain note, --- and all."), Samples.emptyState, []).
Proof.
  assert (H1 : startsWith (str "  A plain note, --- and all. ") (str "---") = false)
    by reflexivity.
  assert (H2 : ~ In percent (str "  A plain note, --- and all. "))
    by (apply absent_by_test; reflexivity).
  assert (H3 : ~ In bracket (str "  A plain note, --- and all. "))
    by (apply absent_by_test; reflexivity).
  assert (H4 : true = true -> hasTagStart (str "  A plain note, --- and all. ") = false)
    by reflexivity.
  split; [auto|].
  exact (@plain_prose_is_only_trimmed _ Demo.host _ Samples.testFile (str "key") true
           Samples.emptyState H1 H2 H3 H4).
Defined.

Lemma title_falls_back_to_file_name_witness :
  (startsWith (str "No heading here.") (str "---") = false
   /\ ~ In hash (str "No heading here."))
  /\ extractTitle (str "No heading here.") Samples.testFile = str "test".
Proof.
  assert (H1 : startsWith (str "No heading here.") (str "---") = false) by reflexivity.
  assert (H2 : ~ In hash (str "No heading here."))
    by (apply absent_by_test; reflexivity).
  split; [auto|].
  exact (@title_falls_back_to_file_name _ Samples.testFile H1 H2).
Defined.

Lemma demo_vault_is_stable : stableVault Demo.host.
Proof. intros file fn w p. reflexivity. Qed.

Lemma sweep_covers_every_other_document_witness :
  (stableVault Demo.host /\ storeFrontmatter (settings (this Bench.session)) = true)
  /\ headerWrites (events (refreshProExpiration Demo.host (str "notes/a.md") Bench.session))
     = [(Samples.fileB, frontmatterWriter (url Samples.noteB) [] (Some 0%Z));
        (Samples.fileC, frontmatterWriter (url Samples.noteC) [] (Some 0%Z))]
  /\ notices (events (refreshProExpiration Demo.host (str "notes/a.md") Bench.session))
     = [str "JotBird: Updated 2 notes to Pro (no expiration)."].
Proof.
  assert (H1 : stableVault Demo.host) by exact demo_vault_is_stable.
  assert (H2 : storeFrontmatter (settings (this Bench.session)) = true) by reflexivity.
  split; [auto|].
  exact (@sweep_covers_every_other_document _ Demo.host (str "notes/a.md") Bench.session
           H1 H2).
Defined.

Lemma unpublish_follows_remote_delete_witness :
  unpublishNote Demo.host
    (Bench.facilities true (Throw (ErrorObj (str "Delete: Document not found"))) None)
    Samples.fileA Bench.session
  = (Ok tt, Bench.session, [ENotice (str "JotBird: Delete: Document not found")])
  /\ this Bench.session = this Bench.session.
Proof.
  exact (proj1 (proj2 (proj2
           (unpublish_follows_remote_delete Demo.host
              (Bench.facilities true (Throw (ErrorObj (str "Delete: Document not found")))
                                None)
              Samples.fileA Bench.session)))
           Samples.noteA (world Bench.session)
           (ErrorObj (str "Delete: Document not found")) Bench.session
           eq_refl eq_refl eq_refl).
Defined.

Example unpublish_run :
  let fac := Bench.facilities true (Ok (mkDelete true)) None in
  JsObj.keys (notesOf (final (unpublishNote Demo.host fac Samples.fileA Bench.session)))
  = [str "notes/b.md"; str "notes/c.md"]
  /\ notices (events (unpublishNote Demo.host fac Samples.fileA Bench.session))
     = [str "JotBird: Note unpublished."]
  /\ map (fun w => headerString (snd w [(str "tags", VOther 1);
                                         (str "jotbird_link", VString (str "u"));
                                         (str "jotbird_expires", VString (str "never"))])
                                "jotbird_link")
         (headerWrites (events (unpublishNote Demo.host fac Samples.fileA Bench.session)))
     = [None].
Proof. vm_compute. auto. Qed.

Lemma saved_data_is_restored_witness :
  loadSettings
    (Bench.facilities true (Ok (mkDelete true))
       (Some (storedOf (mkData (settings (this Bench.session))
                               (publishedNotes (this Bench.session))
                               (deviceFingerprint (this Bench.session))
                               (proRefreshDone (this Bench.session))))))
    Samples.emptyState
  = (Ok tt,
     mkState (mkPlugin (settings (this Bench.session)) (publishedNotes (this Bench.session))
                       (deviceFingerprint (this Bench.session))
                       (isPro (this Samples.emptyState))
                       (proRefreshDone (this Bench.session)))
             (world Samples.emptyState),
     []).
Proof.
  exact (proj1 (saved_data_is_restored Demo.host
                  (Bench.facilities true (Ok (mkDelete true))
                     (Some (storedOf (mkData (settings (this Bench.session))
                                             (publishedNotes (this Bench.session))
                                             (deviceFingerprint (this Bench.session))
                                             (proRefreshDone (this Bench.session))))))
                  Bench.session Samples.emptyState)
           _ (Ok tt) (world Samples.emptyState) eq_refl eq_refl eq_refl).
Defined.

Lemma replies_from_400_are_thrown_witness :
  Endpoint (Bench.transport Bench.notFoundReply)
           (Api.claimDocument (Bench.transport Bench.notFoundReply)
              (str "jb_key") (str "doc-a") (str "tok_a"))
           (str "Claim")
  /\ exists params, Api.rq_throw params = Some false /\
       forall w,
         Api.claimDocument (Bench.transport Bench.notFoundReply)
           (str "jb_key") (str "doc-a") (str "tok_a") w
         = match Bench.transport Bench.notFoundReply params w with
           | (Throw e, w') => (Throw e, w')
           | (Ok r, w') =>
               (if Nat.leb 400 (Api.status r)
                then Throw (ErrorObj (str "Claim" ++ str ": " ++ errorTextOf r))
                else Ok (replyBody r), w')
           end.
Proof.
  assert (H : Endpoint (Bench.transport Bench.notFoundReply)
                (Api.claimDocument (Bench.transport Bench.notFoundReply)
                   (str "jb_key") (str "doc-a") (str "tok_a"))
                (str "Claim")) by constructor.
  split; [exact H|]. exact (replies_from_400_are_thrown H).
Defined.

Lemma retry_follows_the_error_text_witness :
  (Endpoint (Bench.transport Bench.notFoundReply)
            (Api.publishNote (Bench.transport Bench.notFoundReply)
               (str "jb_key") (str "# T") (str "T") (Some (str "doc-a")))
            (str "Publish")
   /\ Api.publishNote (Bench.transport Bench.notFoundReply)
        (str "jb_key") (str "# T") (str "T") (Some (str "doc-a")) tt
      = (Throw (ErrorObj (str "Publish: Not found")), tt))
  /\ ((exists params,
         Bench.transport Bench.notFoundReply params tt
         = (Throw (ErrorObj (str "Publish: Not found")), tt))
      \/ (exists params r,
            Bench.transport Bench.notFoundReply params tt = (Ok r, tt)
            /\ 400 <= Api.status r
            /\ ErrorObj (str "Publish: Not found")
               = ErrorObj (str "Publish: " ++ errorTextOf r)
            /\ isNotFound (ErrorObj (str "Publish: Not found"))
               = ciIncludes (errorTextOf r) (str "not found")
            /\ (errorTextOf r = Api.requestFailed (Api.status r) ->
                isNotFound (ErrorObj (str "Publish: Not found")) = false))).
Proof.
  assert (H1 : Endpoint (Bench.transport Bench.notFoundReply)
                 (Api.publishNote (Bench.transport Bench.notFoundReply)
                    (str "jb_key") (str "# T") (str "T") (Some (str "doc-a")))
                 (str "Publish")) by constructor.
  assert (H2 : Api.publishNote (Bench.transport Bench.notFoundReply)
                 (str "jb_key") (str "# T") (str "T") (Some (str "doc-a")) tt
               = (Throw (ErrorObj (str "Publish: Not found")), tt)) by reflexivity.
  split; [auto|]. exact (@retry_follows_the_error_text _ _ _ tt tt _ H1 H2).
Defined.

(** A 404 whose body is plain text "Not found" sets off the retry; a 404
    with an empty body does not; the request carries the credential and the
    body of the publish call as JSON text. *)
Example not_found_replies :
  isNotFound (ErrorObj (str "Publish: " ++ errorTextOf Bench.notFoundReply)) = true
  /\ isNotFound (ErrorObj (str "Publish: " ++ errorTextOf Bench.emptyReply)) = false
  /\ errorTextOf Bench.emptyReply = str "Request failed with status 404"
  /\ JsObj.get (Api.headers (str "jb_key")) (str "Authorization")
     = Some (str "Bearer jb_key")
  /\ JsObj.get (Api.headers []) (str "Authorization") = None
  /\ Api.stringify [(str "markdown", str "# T" ++ [LF] ++ [34%N] ++ str "x\y" ++ [34%N]);
                    (str "title", str "T")]
     = str "{" ++ [34%N] ++ str "markdown" ++ [34%N] ++ str ":" ++ [34%N]
       ++ str "# T\n\" ++ [34%N] ++ str "x\\y\" ++ [34%N] ++ [34%N] ++ str ","
       ++ [34%N] ++ str "title" ++ [34%N] ++ str ":" ++ [34%N] ++ str "T" ++ [34%N]
       ++ str "}".
Proof. vm_compute. repeat split. Qed.

Lemma tier_follows_last_success_witness :
  sysIsPro Runs.overlappingEnd = tierAfter (log Runs.overlappingEnd).
Proof.
  apply (@tier_follows_last_success (str "jb_key") Samples.overlapping).
  reflexivity.
Defined.

